(** * asio::detail::reactor_timer_queue

    A shallow embedding of [asio/detail/reactor_timer_queue.hpp], a queue of
    timers kept in a binary heap ordered by deadline and in a hash of
    cancellation tokens, with the properties of the heap and of the index.

    Conventions of the embedding.
    - A [timer_base*] is an address, a [Z]; the null pointer is [0].
    - The free store is a finite map from addresses to [timer_base]
      objects: [new] adds an object at an unused address, [delete] removes
      it, and reading or writing through an address that holds no object
      is undefined behaviour.
    - [std::vector<timer_base*>] is a [list Z]; [heap_[i]] with [i] not
      below [heap_.size()] is undefined behaviour ([operator[]] checks
      nothing).
    - [size_t] and [int] indices are [nat]: the vector holds one pointer
      per pending timer, so no index of the program reaches the range
      where the machine types wrap.
    - Functions that can run into undefined behaviour return [option];
      [None] is undefined behaviour.
    - A handler callback returns or throws; which of the two is given by
      the handler value.
    - [heap_[child] < heap_[child + 1]] in [down_heap] compares two
      pointers; it is modelled as the order of the two addresses.

    The file has two parts: the definitions (the program, the invariants,
    the scenarios), then the lemmas and theorems. *)

From stdpp Require Import gmap list.
From Stdlib Require Import ZArith Lia.

Local Open Scope Z_scope.
Local Open Scope nat_scope.

(** How a call ends: it returns a value, it fails in a way the program
    detects (an exception, a failed assertion), or its behaviour is
    undefined. *)
Inductive ending (A : Type) : Type :=
| Returns (a : A)
| Fails_loudly
| Undefined_behaviour.
Arguments Returns {A}.
Arguments Fails_loudly {A}.
Arguments Undefined_behaviour {A}.

(** Modelled from the spec: the class [hash_map<void*, timer_base*>] of
    [asio/detail/hash_map.hpp], which is not among the sources: "a mapping
    from cancellation token to a chain". It is a finite map from tokens to
    pointers with [find], [erase], and an [insert] that leaves the mapping
    of a key that is already present and returns it. *)
Abbreviation hash_map := (gmap Z Z).

(** ** Data model *)

Section reactor_timer_queue.

(** Template parameters [Time] and [Comparator]; [Handler] stands for the
    handler types of [timer<Handler>]. *)
Context {Time Handler : Type}.
Variable comp : Time → Time → bool.

(** Whether [handler_.do_operation()] and [handler_.do_cancel()] throw. *)
Variable do_operation_throws : Handler → bool.
Variable do_cancel_throws : Handler → bool.

(** The value of [~0] converted to [size_t]. *)
Variable npos : nat.

(** [class timer_base], with the [handler_] member of the derived
    [timer<Handler>]. *)
Record timer_base : Type := mk_timer {
  time_ : Time;
  token_ : Z;
  next_ : Z;
  prev_ : Z;
  heap_index_ : nat;
  handler_ : Handler
}.

Definition set_next (n : Z) (t : timer_base) : timer_base :=
  mk_timer (time_ t) (token_ t) n (prev_ t) (heap_index_ t) (handler_ t).
Definition set_prev (p : Z) (t : timer_base) : timer_base :=
  mk_timer (time_ t) (token_ t) (next_ t) p (heap_index_ t) (handler_ t).
Definition set_heap_index (i : nat) (t : timer_base) : timer_base :=
  mk_timer (time_ t) (token_ t) (next_ t) (prev_ t) i (handler_ t).

(** The queue object together with the free store its pointers refer to. *)
Record queue : Type := mk_queue {
  timers_ : hash_map;
  heap_ : list Z;
  store : gmap Z timer_base
}.

Definition set_timers (m : hash_map) (q : queue) : queue :=
  mk_queue m (heap_ q) (store q).
Definition set_heap (h : list Z) (q : queue) : queue :=
  mk_queue (timers_ q) h (store q).
Definition set_store (s : gmap Z timer_base) (q : queue) : queue :=
  mk_queue (timers_ q) (heap_ q) s.

(** The constructor: both containers empty. *)
Definition empty_queue (s : gmap Z timer_base) : queue := mk_queue ∅ [] s.

(** [p->field = v] for a pointer [p]. *)
Definition update_obj (p : Z) (f : timer_base → timer_base) (q : queue)
  : option queue :=
  t ← store q !! p; Some (set_store (<[p := f t]> (store q)) q).

(** ** Heap maintenance *)

(** [swap_heap(index1, index2)]. *)
Definition swap_heap (index1 index2 : nat) (q : queue) : option queue :=
  tmp ← heap_ q !! index1;
  x ← heap_ q !! index2;
  let q1 := set_heap (<[index2 := tmp]> (<[index1 := x]> (heap_ q))) q in
  p1 ← heap_ q1 !! index1;
  q2 ← update_obj p1 (set_heap_index index1) q1;
  p2 ← heap_ q2 !! index2;
  update_obj p2 (set_heap_index index2) q2.

(** [heap_[i]->time_]. *)
Definition time_at (i : nat) (q : queue) : option Time :=
  p ← heap_ q !! i; t ← store q !! p; Some (time_ t).

(** The loop of [up_heap]; [n] bounds the number of iterations. *)
Fixpoint up_heap_loop (n : nat) (index : nat) (q : queue) : option queue :=
  match n with
  | O => Some q
  | S n' =>
      if 0 <? index then
        a ← time_at index q;
        b ← time_at (index / 2) q;
        if comp a b then
          q' ← swap_heap index (index / 2) q;
          up_heap_loop n' (index / 2) q'
        else Some q
      else Some q
  end.

(** [up_heap(index)]: the index halves in every iteration. *)
Definition up_heap (index : nat) (q : queue) : option queue :=
  up_heap_loop (S index) index q.

(** The choice of [min_child] in [down_heap]: the two pointers
    [heap_[child]] and [heap_[child + 1]] are compared, not their times. *)
Definition min_child_of (child : nat) (q : queue) : option nat :=
  if child + 1 =? length (heap_ q) then Some child
  else
    a ← heap_ q !! child;
    b ← heap_ q !! (child + 1);
    Some (if (a <? b)%Z then child else child + 1).

(** The loop of [down_heap]. *)
Fixpoint down_heap_loop (n : nat) (index : nat) (q : queue) : option queue :=
  match n with
  | O => Some q
  | S n' =>
      let child := index * 2 + 1 in
      if child <? length (heap_ q) then
        min_child ← min_child_of child q;
        a ← time_at index q;
        b ← time_at min_child q;
        if comp a b then Some q
        else
          q' ← swap_heap index min_child q;
          down_heap_loop n' min_child q'
      else Some q
  end.

(** [down_heap(index)]: the index grows in every iteration and the loop
    ends when its first child is outside the vector. *)
Definition down_heap (index : nat) (q : queue) : option queue :=
  down_heap_loop (S (length (heap_ q))) index q.

(** The first half of [remove_timer]: take [t] out of the heap. The test
    before [up_heap] uses the time of the removed timer [t]. *)
Definition remove_from_heap (t : Z) (q : queue) : option queue :=
  tb ← store q !! t;
  let heap_index := heap_index_ tb in
  if 1 <? length (heap_ q) then
    q' ← swap_heap heap_index (length (heap_ q) - 1) q;
    let q'' := set_heap (removelast (heap_ q')) q' in
    tb' ← store q'' !! t;
    b ← (if 0 <? heap_index then
           pt ← time_at (heap_index / 2) q'';
           Some (comp (time_ tb') pt)
         else Some false);
    if b : bool then up_heap heap_index q'' else down_heap heap_index q''
  else Some (set_heap [] q).

(** The second half of [remove_timer]: unlink [t] from the chain of its
    token. *)
Definition remove_from_hash (t : Z) (q : queue) : option queue :=
  tb ← store q !! t;
  match timers_ q !! token_ tb with
  | None => Some q
  | Some head =>
      let second := if (head =? t)%Z then next_ tb else head in
      q1 ← (if (prev_ tb =? 0)%Z then Some q
            else update_obj (prev_ tb) (set_next (next_ tb)) q);
      tb1 ← store q1 !! t;
      q2 ← (if (next_ tb1 =? 0)%Z then Some q1
            else update_obj (next_ tb1) (set_prev (prev_ tb1)) q1);
      Some (set_timers
              (if (second =? 0)%Z then delete (token_ tb) (timers_ q2)
               else <[token_ tb := second]> (timers_ q2)) q2)
  end.

(** [remove_timer(t)]. *)
Definition remove_timer (t : Z) (q : queue) : option queue :=
  q1 ← remove_from_heap t q; remove_from_hash t q1.

(** ** The public operations *)

(** [enqueue_timer(time, handler, token)]; [new_timer] is the address
    that [new] returns. *)
Definition enqueue_timer (time : Time) (handler : Handler) (token : Z)
    (new_timer : Z) (q : queue) : option (bool * queue) :=
  let q0 := set_store
    (<[new_timer := mk_timer time token 0 0 npos handler]> (store q)) q in
  q1 ← match timers_ q0 !! token with
       | None => Some (set_timers (<[token := new_timer]> (timers_ q0)) q0)
       | Some head =>
           qa ← update_obj head (set_prev new_timer) q0;
           qb ← update_obj new_timer (set_next head) qa;
           Some (set_timers (<[token := new_timer]> (timers_ qb)) qb)
       end;
  q2 ← update_obj new_timer (set_heap_index (length (heap_ q1))) q1;
  let q3 := set_heap (heap_ q2 ++ [new_timer]) q2 in
  q4 ← up_heap (length (heap_ q3) - 1) q3;
  root ← heap_ q4 !! 0;
  Some (bool_decide (root = new_timer), q4).

(** [empty()]. *)
Definition empty (q : queue) : bool :=
  match heap_ q with [] => true | _ => false end.

(** [get_earliest_time(time)]: the value stored into [time]. *)
Definition get_earliest_time (q : queue) : option Time := time_at 0 q.

(** A callback made by the queue, with the queue as it is when the
    callback starts. *)
Inductive callback := DoOperation | DoCancel.
Record event : Type := mk_event {
  ev_kind : callback;
  ev_timer : Z;
  ev_handler : Handler;
  ev_queue : queue
}.

(** How a public operation that makes callbacks ends: it returns, or a
    callback throws and the exception leaves the operation, or its
    behaviour is undefined. Each carries the callbacks made so far. *)
Inductive result : Type :=
| Done (evs : list event) (q : queue)
| Threw (evs : list event) (q : queue)
| Undef (evs : list event).

Definition after (ev : event) (r : result) : result :=
  match r with
  | Done evs q => Done (ev :: evs) q
  | Threw evs q => Threw (ev :: evs) q
  | Undef evs => Undef (ev :: evs)
  end.

(** [delete t]. *)
Definition delete_obj (t : Z) (q : queue) : queue :=
  set_store (delete t (store q)) q.

(** The body of both loops once [t] is chosen: [remove_timer(t)], the
    callback, [delete t], then the rest of the loop. *)
Definition retire (k : callback) (t : Z) (q : queue)
    (rest : queue → result) : result :=
  match remove_timer t q with
  | None => Undef []
  | Some q1 =>
      match store q1 !! t with
      | None => Undef []
      | Some tb =>
          let ev := mk_event k t (handler_ tb) q1 in
          let throws := match k with
                        | DoOperation => do_operation_throws (handler_ tb)
                        | DoCancel => do_cancel_throws (handler_ tb)
                        end in
          if throws then Threw [ev] q1
          else after ev (rest (delete_obj t q1))
      end
  end.

(** The loop of [dispatch_timers]. *)
Fixpoint dispatch_loop (n : nat) (time : Time) (q : queue) : result :=
  match n with
  | O => Done [] q
  | S n' =>
      match heap_ q with
      | [] => Done [] q
      | t :: _ =>
          match store q !! t with
          | None => Undef []
          | Some tb =>
              if comp (time_ tb) time
              then retire DoOperation t q (dispatch_loop n' time)
              else Done [] q
          end
      end
  end.

(** [dispatch_timers(time)]: every iteration takes one timer off the
    heap. *)
Definition dispatch_timers (time : Time) (q : queue) : result :=
  dispatch_loop (S (length (heap_ q))) time q.

(** The loop of [cancel_timer]. *)
Fixpoint cancel_loop (n : nat) (t : Z) (q : queue) : result :=
  match n with
  | O => Done [] q
  | S n' =>
      if (t =? 0)%Z then Done [] q
      else
        match store q !! t with
        | None => Undef []
        | Some tb => retire DoCancel t q (cancel_loop n' (next_ tb))
        end
  end.

(** The [while] loop of [cancel_timer] from [t]: every iteration deletes
    one object. *)
Definition cancel_from (t : Z) (q : queue) : result :=
  cancel_loop (S (size (store q))) t q.

(** [cancel_timer(timer_token)]. *)
Definition cancel_timer (timer_token : Z) (q : queue) : result :=
  match timers_ q !! timer_token with
  | None => Done [] q
  | Some t => cancel_from t q
  end.

End reactor_timer_queue.

Arguments mk_timer {Time Handler}.
Arguments mk_queue {Time Handler}.
Arguments mk_event {Time Handler}.
Arguments Done {Time Handler}.
Arguments Threw {Time Handler}.
Arguments Undef {Time Handler}.

(** ** Sequences of operations *)

Section runs.

Context {Time Handler : Type}.
Variable comp : Time → Time → bool.
Variable do_operation_throws : Handler → bool.
Variable do_cancel_throws : Handler → bool.
Variable npos : nat.

(** A call of one of the three mutating members; [Enqueue] carries the
    address at which [new] places the timer. *)
Inductive op : Type :=
| Enqueue (time : Time) (handler : Handler) (token : Z) (new_timer : Z)
| Dispatch (time : Time)
| Cancel (token : Z).

Definition step (o : op) (q : queue) : @result Time Handler :=
  match o with
  | Enqueue time handler token new_timer =>
      match enqueue_timer comp npos time handler token new_timer q with
      | Some (_, q') => Done [] q'
      | None => Undef []
      end
  | Dispatch time =>
      dispatch_timers comp do_operation_throws do_cancel_throws time q
  | Cancel token =>
      cancel_timer comp do_operation_throws do_cancel_throws token q
  end.

(** [new] returns neither null nor the address of a live object. *)
Definition fresh_for (o : op) (q : @queue Time Handler) : Prop :=
  match o with
  | Enqueue _ _ _ new_timer => new_timer ≠ 0%Z ∧ store q !! new_timer = None
  | _ => True
  end.

Definition events_of (r : @result Time Handler) : list event :=
  match r with Done evs _ | Threw evs _ | Undef evs => evs end.

(** The queue states that sequences of operations produce. An operation
    that a callback leaves by an exception still produces a state. *)
Inductive reachable : queue → Prop :=
| reach_init : reachable (empty_queue ∅)
| reach_done q o evs q' :
    reachable q → fresh_for o q → step o q = Done evs q' → reachable q'
| reach_threw q o evs q' :
    reachable q → fresh_for o q → step o q = Threw evs q' → reachable q'.

(** Run a sequence of operations; the run ends early when an operation
    throws or is undefined. *)
Fixpoint run (ops : list op) (q : queue) : @result Time Handler :=
  match ops with
  | [] => Done [] q
  | o :: ops' =>
      match step o q with
      | Done evs q' =>
          match run ops' q' with
          | Done evs' q'' => Done (evs ++ evs') q''
          | Threw evs' q'' => Threw (evs ++ evs') q''
          | Undef evs' => Undef (evs ++ evs')
          end
      | r => r
      end
  end.

(** The deadlines in the heap array, in array order. *)
Definition heap_times (q : @queue Time Handler) : list (option Time) :=
  (λ p, time_ <$> store q !! p) <$> heap_ q.

End runs.

Arguments Enqueue {Time Handler}.
Arguments Dispatch {Time Handler}.
Arguments Cancel {Time Handler}.

(** ** Invariants and the notions the properties are stated with *)

Section invariants.

Context {Time Handler : Type}.
Abbreviation queue := (@queue Time Handler).
Abbreviation timer_base := (@timer_base Time Handler).
Abbreviation event := (@event Time Handler).
Abbreviation result := (@result Time Handler).
Abbreviation op := (@op Time Handler).
Variable comp : Time → Time → bool.
Variable do_operation_throws : Handler → bool.
Variable do_cancel_throws : Handler → bool.
Variable npos : nat.
Abbreviation step := (step comp do_operation_throws do_cancel_throws npos).

Definition heap_ok (q : queue) : Prop :=
  ∀ i p, heap_ q !! i = Some p →
    ∃ tb, store q !! p = Some tb ∧ heap_index_ tb = i.

(** Two stores that differ at most in cached heap indices. *)
Definition frame (s s' : gmap Z timer_base) : Prop :=
  ∀ p, set_heap_index 0 <$> s !! p = set_heap_index 0 <$> s' !! p.

(** What the heap maintenance functions keep. *)
Definition heap_step (q q' : queue) : Prop :=
  heap_ok q' ∧ length (heap_ q') = length (heap_ q) ∧
  (∀ x, x ∈ heap_ q' ↔ x ∈ heap_ q) ∧
  timers_ q' = timers_ q ∧ frame (store q) (store q').

(** Facts that need no invariant: an update through a pointer keeps the
    set of live objects, heap maintenance keeps the size of the vector. *)
Definition same_shape (q q' : queue) : Prop :=
  length (heap_ q') = length (heap_ q) ∧ dom (store q') = dom (store q).

(** [l[i]], or null past the end. *)
Definition nth0 (l : list Z) (i : nat) : Z := default 0%Z (l !! i).

(** [l] is a chain of the token index: a doubly linked list of distinct
    timers of token [tok], in the order of the [next_] pointers. *)
Definition chain (s : gmap Z timer_base) (tok : Z) (l : list Z) : Prop :=
  NoDup l ∧
  ∀ i x, l !! i = Some x →
    x ≠ 0%Z ∧
    ∃ tb, s !! x = Some tb ∧ token_ tb = tok ∧
          next_ tb = nth0 l (S i) ∧
          prev_ tb = match i with O => 0%Z | S j => nth0 l j end.

(** [timers_] maps [tok] to the head of the chain [l]. *)
Definition indexed (q : queue) (tok : Z) (l : list Z) : Prop :=
  l ≠ [] ∧ timers_ q !! tok = Some (nth0 l 0) ∧ chain (store q) tok l.

(** The object at [x] after [t], with fields [tb], is unlinked. *)
Definition relink_obj (tb : timer_base) (x : Z) (tbx : timer_base)
  : timer_base :=
  set_prev (if decide (x = next_ tb ∧ next_ tb ≠ 0%Z) then prev_ tb
            else prev_ tbx)
    (set_next (if decide (x = prev_ tb ∧ prev_ tb ≠ 0%Z) then next_ tb
               else next_ tbx) tbx).

(** The representation invariant of the queue. *)
Record wf (q : queue) : Prop := mk_wf {
  wf_heap : heap_ok q;
  wf_chains : ∀ tok head, timers_ q !! tok = Some head →
    ∃ l, indexed q tok l ∧ ∀ x, x ∈ l → x ∈ heap_ q;
  wf_indexed : ∀ p tb, p ∈ heap_ q → store q !! p = Some tb →
    ∃ l, indexed q (token_ tb) l ∧ p ∈ l
}.

(** What no operation changes in a live object. *)
Definition payload (tb : timer_base) : Time * Z * Handler :=
  (time_ tb, token_ tb, handler_ tb).
Definition same_payload (s s' : gmap Z timer_base) : Prop :=
  ∀ p, payload <$> s !! p = payload <$> s' !! p.

(** Whether the callback of an event throws. *)
Definition throws (ev : event) : bool :=
  match ev_kind ev with
  | DoOperation => do_operation_throws (ev_handler ev)
  | DoCancel => do_cancel_throws (ev_handler ev)
  end.

Definition timers_of (evs : list event) : list Z := ev_timer <$> evs.

(** The timer of a callback was pending when the operation started; when
    the callback starts the timer is out of the heap, still allocated,
    and the queue satisfies its invariant. *)
Definition event_ok (q : queue) (ev : event) : Prop :=
  ev_timer ev ∈ heap_ q ∧ wf (ev_queue ev) ∧
  (ev_timer ev ∉ heap_ (ev_queue ev)) ∧
  ∃ tb, store (ev_queue ev) !! ev_timer ev = Some tb ∧
        handler_ tb = ev_handler ev.

(** What both loops guarantee, for a loop started in [q]. *)
Definition loop_ok (q : queue) (r : result) : Prop :=
  NoDup (timers_of (events_of r)) ∧
  Forall (event_ok q) (events_of r) ∧
  match r with
  | Done evs q' =>
      wf q' ∧ (∀ x, x ∈ heap_ q' ↔ x ∈ heap_ q ∧ x ∉ timers_of evs) ∧
      (∀ x, store q !! x = None → store q' !! x = None) ∧
      Forall (λ ev, throws ev = false ∧ store q' !! ev_timer ev = None) evs
  | Threw evs q' =>
      wf q' ∧ (∀ x, x ∈ heap_ q' ↔ x ∈ heap_ q ∧ x ∉ timers_of evs) ∧
      (∀ x, store q !! x = None → store q' !! x = None) ∧
      ∃ evs0 ev, evs = evs0 ++ [ev] ∧ throws ev = true ∧ q' = ev_queue ev ∧
                 Forall (λ ev, throws ev = false) evs0
  | Undef evs => Forall (λ ev, throws ev = false) evs
  end.

(** ** Entries on the chains of the token index *)
(** [x] is reached from [p] along [next_] pointers. *)
Inductive reaches (s : gmap Z timer_base) : Z → Z → Prop :=
| reaches_here p : p ≠ 0%Z → reaches s p p
| reaches_next p tb x :
    p ≠ 0%Z → s !! p = Some tb → reaches s (next_ tb) x → reaches s p x.

(** [x] is on the chain of some token. *)
Definition in_index (q : queue) (x : Z) : Prop :=
  ∃ tok head, timers_ q !! tok = Some head ∧ reaches (store q) head x.

(** The deadline of the timer at address [x]. *)
Definition time_of (q : queue) (x : Z) : option Time :=
  time_ <$> store q !! x.

(** [x] is on the chain of token [tok]. *)
Definition on_chain (q : queue) (tok x : Z) : Prop :=
  ∃ head, timers_ q !! tok = Some head ∧ reaches (store q) head x.

(** A pending entry: in the heap or on a chain of the index. *)
Definition pending (q : queue) (x : Z) : Prop := x ∈ heap_ q ∨ in_index q x.

(** No pending deadline precedes the deadline at the root. *)
Definition root_is_earliest (q : queue) : Prop :=
  ∀ r tr x tx, heap_ q !! 0 = Some r → time_of q r = Some tr →
    x ∈ heap_ q → time_of q x = Some tx → comp tx tr = false.

(** A call of [get_earliest_time]: the function checks nothing, so it
    returns or is undefined. *)
Definition call_get_earliest_time (q : queue) : ending Time :=
  match get_earliest_time q with
  | Some t => Returns t
  | None => Undefined_behaviour
  end.

(** What happens to the entry at an address: [enqueue_timer] creates an
    entry there, or the queue makes a callback on the entry there. *)
Inductive mark : Type :=
| Created (p : Z)
| Called (ev : event).

Definition marks_of (o : op) (r : result) : list mark :=
  match o with
  | Enqueue _ _ _ new_timer => [Created new_timer]
  | _ => []
  end ++ (Called <$> events_of r).

(** The queue that an operation leaves, if it leaves one. *)
Definition final (r : result) : option queue :=
  match r with
  | Done _ q | Threw _ q => Some q
  | Undef _ => None
  end.

(** The marks of a sequence of operations, in order, with the queue that
    the sequence leaves; a sequence ends with the first operation whose
    behaviour is undefined. *)
Inductive history : list mark → option queue → Prop :=
| history_init : history [] (Some (empty_queue ∅))
| history_step h q o :
    history h (Some q) → fresh_for o q →
    history (h ++ marks_of o (step o q)) (final (step o q)).

(** The life of the entries at address [x]: [Some true] while an entry
    created there has had no callback, [Some false] when there is no such
    entry, [None] once a callback is made on [x] without such an entry
    (a second callback, or a callback on nothing), or an entry is created
    on top of one that still waits for its callback. *)
Definition life_step (x : Z) (st : option bool) (m : mark) : option bool :=
  match st with
  | None => None
  | Some waiting =>
      match m with
      | Created p =>
          if decide (p = x) then (if waiting then None else Some true)
          else Some waiting
      | Called ev =>
          if decide (ev_timer ev = x)
          then (if waiting then Some false else None)
          else Some waiting
      end
  end.

Definition life (x : Z) (h : list mark) : option bool :=
  foldl (life_step x) (Some false) h.

(** Entries created at [x] and callbacks made on [x]. *)
Definition is_created (x : Z) (m : mark) : bool :=
  match m with Created p => bool_decide (p = x) | Called _ => false end.
Definition is_called (x : Z) (m : mark) : bool :=
  match m with
  | Created _ => false
  | Called ev => bool_decide (ev_timer ev = x)
  end.
Definition creations (x : Z) (h : list mark) : nat :=
  length (filter (λ m, is_created x m = true) h).
Definition calls (x : Z) (h : list mark) : nat :=
  length (filter (λ m, is_called x m = true) h).

(** The heap property as the specification words it: the comparator holds
    between the deadline of the parent, at index [(i - 1) / 2], and the
    deadline at index [i]. *)
Definition heap_property (q : queue) : Prop :=
  ∀ i a b, 0 < i → time_at i q = Some a →
    time_at ((i - 1) / 2) q = Some b → comp b a = true.

(** The weaker reading, "parent sorts before or equal": the deadline at
    [i] does not precede the deadline of its parent. *)
Definition heap_ordered (q : queue) : Prop :=
  ∀ i a b, 0 < i → time_at i q = Some a →
    time_at ((i - 1) / 2) q = Some b → comp a b = false.

(** ** Notions for the further properties *)

(** [remove_timer(t)] reaches [up_heap(heap_index)] with [heap_index]
    equal to [heap_.size()]: [t] is at the last index of a heap of more
    than one timer, so that [pop_back] shortens the vector to that index,
    and its deadline precedes the deadline at half that index. *)
Definition sifts_up_from_end (t : Z) (q : queue) : bool :=
  match store q !! t with
  | None => false
  | Some tb =>
      (1 <? length (heap_ q)) &&
      (heap_index_ tb =? length (heap_ q) - 1) &&
      match time_at (heap_index_ tb / 2) q with
      | Some pt => comp (time_ tb) pt
      | None => false
      end
  end.

(** The comparator is a strict weak order. *)
Definition strict_weak_order : Prop :=
  (∀ a b, comp a b = true → comp b a = false) ∧
  (∀ a b c, comp a b = true → comp c b = false → comp a c = true).

(** The order that [up_heap] works towards: no deadline precedes the
    deadline at half its index. *)
Definition up_ordered (q : queue) : Prop :=
  ∀ i a b, 0 < i → time_at i q = Some a → time_at (i / 2) q = Some b →
    comp a b = false.

(** The states that sequences of [enqueue_timer] calls alone produce. *)
Inductive enqueued : queue → Prop :=
| enqueued_init : enqueued (empty_queue ∅)
| enqueued_step q time handler token new_timer b q' :
    enqueued q → new_timer ≠ 0%Z → store q !! new_timer = None →
    enqueue_timer comp npos time handler token new_timer q = Some (b, q') →
    enqueued q'.

(** The chain of [tok] in the index is [l]; a token with no entry is
    absent from the index. *)
Definition chain_of (q : queue) (tok : Z) (l : list Z) : Prop :=
  match l with
  | [] => timers_ q !! tok = None
  | _ :: _ => indexed q tok l
  end.

(** [l] without the timers of the callbacks [evs], in the order of [l]. *)
Definition without (evs : list event) (l : list Z) : list Z :=
  filter (λ x, x ∉ timers_of evs) l.

(** No callback of any handler throws. *)
Definition no_throw : Prop :=
  (∀ h, do_operation_throws h = false) ∧ (∀ h, do_cancel_throws h = false).

End invariants.

(** ** Scenarios *)

Module Scenarios.

(** Deadlines are integers compared by [std::less]; a handler is named by
    a number and either returns from its callbacks or throws. *)
Inductive handler : Type := Returning (id : Z) | Failing (id : Z).

Definition throwing (h : handler) : bool :=
  match h with Returning _ => false | Failing _ => true end.

(** [~0] for a 16-bit [size_t]; the constructor's value is overwritten
    before it is read. *)
Definition npos16 : nat := 2 ^ 16 - 1.

Definition init : @queue Z handler := empty_queue ∅.

Definition run_ops (ops : list (@op Z handler)) (q : @queue Z handler)
  : @result Z handler := run Z.ltb throwing throwing npos16 ops q.

(** A timer whose handler returns and is named by its deadline. *)
Definition enq (time token new_timer : Z) : @op Z handler :=
  Enqueue time (Returning time) token new_timer.

(** The callbacks made, in order, and the deadlines left in the heap
    array. *)
Definition called (r : @result Z handler) : list (callback * handler) :=
  (λ ev, (ev_kind ev, ev_handler ev)) <$> events_of r.

Definition final_times (r : @result Z handler) : option (list (option Z)) :=
  heap_times <$> final r.

Definition state_of (r : @result Z handler) : @queue Z handler :=
  match r with Done _ q | Threw _ q => q | Undef _ => init end.

Definition enq_state (r : option (bool * @queue Z handler))
  : @queue Z handler :=
  match r with Some (_, q) => q | None => init end.

(** Seven timers with distinct tokens. *)
Definition seven : list (@op Z handler) :=
  [enq 1 101 1000; enq 2 102 1016; enq 10 103 1032; enq 3 104 1048;
   enq 11 105 1064; enq 12 106 1080; enq 6 107 1096].

(** Four timers at addresses that grow, and at addresses that shrink. *)
Definition four_up : list (@op Z handler) :=
  [enq 1 101 1000; enq 3 102 1016; enq 2 103 1032; enq 4 104 1048].

Definition four_down : list (@op Z handler) :=
  [enq 1 101 1048; enq 3 102 1032; enq 2 103 1016; enq 4 104 1000].

(** Four timers, then the second one cancelled. *)
Definition four_less_one : list (@op Z handler) :=
  [enq 1 101 1000; enq 2 102 1016; enq 3 103 1032; enq 5 104 1048;
   Cancel 102].

(** One pending timer with deadline 5, and the same with a handler that
    throws. *)
Definition one : @queue Z handler :=
  state_of (run_ops [enq 5 101 1000] init).

Definition one_failing : @queue Z handler :=
  state_of (run_ops [Enqueue 5%Z (Failing 5) 101%Z 1000%Z] init).

(** The scenarios of the specification: three timers of one token, and
    three timers of three tokens. *)
Definition same_token : list (@op Z handler) :=
  [enq 5 101 1000; enq 1 101 1016; enq 3 101 1032].

Definition three_tokens : list (@op Z handler) :=
  [enq 10 101 1000; enq 20 102 1016; enq 30 103 1032].

End Scenarios.

(** * Proofs *)

#[local] Arguments Nat.div : simpl never.
#[local] Arguments Nat.mul : simpl never.
#[local] Arguments Nat.add : simpl never.
#[local] Arguments Nat.ltb : simpl never.
#[local] Arguments Nat.eqb : simpl never.

Ltac qsimpl :=
  cbn [heap_ store timers_ set_store set_heap set_timers delete_obj] in *.

Section proofs.

Context {Time Handler : Type}.
Abbreviation queue := (@queue Time Handler).
Abbreviation timer_base := (@timer_base Time Handler).
Abbreviation event := (@event Time Handler).
Abbreviation result := (@result Time Handler).
Abbreviation op := (@op Time Handler).
Variable comp : Time → Time → bool.
Variable do_operation_throws : Handler → bool.
Variable do_cancel_throws : Handler → bool.
Variable npos : nat.
Abbreviation heap_ok := (@heap_ok Time Handler).
Abbreviation frame := (@frame Time Handler).
Abbreviation heap_step := (@heap_step Time Handler).
Abbreviation same_shape := (@same_shape Time Handler).
Abbreviation chain := (@chain Time Handler).
Abbreviation indexed := (@indexed Time Handler).
Abbreviation relink_obj := (@relink_obj Time Handler).
Abbreviation wf := (@wf Time Handler).
Abbreviation payload := (@payload Time Handler).
Abbreviation same_payload := (@same_payload Time Handler).
Abbreviation timers_of := (@timers_of Time Handler).
Abbreviation event_ok := (@event_ok Time Handler).
Abbreviation reaches := (@reaches Time Handler).
Abbreviation in_index := (@in_index Time Handler).
Abbreviation time_of := (@time_of Time Handler).
Abbreviation on_chain := (@on_chain Time Handler).
Abbreviation pending := (@pending Time Handler).
Abbreviation call_get_earliest_time := (@call_get_earliest_time Time Handler).
Abbreviation mark := (@mark Time Handler).
Abbreviation marks_of := (@marks_of Time Handler).
Abbreviation final := (@final Time Handler).
Abbreviation life_step := (@life_step Time Handler).
Abbreviation life := (@life Time Handler).
Abbreviation is_created := (@is_created Time Handler).
Abbreviation is_called := (@is_called Time Handler).
Abbreviation creations := (@creations Time Handler).
Abbreviation calls := (@calls Time Handler).
Abbreviation step := (step comp do_operation_throws do_cancel_throws npos).
Abbreviation reachable :=
  (reachable comp do_operation_throws do_cancel_throws npos).
Abbreviation loop_ok :=
  (@loop_ok Time Handler do_operation_throws do_cancel_throws).
Abbreviation throws :=
  (@throws Time Handler do_operation_throws do_cancel_throws).
Abbreviation root_is_earliest := (@root_is_earliest Time Handler comp).
Abbreviation history :=
  (history comp do_operation_throws do_cancel_throws npos).

(** ** Lemmas on the heap array *)

Section heap_part.

Lemma frame_refl s : frame s s.
Proof. done. Qed.
Lemma frame_trans s1 s2 s3 : frame s1 s2 → frame s2 s3 → frame s1 s3.
Proof. intros H1 H2 p. by rewrite H1. Qed.

Lemma frame_insert s p tb i :
  s !! p = Some tb → frame s (<[p := set_heap_index i tb]> s).
Proof.
  intros Hp x. destruct (decide (p = x)) as [->|Hne].
  - rewrite lookup_insert_eq, Hp. done.
  - by rewrite lookup_insert_ne.
Qed.

Lemma frame_lookup s s' p tb :
  frame s s' → s !! p = Some tb →
  ∃ tb', s' !! p = Some tb' ∧ time_ tb' = time_ tb ∧ token_ tb' = token_ tb ∧
         next_ tb' = next_ tb ∧ prev_ tb' = prev_ tb ∧ handler_ tb' = handler_ tb.
Proof.
  intros Hf Hp. specialize (Hf p). rewrite Hp in Hf.
  destruct (s' !! p) as [tb'|]; [|done]. exists tb'. simpl in Hf.
  injection Hf as ?????. done.
Qed.

Lemma frame_sym s s' : frame s s' → frame s' s.
Proof. intros H p. by rewrite H. Qed.

Lemma heap_step_refl q : heap_ok q → heap_step q q.
Proof. intros H. repeat split; auto. Qed.

Lemma heap_step_trans q1 q2 q3 :
  heap_step q1 q2 → heap_step q2 q3 → heap_step q1 q3.
Proof.
  intros (_ & Hl1 & Hm1 & Ht1 & Hf1) (Hok & Hl2 & Hm2 & Ht2 & Hf2).
  split; [done|]. split; [congruence|]. split; [|split].
  - intros x. by rewrite Hm2.
  - congruence.
  - by eapply frame_trans.
Qed.

Lemma heap_ok_NoDup q : heap_ok q → NoDup (heap_ q).
Proof.
  intros Hok. apply NoDup_alt. intros i j x Hi Hj.
  destruct (Hok _ _ Hi) as (tb & Hs & <-).
  destruct (Hok _ _ Hj) as (tb' & Hs' & <-). congruence.
Qed.

Lemma swap_heap_spec (q : queue) i j a b :
  heap_ok q → heap_ q !! i = Some a → heap_ q !! j = Some b →
  ∃ q', swap_heap i j q = Some q' ∧
        heap_ q' = <[j := a]> (<[i := b]> (heap_ q)) ∧
        heap_step q q'.
Proof.
  intros Hok Hi Hj.
  pose proof (heap_ok_NoDup _ Hok) as Hnd.
  pose proof (lookup_lt_Some _ _ _ Hi) as Hli.
  pose proof (lookup_lt_Some _ _ _ Hj) as Hlj.
  destruct (Hok _ _ Hi) as (ta & Hsa & Hia).
  destruct (Hok _ _ Hj) as (tb & Hsb & Hib).
  unfold swap_heap. rewrite Hi, Hj. simpl.
  destruct (decide (i = j)) as [->|Hij].
  - assert (a = b) as <- by congruence.
    rewrite list_lookup_insert_eq by (rewrite length_insert; lia). simpl.
    unfold update_obj. simpl. rewrite Hsa. simpl.
    rewrite list_lookup_insert_eq by (rewrite length_insert; lia). simpl.
    rewrite lookup_insert_eq. simpl.
    eexists. split; [done|]. simpl. split; [done|].
    rewrite insert_insert_eq.
    assert (<[j:=a]> (<[j:=a]> (heap_ q)) = heap_ q) as Hh.
    { rewrite list_insert_insert_eq. by apply list_insert_id. }
    split; [|split; [|split; [|split]]]; simpl.
    + intros k p. rewrite Hh. intros Hk.
      destruct (Hok _ _ Hk) as (tk & Hsk & Hik). simpl.
      destruct (decide (a = p)) as [->|Hne].
      * rewrite lookup_insert_eq. eexists. split; [done|]. simpl.
        eapply NoDup_lookup; eauto.
      * rewrite lookup_insert_ne by done. eauto.
    + by rewrite Hh.
    + by rewrite Hh.
    + done.
    + change (set_heap_index j (set_heap_index j ta)) with (set_heap_index j ta).
      by apply frame_insert.
  - rewrite list_lookup_insert_ne by done.
    rewrite list_lookup_insert_eq by done. simpl.
    unfold update_obj at 2. simpl. rewrite Hsb. simpl.
    rewrite list_lookup_insert_eq by (rewrite length_insert; lia). simpl.
    unfold update_obj. simpl.
    assert (a ≠ b) as Hab.
    { intros ->. apply Hij. eapply NoDup_lookup; eauto. }
    rewrite lookup_insert_ne by done. rewrite Hsa. simpl.
    eexists. split; [done|]. simpl. split; [done|].
    split; [|split; [|split; [|split]]]; simpl.
    + intros k p Hk. qsimpl.
      destruct (decide (k = j)) as [->|Hkj].
      { rewrite list_lookup_insert_eq in Hk by (rewrite length_insert; lia).
        injection Hk as <-. rewrite lookup_insert_eq. eauto. }
      rewrite list_lookup_insert_ne in Hk by done.
      destruct (decide (k = i)) as [->|Hki].
      { rewrite list_lookup_insert_eq in Hk by done.
        injection Hk as <-. rewrite lookup_insert_ne by done.
        rewrite lookup_insert_eq. eauto. }
      rewrite list_lookup_insert_ne in Hk by done.
      destruct (Hok _ _ Hk) as (tk & Hsk & Hik).
      rewrite !lookup_insert_ne; [eauto| |].
      * intros ->. apply Hkj. eapply NoDup_lookup; eauto.
      * intros ->. apply Hki. eapply NoDup_lookup; eauto.
    + by rewrite !length_insert.
    + intros x. qsimpl. rewrite !list_elem_of_lookup. split.
      * intros [k Hk].
        destruct (decide (k = j)) as [->|Hkj].
        { rewrite list_lookup_insert_eq in Hk by (rewrite length_insert; lia).
          injection Hk as <-. eauto. }
        rewrite list_lookup_insert_ne in Hk by done.
        destruct (decide (k = i)) as [->|Hki].
        { rewrite list_lookup_insert_eq in Hk by done.
          injection Hk as <-. eauto. }
        rewrite list_lookup_insert_ne in Hk by done. eauto.
      * intros [k Hk].
        destruct (decide (k = j)) as [->|Hkj].
        { exists i. rewrite list_lookup_insert_ne by done.
          rewrite list_lookup_insert_eq by done. congruence. }
        destruct (decide (k = i)) as [->|Hki].
        { exists j. rewrite list_lookup_insert_eq by (rewrite length_insert; lia).
          congruence. }
        exists k. by rewrite !list_lookup_insert_ne.
    + done.
    + eapply frame_trans; [by apply frame_insert|].
      apply frame_insert. by rewrite lookup_insert_ne.
Qed.

Lemma time_at_defined (q : queue) i p :
  heap_ok q → heap_ q !! i = Some p →
  ∃ tb, store q !! p = Some tb ∧ time_at i q = Some (time_ tb).
Proof.
  intros Hok Hi. destruct (Hok _ _ Hi) as (tb & Hs & _).
  exists tb. split; [done|]. unfold time_at. rewrite Hi. simpl. by rewrite Hs.
Qed.

Lemma up_heap_loop_spec n index (q : queue) :
  heap_ok q → index < length (heap_ q) →
  ∃ q', up_heap_loop comp n index q = Some q' ∧ heap_step q q'.
Proof.
  revert index q. induction n as [|n IH]; intros index q Hok Hlt; simpl.
  { eauto using heap_step_refl. }
  destruct (0 <? index) eqn:Hpos; [|eauto using heap_step_refl].
  apply Nat.ltb_lt in Hpos.
  destruct (lookup_lt_is_Some_2 (heap_ q) index Hlt) as [a Ha].
  assert (index / 2 < length (heap_ q)) as Hlt2.
  { pose proof (Nat.Div0.div_le_upper_bound index 2 index). lia. }
  destruct (lookup_lt_is_Some_2 (heap_ q) (index / 2) Hlt2) as [b Hb].
  destruct (time_at_defined _ _ _ Hok Ha) as (ta & _ & ->).
  destruct (time_at_defined _ _ _ Hok Hb) as (tb & _ & ->). simpl.
  destruct (comp (time_ ta) (time_ tb)); [|eauto using heap_step_refl].
  destruct (swap_heap_spec q _ _ _ _ Hok Ha Hb) as (q1 & -> & Hh & Hst). simpl.
  destruct (IH (index / 2) q1) as (q2 & -> & Hst2).
  - apply Hst.
  - destruct Hst as (_ & -> & _). done.
  - eauto using heap_step_trans.
Qed.

Lemma min_child_of_spec (q : queue) child :
  child < length (heap_ q) →
  ∃ m, min_child_of child q = Some m ∧ (m = child ∨ m = child + 1) ∧
       m < length (heap_ q).
Proof.
  intros Hlt. unfold min_child_of.
  destruct (child + 1 =? length (heap_ q)) eqn:He.
  { exists child. auto. }
  apply Nat.eqb_neq in He.
  destruct (lookup_lt_is_Some_2 (heap_ q) child Hlt) as [a ->].
  destruct (lookup_lt_is_Some_2 (heap_ q) (child + 1)) as [b ->]; [lia|].
  simpl. destruct (a <? b)%Z; eexists; (split; [done|]); split; auto; lia.
Qed.

Lemma down_heap_loop_spec n index (q : queue) :
  heap_ok q →
  ∃ q', down_heap_loop comp n index q = Some q' ∧ heap_step q q'.
Proof.
  revert index q. induction n as [|n IH]; intros index q Hok; simpl.
  { eauto using heap_step_refl. }
  destruct (index * 2 + 1 <? length (heap_ q)) eqn:Hc;
    [|eauto using heap_step_refl].
  apply Nat.ltb_lt in Hc.
  destruct (min_child_of_spec q _ Hc) as (m & -> & Hm & Hml). simpl.
  destruct (lookup_lt_is_Some_2 (heap_ q) index) as [a Ha]; [lia|].
  destruct (lookup_lt_is_Some_2 (heap_ q) m Hml) as [b Hb].
  destruct (time_at_defined _ _ _ Hok Ha) as (ta & _ & ->).
  destruct (time_at_defined _ _ _ Hok Hb) as (tb & _ & ->). simpl.
  destruct (comp (time_ ta) (time_ tb)); [eauto using heap_step_refl|].
  destruct (swap_heap_spec q _ _ _ _ Hok Ha Hb) as (q1 & -> & Hh & Hst). simpl.
  destruct (IH m q1) as (q2 & -> & Hst2); [apply Hst|].
  eauto using heap_step_trans.
Qed.

Lemma same_shape_refl q : same_shape q q.
Proof. done. Qed.
Lemma same_shape_trans q1 q2 q3 :
  same_shape q1 q2 → same_shape q2 q3 → same_shape q1 q3.
Proof. intros [??] [??]. split; congruence. Qed.

Lemma update_obj_shape p f (q q' : queue) :
  update_obj p f q = Some q' →
  heap_ q' = heap_ q ∧ timers_ q' = timers_ q ∧
  dom (store q') = dom (store q).
Proof.
  unfold update_obj. intros Hu.
  destruct (store q !! p) as [t|] eqn:Hp; simpl in Hu; [|done].
  injection Hu as <-. simpl. split; [done|]. split; [done|].
  rewrite dom_insert_L. apply elem_of_dom_2 in Hp.
  apply subseteq_union_1_L. by apply singleton_subseteq_l.
Qed.

Lemma swap_heap_shape i j (q q' : queue) :
  swap_heap i j q = Some q' → same_shape q q'.
Proof.
  unfold swap_heap. intros H.
  destruct (heap_ q !! i) as [a|]; simplify_eq/=.
  destruct (heap_ q !! j) as [b|]; simplify_eq/=.
  destruct (<[j:=a]> (<[i:=b]> (heap_ q)) !! i) as [p1|]; simplify_eq/=.
  destruct (update_obj p1 _ _) as [q2|] eqn:H2; simplify_eq/=.
  destruct (heap_ q2 !! j) as [p2|]; simplify_eq/=.
  apply update_obj_shape in H2 as (Hh2 & _ & Hd2).
  apply update_obj_shape in H as (Hh & _ & Hd).
  split.
  - rewrite Hh, Hh2. simpl. by rewrite !length_insert.
  - rewrite Hd, Hd2. done.
Qed.

Lemma up_heap_loop_shape n index (q q' : queue) :
  up_heap_loop comp n index q = Some q' → same_shape q q'.
Proof.
  revert index q. induction n as [|n IH]; intros index q H; simpl in H.
  { by simplify_eq. }
  destruct (0 <? index); [|by simplify_eq].
  destruct (time_at index q) as [a|]; simplify_eq/=.
  destruct (time_at (index / 2) q) as [b|]; simplify_eq/=.
  destruct (comp a b); [|by simplify_eq].
  destruct (swap_heap _ _ q) as [q1|] eqn:Hs; simplify_eq/=.
  eapply same_shape_trans; [by eapply swap_heap_shape|by eapply IH].
Qed.

Lemma down_heap_loop_shape n index (q q' : queue) :
  down_heap_loop comp n index q = Some q' → same_shape q q'.
Proof.
  revert index q. induction n as [|n IH]; intros index q H; simpl in H.
  { by simplify_eq. }
  destruct (index * 2 + 1 <? length (heap_ q)); [|by simplify_eq].
  destruct (min_child_of _ q) as [m|]; simplify_eq/=.
  destruct (time_at index q) as [a|]; simplify_eq/=.
  destruct (time_at m q) as [b|]; simplify_eq/=.
  destruct (comp a b); [by simplify_eq|].
  destruct (swap_heap _ _ q) as [q1|] eqn:Hs; simplify_eq/=.
  eapply same_shape_trans; [by eapply swap_heap_shape|by eapply IH].
Qed.

(** The bound on the iterations of [up_heap] is never reached: any bound
    above the index gives the same result. *)
Lemma up_heap_loop_fuel n m index (q : queue) :
  index < n → index < m →
  up_heap_loop comp n index q = up_heap_loop comp m index q.
Proof.
  revert m index q. induction n as [|n IH]; intros m index q Hn Hm; [lia|].
  destruct m as [|m]; [lia|]. simpl.
  destruct (0 <? index) eqn:Hpos; [|done]. apply Nat.ltb_lt in Hpos.
  destruct (time_at index q) as [a|]; [|done]. simpl.
  destruct (time_at (index / 2) q) as [b|]; [|done]. simpl.
  destruct (comp a b); [|done].
  destruct (swap_heap _ _ q) as [q1|]; [|done]. simpl.
  assert (index / 2 < index) by (apply Nat.div_lt; lia).
  apply IH; lia.
Qed.

(** X8. The loop of [up_heap] ends before its bound, since the index
    halves in every iteration: the function satisfies the equation of the
    [while] loop, one iteration unrolled, in every state. *)
Theorem up_heap_unfold index (q : queue) :
  up_heap comp index q =
    if 0 <? index then
      a ← time_at index q;
      b ← time_at (index / 2) q;
      if comp a b then
        q' ← swap_heap index (index / 2) q; up_heap comp (index / 2) q'
      else Some q
    else Some q.
Proof.
  unfold up_heap at 1. simpl.
  destruct (0 <? index) eqn:Hpos; [|done]. apply Nat.ltb_lt in Hpos.
  destruct (time_at index q) as [a|]; [|done]. simpl.
  destruct (time_at (index / 2) q) as [b|]; [|done]. simpl.
  destruct (comp a b); [|done].
  destruct (swap_heap _ _ q) as [q1|]; [|done]. simpl.
  assert (index / 2 < index) by (apply Nat.div_lt; lia).
  apply up_heap_loop_fuel; lia.
Qed.

Lemma down_heap_loop_fuel n m index (q : queue) :
  length (heap_ q) ≤ index + n → length (heap_ q) ≤ index + m →
  down_heap_loop comp n index q = down_heap_loop comp m index q.
Proof.
  revert m index q. induction n as [|n IH]; intros m index q Hn Hm.
  - destruct m as [|m]; [done|]. simpl.
    destruct (index * 2 + 1 <? length (heap_ q)) eqn:Hc; [|done].
    apply Nat.ltb_lt in Hc. lia.
  - simpl. destruct m as [|m]; simpl.
    { destruct (index * 2 + 1 <? length (heap_ q)) eqn:Hc; [|done].
      apply Nat.ltb_lt in Hc. lia. }
    destruct (index * 2 + 1 <? length (heap_ q)) eqn:Hc; [|done].
    apply Nat.ltb_lt in Hc.
    destruct (min_child_of _ q) as [mc|] eqn:Hmc; [|done]. simpl.
    destruct (time_at index q) as [a|]; [|done]. simpl.
    destruct (time_at mc q) as [b|]; [|done]. simpl.
    destruct (comp a b); [done|].
    destruct (swap_heap _ _ q) as [q1|] eqn:Hs; [|done]. simpl.
    apply swap_heap_shape in Hs as [Hl _].
    destruct (min_child_of_spec q _ Hc) as (mc' & Hmc' & Hor & _).
    assert (mc' = mc) as -> by congruence.
    apply IH; lia.
Qed.

(** X9. The loop of [down_heap] ends before its bound, since the index
    grows in every iteration and stays below the size of the heap: the
    function satisfies the equation of the [while] loop, one iteration
    unrolled, in every state. *)
Theorem down_heap_unfold index (q : queue) :
  down_heap comp index q =
    let child := index * 2 + 1 in
    if child <? length (heap_ q) then
      min_child ← min_child_of child q;
      a ← time_at index q;
      b ← time_at min_child q;
      if comp a b then Some q
      else q' ← swap_heap index min_child q; down_heap comp min_child q'
    else Some q.
Proof.
  unfold down_heap at 1. simpl.
  destruct (index * 2 + 1 <? length (heap_ q)) eqn:Hc; [|done].
  destruct (min_child_of _ q) as [mc|] eqn:Hmc; [|done]. simpl.
  destruct (time_at index q) as [a|]; [|done]. simpl.
  destruct (time_at mc q) as [b|]; [|done]. simpl.
  destruct (comp a b); [done|].
  destruct (swap_heap _ _ q) as [q1|] eqn:Hs; [|done]. simpl.
  pose proof (swap_heap_shape _ _ _ _ Hs) as [Hl _].
  unfold down_heap. apply down_heap_loop_fuel; lia.
Qed.

End heap_part.

(** ** Lemmas on the chains of the token index *)

Section chain_part.

Lemma nth0_Some l j x : nth0 l j = x → x ≠ 0%Z → l !! j = Some x.
Proof. unfold nth0. destruct (l !! j); simpl; congruence. Qed.

Lemma nth0_Some' l j x : x = nth0 l j → x ≠ 0%Z → l !! j = Some x.
Proof. intros ->. by apply nth0_Some. Qed.

Lemma nth0_lookup l j x : l !! j = Some x → nth0 l j = x.
Proof. unfold nth0. by intros ->. Qed.

Lemma nth0_delete l k j :
  nth0 (delete k l) j = if decide (j < k) then nth0 l j else nth0 l (S j).
Proof.
  unfold nth0. case_decide.
  - by rewrite list_lookup_delete_lt.
  - by rewrite list_lookup_delete_ge by lia.
Qed.

Lemma chain_nonzero s tok l x : chain s tok l → x ∈ l → x ≠ 0%Z.
Proof.
  intros [_ H] [i Hi]%list_elem_of_lookup. by destruct (H _ _ Hi).
Qed.

Lemma chain_token s tok l x :
  chain s tok l → x ∈ l → ∃ tb, s !! x = Some tb ∧ token_ tb = tok.
Proof.
  intros [_ H] [i Hi]%list_elem_of_lookup.
  destruct (H _ _ Hi) as (_ & tb & ? & ? & _). eauto.
Qed.

(** A chain only depends on the link fields of its own timers. *)
Lemma chain_agree s s' tok l :
  chain s tok l →
  (∀ x tb, x ∈ l → s !! x = Some tb →
     ∃ tb', s' !! x = Some tb' ∧ token_ tb' = token_ tb ∧
            next_ tb' = next_ tb ∧ prev_ tb' = prev_ tb) →
  chain s' tok l.
Proof.
  intros [Hnd H] Hs. split; [done|]. intros i x Hi.
  destruct (H _ _ Hi) as (Hx & tb & Htb & Htok & Hn & Hp). split; [done|].
  destruct (Hs x tb) as (tb' & ? & ? & ? & ?);
    [by eapply list_elem_of_lookup_2|done|].
  exists tb'. repeat split; congruence.
Qed.

Lemma chain_frame s s' tok l : frame s s' → chain s tok l → chain s' tok l.
Proof.
  intros Hf Hc. eapply chain_agree; [done|]. intros x tb _ Hx.
  destruct (frame_lookup _ _ _ _ Hf Hx) as (tb' & ? & ? & ? & ? & ? & ?).
  eauto.
Qed.

(** The chain of a token is determined by its head. *)
Lemma chain_unique s tok l l' :
  chain s tok l → chain s tok l' → nth0 l 0 = nth0 l' 0 → l = l'.
Proof.
  intros [_ H] [_ H'] Hhd. apply list_eq. intros i.
  induction i as [|i IH].
  - destruct (l !! 0) as [x|] eqn:Hx, (l' !! 0) as [x'|] eqn:Hx'; try done.
    + unfold nth0 in Hhd. rewrite Hx, Hx' in Hhd. simpl in Hhd. congruence.
    + destruct (H _ _ Hx) as [Hne _]. unfold nth0 in Hhd.
      rewrite Hx, Hx' in Hhd. done.
    + destruct (H' _ _ Hx') as [Hne _]. unfold nth0 in Hhd.
      rewrite Hx, Hx' in Hhd. done.
  - destruct (l !! i) as [x|] eqn:Hx.
    + symmetry in IH.
      destruct (H _ _ Hx) as (_ & tb & Htb & _ & Hn & _).
      destruct (H' _ _ IH) as (_ & tb' & Htb' & _ & Hn' & _).
      assert (tb' = tb) as -> by congruence.
      assert (nth0 l (S i) = nth0 l' (S i)) as He by congruence.
      destruct (l !! S i) as [y|] eqn:Hy, (l' !! S i) as [y'|] eqn:Hy';
        try done.
      * unfold nth0 in He. rewrite Hy, Hy' in He. simpl in He. congruence.
      * destruct (H _ _ Hy) as [Hne _]. unfold nth0 in He.
        rewrite Hy, Hy' in He. done.
      * destruct (H' _ _ Hy') as [Hne _]. unfold nth0 in He.
        rewrite Hy, Hy' in He. done.
    + symmetry in IH.
      apply lookup_ge_None in Hx. apply lookup_ge_None in IH.
      rewrite (lookup_ge_None_2 l) by lia.
      rewrite (lookup_ge_None_2 l') by lia. done.
Qed.

Lemma indexed_unique (q : queue) tok l l' :
  indexed q tok l → indexed q tok l' → l = l'.
Proof.
  intros (_ & Hh & Hc) (_ & Hh' & Hc').
  eapply chain_unique; [done..|congruence].
Qed.

(** Chains of different tokens share no timer. *)
Lemma chain_disjoint s tok tok' l l' x :
  chain s tok l → chain s tok' l' → x ∈ l → x ∈ l' → tok = tok'.
Proof.
  intros Hc Hc' Hx Hx'.
  destruct (chain_token _ _ _ _ Hc Hx) as (tb & ? & ?).
  destruct (chain_token _ _ _ _ Hc' Hx') as (tb' & ? & ?). congruence.
Qed.

Lemma set_next_id (tb : timer_base) : set_next (next_ tb) tb = tb.
Proof. by destruct tb. Qed.
Lemma set_prev_id (tb : timer_base) : set_prev (prev_ tb) tb = tb.
Proof. by destruct tb. Qed.

Lemma relink_obj_other tb x tbx :
  ¬ (x = next_ tb ∧ next_ tb ≠ 0%Z) → ¬ (x = prev_ tb ∧ prev_ tb ≠ 0%Z) →
  relink_obj tb x tbx = tbx.
Proof.
  intros H1 H2. unfold relink_obj. rewrite !decide_False by done.
  by rewrite set_next_id, set_prev_id.
Qed.

Lemma chain_at s tok l k t tb :
  chain s tok l → l !! k = Some t → s !! t = Some tb →
  t ≠ 0%Z ∧ token_ tb = tok ∧ next_ tb = nth0 l (S k) ∧
  prev_ tb = match k with O => 0%Z | S j => nth0 l j end.
Proof.
  intros [_ H] Hk Ht. destruct (H _ _ Hk) as (? & tb' & ? & ? & ? & ?).
  assert (tb' = tb) as -> by congruence. done.
Qed.

Lemma chain_lookup s tok l i x :
  chain s tok l → l !! i = Some x →
  ∃ tb, s !! x = Some tb ∧ x ≠ 0%Z ∧ token_ tb = tok ∧
        next_ tb = nth0 l (S i) ∧
        prev_ tb = match i with O => 0%Z | S j => nth0 l j end.
Proof.
  intros [_ H] Hk. destruct (H _ _ Hk) as (? & tb' & ? & ? & ? & ?).
  exists tb'. done.
Qed.

Lemma chain_index s tok l i j x :
  chain s tok l → l !! i = Some x → l !! j = Some x → i = j.
Proof. intros [Hnd _] ??. eapply NoDup_lookup; eauto. Qed.

Lemma update_obj_Some p f (q : queue) tb :
  store q !! p = Some tb →
  update_obj p f q = Some (set_store (<[p := f tb]> (store q)) q).
Proof. intros H. unfold update_obj. by rewrite H. Qed.

Lemma remove_from_hash_store (q : queue) t tb l k :
  store q !! t = Some tb → indexed q (token_ tb) l → l !! k = Some t →
  ∃ q', remove_from_hash t q = Some q' ∧ heap_ q' = heap_ q ∧
    timers_ q' =
      (if decide (delete k l = []) then delete (token_ tb) (timers_ q)
       else <[token_ tb := nth0 (delete k l) 0]> (timers_ q)) ∧
    ∀ x, store q' !! x = relink_obj tb x <$> store q !! x.
Proof.
  intros Ht (Hne & Hhd & Hc) Hk.
  destruct (chain_at _ _ _ _ _ _ Hc Hk Ht) as (Ht0 & _ & Hnx & Hpv).
  unfold remove_from_hash. rewrite Ht. simpl. rewrite Hhd.
  (* the value left in the index slot *)
  assert ((if (nth0 l 0 =? t)%Z then next_ tb else nth0 l 0)
          = nth0 (delete k l) 0) as Hsecond.
  { rewrite nth0_delete. destruct k as [|k].
    - rewrite (nth0_lookup _ _ _ Hk), Z.eqb_refl.
      rewrite decide_False by lia. done.
    - rewrite decide_True by lia.
      destruct (l !! 0) as [h|] eqn:Hh; [|by destruct l].
      rewrite (nth0_lookup _ _ _ Hh).
      destruct (Z.eqb_spec h t) as [->|]; [|done].
      pose proof (chain_index _ _ _ _ _ _ Hc Hh Hk). lia. }
  rewrite Hsecond.
  assert ((nth0 (delete k l) 0 =? 0)%Z = bool_decide (delete k l = []))
    as Hzero.
  { destruct (delete k l) as [|y l'] eqn:Hd.
    - by rewrite bool_decide_true.
    - rewrite bool_decide_false by done. unfold nth0. simpl.
      apply Z.eqb_neq. eapply (chain_nonzero _ _ l); [done|].
      assert (y ∈ delete k l) as Hy by (rewrite Hd; left).
      apply list_elem_of_lookup in Hy as [i Hi].
      rewrite list_lookup_delete in Hi. case_decide;
        by eapply list_elem_of_lookup_2. }
  rewrite Hzero.
  assert (∀ qq : queue,
    set_timers (if bool_decide (delete k l = [])
                then delete (token_ tb) (timers_ qq)
                else <[token_ tb:=nth0 (delete k l) 0]> (timers_ qq)) qq
    = set_timers (if decide (delete k l = [])
                  then delete (token_ tb) (timers_ qq)
                  else <[token_ tb:=nth0 (delete k l) 0]> (timers_ qq)) qq)
    as Hdec.
  { intros qq. case_bool_decide; case_decide; done. }
  (* the previous timer *)
  destruct (Z.eqb_spec (prev_ tb) 0) as [Hp0|Hp0]; simpl.
  - rewrite Ht. simpl.
    destruct (Z.eqb_spec (next_ tb) 0) as [Hn0|Hn0]; simpl.
    + eexists. split; [done|]. simpl. split; [done|].
      split; [by case_bool_decide; case_decide|]. intros x.
      destruct (store q !! x) as [tbx|] eqn:Hx; simpl; [|done].
      rewrite relink_obj_other; [done|tauto|tauto].
    + assert (l !! S k = Some (next_ tb)) as Hnk
        by (apply nth0_Some; done).
      destruct (chain_lookup _ _ _ _ _ Hc Hnk) as (nb & Hnb & _).
      rewrite (update_obj_Some _ _ _ _ Hnb). simpl.
      eexists. split; [done|]. simpl. split; [done|].
      split; [by case_bool_decide; case_decide|]. intros x.
      destruct (decide (x = next_ tb)) as [->|Hxn].
      * rewrite lookup_insert_eq, Hnb. simpl. unfold relink_obj.
        rewrite decide_True by done. rewrite decide_False by tauto.
        by destruct nb.
      * rewrite lookup_insert_ne by done.
        destruct (store q !! x) as [tbx|] eqn:Hx; simpl; [|done].
        rewrite relink_obj_other; [done|tauto|tauto].
  - destruct k as [|j]; [done|].
    assert (l !! j = Some (prev_ tb)) as Hpk by (apply nth0_Some; done).
    destruct (chain_lookup _ _ _ _ _ Hc Hpk) as (pb & Hpb & _).
    assert (prev_ tb ≠ t) as Hpt.
    { intros He. rewrite He in Hpk.
      pose proof (chain_index _ _ _ _ _ _ Hc Hpk Hk). lia. }
    rewrite (update_obj_Some _ _ _ _ Hpb). simpl.
    rewrite lookup_insert_ne by done. rewrite Ht. simpl.
    destruct (Z.eqb_spec (next_ tb) 0) as [Hn0|Hn0]; simpl.
    + eexists. split; [done|]. simpl. split; [done|].
      split; [by case_bool_decide; case_decide|]. intros x.
      destruct (decide (x = prev_ tb)) as [->|Hxp].
      * rewrite lookup_insert_eq, Hpb. simpl. unfold relink_obj.
        rewrite decide_False by tauto. rewrite decide_True by done.
        by destruct pb.
      * rewrite lookup_insert_ne by done.
        destruct (store q !! x) as [tbx|] eqn:Hx; simpl; [|done].
        rewrite relink_obj_other; [done|tauto|tauto].
    + assert (l !! S (S j) = Some (next_ tb)) as Hnk
        by (apply nth0_Some; done).
      destruct (chain_lookup _ _ _ _ _ Hc Hnk) as (nb & Hnb & _).
      assert (prev_ tb ≠ next_ tb) as Hpn.
      { intros He. rewrite He in Hpk.
        pose proof (chain_index _ _ _ _ _ _ Hc Hpk Hnk). lia. }
      erewrite update_obj_Some;
        [|simpl; rewrite lookup_insert_ne by done; exact Hnb]. simpl.
      eexists. split; [done|]. simpl. split; [done|].
      split; [by case_bool_decide; case_decide|]. intros x.
      destruct (decide (x = next_ tb)) as [->|Hxn].
      { rewrite lookup_insert_eq, Hnb. simpl. unfold relink_obj.
        rewrite decide_True by done.
        rewrite decide_False by (intros [? _]; congruence).
        by destruct nb. }
      rewrite lookup_insert_ne by done.
      destruct (decide (x = prev_ tb)) as [->|Hxp].
      { rewrite lookup_insert_eq, Hpb. simpl. unfold relink_obj.
        rewrite decide_False by tauto. rewrite decide_True by done.
        by destruct pb. }
      rewrite lookup_insert_ne by done.
      destruct (store q !! x) as [tbx|] eqn:Hx; simpl; [|done].
      rewrite relink_obj_other; [done|tauto|tauto].
Qed.

Lemma unlink_chain s s' tok l k t tb :
  chain s tok l → l !! k = Some t → s !! t = Some tb →
  (∀ x, s' !! x = relink_obj tb x <$> s !! x) →
  chain s' tok (delete k l).
Proof.
  intros Hc Hk Ht Hs'.
  destruct (chain_at _ _ _ _ _ _ Hc Hk Ht) as (Ht0 & _ & Hnx & Hpv).
  split.
  { eapply sublist_NoDup; [apply Hc|apply sublist_delete]. }
  intros i x Hi. rewrite list_lookup_delete in Hi.
  assert (∀ j, l !! j = Some x → j ≠ k) as Hxk.
  { intros j Hj ->. case_decide.
    - pose proof (chain_index _ _ _ _ _ _ Hc Hi Hj). lia.
    - pose proof (chain_index _ _ _ _ _ _ Hc Hi Hj). lia. }
  case_decide as Hik.
  - (* before the unlinked timer *)
    destruct (chain_lookup _ _ _ _ _ Hc Hi) as (tbx & Hx & Hx0 & Htok & Hn & Hp).
    split; [done|]. rewrite Hs', Hx. simpl. eexists. split; [done|].
    unfold relink_obj. simpl. split; [done|].
    rewrite !nth0_delete. split.
    + case_decide as Hd.
      * destruct Hd as [-> Hp0]. destruct k as [|j]; [done|].
        apply nth0_Some' in Hpv; [|done].
        pose proof (chain_index _ _ _ _ _ _ Hc Hi Hpv) as ->.
        rewrite decide_False by lia. done.
      * case_decide; [done|].
        assert (k = S i) as -> by lia. exfalso. apply Hd.
        rewrite Hpv. rewrite (nth0_lookup _ _ _ Hi). done.
    + rewrite decide_False.
      * destruct i as [|i']; [done|].
        rewrite nth0_delete. rewrite decide_True by lia. done.
      * intros [-> Hn0]. apply nth0_Some' in Hnx; [|done].
        pose proof (chain_index _ _ _ _ _ _ Hc Hi Hnx). lia.
  - (* after the unlinked timer *)
    destruct (chain_lookup _ _ _ _ _ Hc Hi) as (tbx & Hx & Hx0 & Htok & Hn & Hp).
    split; [done|]. rewrite Hs', Hx. simpl. eexists. split; [done|].
    unfold relink_obj. simpl. split; [done|].
    rewrite !nth0_delete. split.
    + rewrite decide_False.
      * rewrite decide_False by lia. done.
      * intros [-> Hp0]. destruct k as [|j]; [done|].
        apply nth0_Some' in Hpv; [|done].
        pose proof (chain_index _ _ _ _ _ _ Hc Hi Hpv). lia.
    + case_decide as Hd.
      * destruct Hd as [-> Hn0]. apply nth0_Some' in Hnx; [|done].
        pose proof (chain_index _ _ _ _ _ _ Hc Hi Hnx) as Hik'.
        assert (i = k) as -> by lia.
        destruct k as [|j]; [done|].
        rewrite nth0_delete. rewrite decide_True by lia. done.
      * destruct i as [|i'].
        { assert (k = 0) as -> by lia. exfalso. apply Hd.
          rewrite Hnx, (nth0_lookup _ _ _ Hi). done. }
        rewrite nth0_delete. case_decide as Hlt; [|done].
        assert (k = S i') as -> by lia. exfalso. apply Hd.
        rewrite Hnx, (nth0_lookup _ _ _ Hi). done.
Qed.

Lemma unlink_other_chain s s' tok l k t tb tok' l' :
  chain s tok l → l !! k = Some t → s !! t = Some tb →
  (∀ x, s' !! x = relink_obj tb x <$> s !! x) →
  tok' ≠ tok → chain s tok' l' → chain s' tok' l'.
Proof.
  intros Hc Hk Ht Hs' Hne Hc'.
  destruct (chain_at _ _ _ _ _ _ Hc Hk Ht) as (Ht0 & _ & Hnx & Hpv).
  eapply chain_agree; [done|]. intros x tbx Hx Hsx.
  rewrite Hs', Hsx. simpl. eexists. split; [done|].
  rewrite relink_obj_other; [done| |].
  - intros [-> Hn0]. apply nth0_Some' in Hnx; [|done].
    apply Hne. eapply chain_disjoint; [exact Hc'|exact Hc|done|].
    by eapply list_elem_of_lookup_2.
  - intros [-> Hp0]. destruct k as [|j]; [done|].
    apply nth0_Some' in Hpv; [|done].
    apply Hne. eapply chain_disjoint; [exact Hc'|exact Hc|done|].
    by eapply list_elem_of_lookup_2.
Qed.

(** Unlinking keeps everything of an object but its two links. *)
Lemma relink_obj_payload tb x tbx :
  time_ (relink_obj tb x tbx) = time_ tbx ∧
  token_ (relink_obj tb x tbx) = token_ tbx ∧
  heap_index_ (relink_obj tb x tbx) = heap_index_ tbx ∧
  handler_ (relink_obj tb x tbx) = handler_ tbx.
Proof. done. Qed.

End chain_part.

(** ** [remove_timer] keeps the invariant *)

Section wf_part.

Lemma lookup_removelast (l : list Z) i :
  removelast l !! i = if decide (i < length l - 1) then l !! i else None.
Proof.
  rewrite removelast_firstn_len.
  change (firstn (Init.Nat.pred (length l)) l) with (take (Init.Nat.pred (length l)) l).
  case_decide.
  - apply lookup_take_lt. lia.
  - apply lookup_take_ge. lia.
Qed.

Lemma length_removelast (l : list Z) : length (removelast l) = length l - 1.
Proof.
  rewrite removelast_firstn_len.
  change (firstn (Init.Nat.pred (length l)) l) with (take (Init.Nat.pred (length l)) l).
  rewrite length_take. lia.
Qed.

Lemma heap_ok_lookup (q : queue) p tb :
  heap_ok q → p ∈ heap_ q → store q !! p = Some tb →
  heap_ q !! heap_index_ tb = Some p.
Proof.
  intros Hok [i Hi]%list_elem_of_lookup Hp.
  destruct (Hok _ _ Hi) as (tb' & Hp' & <-). congruence.
Qed.

Lemma up_heap_loop_Some n index (q q' : queue) :
  heap_ok q → up_heap_loop comp n index q = Some q' → heap_step q q'.
Proof.
  intros Hok H. destruct (decide (index < length (heap_ q))) as [Hlt|Hge].
  - destruct (up_heap_loop_spec n index q Hok Hlt) as (q2 & H2 & Hst).
    congruence.
  - destruct n as [|n]; simpl in H.
    { simplify_eq. by apply heap_step_refl. }
    destruct (0 <? index); [|simplify_eq; by apply heap_step_refl].
    unfold time_at in H.
    rewrite (lookup_ge_None_2 (heap_ q) index) in H by lia. done.
Qed.

Lemma down_heap_loop_Some n index (q q' : queue) :
  heap_ok q → down_heap_loop comp n index q = Some q' → heap_step q q'.
Proof.
  intros Hok H.
  destruct (down_heap_loop_spec n index q Hok) as (q2 & H2 & Hst).
  congruence.
Qed.

(** The heap half of [remove_timer], when it is defined. *)
Lemma remove_from_heap_spec (q q1 : queue) t :
  heap_ok q → t ∈ heap_ q → remove_from_heap comp t q = Some q1 →
  heap_ok q1 ∧ (∀ x, x ∈ heap_ q1 ↔ x ∈ heap_ q ∧ x ≠ t) ∧
  timers_ q1 = timers_ q ∧ frame (store q) (store q1).
Proof.
  intros Hok Hin H. unfold remove_from_heap in H.
  destruct (store q !! t) as [tb|] eqn:Ht; [|done]. simpl in H.
  pose proof (heap_ok_lookup _ _ _ Hok Hin Ht) as Hhi.
  pose proof (heap_ok_NoDup _ Hok) as Hnd.
  pose proof (lookup_lt_Some _ _ _ Hhi) as Hlen.
  destruct (1 <? length (heap_ q)) eqn:H1.
  - apply Nat.ltb_lt in H1.
    destruct (lookup_lt_is_Some_2 (heap_ q) (length (heap_ q) - 1))
      as [b Hb]; [lia|].
    destruct (swap_heap_spec q _ _ _ _ Hok Hhi Hb)
      as (q' & Hsw & Hh' & Hok' & Hl' & Hm' & Ht' & Hf').
    rewrite Hsw in H. simpl in H.
    set (q'' := set_heap (removelast (heap_ q')) q') in *.
    assert (heap_ q' !! (length (heap_ q') - 1) = Some t) as Hlast.
    { rewrite Hh', length_insert, length_insert.
      apply list_lookup_insert_eq. rewrite length_insert. lia. }
    pose proof (heap_ok_NoDup _ Hok') as Hnd'.
    assert (heap_ok q'') as Hok''.
    { intros i p Hi. subst q''. qsimpl.
      rewrite lookup_removelast in Hi. case_decide; [|done]. eauto. }
    assert (∀ x, x ∈ heap_ q'' ↔ x ∈ heap_ q ∧ x ≠ t) as Hm''.
    { intros x. subst q''. qsimpl. rewrite <- Hm'.
      rewrite !list_elem_of_lookup. split.
      - intros [i Hi]. rewrite lookup_removelast in Hi.
        case_decide; [|done]. split; [eauto|]. intros ->.
        pose proof (NoDup_lookup _ _ _ _ Hnd' Hi Hlast). lia.
      - intros [[i Hi] Hne]. exists i. rewrite lookup_removelast.
        rewrite decide_True; [done|].
        pose proof (lookup_lt_Some _ _ _ Hi).
        destruct (decide (i = length (heap_ q') - 1)) as [->|]; [|lia].
        congruence. }
    destruct (store q' !! t) as [tb'|]; simpl in H; [|done].
    assert (∀ q1', heap_step q'' q1' →
      heap_ok q1' ∧ (∀ x, x ∈ heap_ q1' ↔ x ∈ heap_ q ∧ x ≠ t) ∧
      timers_ q1' = timers_ q ∧ frame (store q) (store q1')) as Hfin.
    { intros q1' (Hok1 & _ & Hm1 & Ht1 & Hf1). split; [done|].
      split; [|split].
      - intros x. by rewrite Hm1.
      - rewrite Ht1. subst q''. qsimpl. done.
      - eapply frame_trans; [exact Hf'|]. subst q''. qsimpl. done. }
    destruct (0 <? heap_index_ tb).
    + destruct (time_at _ q'') as [pt|]; simpl in H; [|done].
      destruct (comp (time_ tb') pt).
      * apply Hfin. by eapply up_heap_loop_Some.
      * apply Hfin. by eapply down_heap_loop_Some.
    + simpl in H. apply Hfin. by eapply down_heap_loop_Some.
  - apply Nat.ltb_ge in H1. simplify_eq. qsimpl.
    split; [by intros i p ?|]. split; [|done].
    intros x. split; [by intros ?%elem_of_nil|]. intros [Hx Hne].
    apply list_elem_of_lookup in Hx as [i Hi].
    pose proof (lookup_lt_Some _ _ _ Hi).
    assert (i = heap_index_ tb) as -> by lia. congruence.
Qed.

Lemma same_payload_refl s : same_payload s s.
Proof. done. Qed.
Lemma same_payload_trans s1 s2 s3 :
  same_payload s1 s2 → same_payload s2 s3 → same_payload s1 s3.
Proof. intros H1 H2 p. by rewrite H1. Qed.
Lemma frame_payload s s' : frame s s' → same_payload s s'.
Proof.
  intros Hf p. specialize (Hf p).
  destruct (s !! p) as [tb|], (s' !! p) as [tb'|]; simpl in *; try done.
  injection Hf as ?????. unfold payload. congruence.
Qed.
Lemma same_payload_lookup s s' p tb :
  same_payload s s' → s !! p = Some tb →
  ∃ tb', s' !! p = Some tb' ∧ time_ tb' = time_ tb ∧
         token_ tb' = token_ tb ∧ handler_ tb' = handler_ tb.
Proof.
  intros H Hp. specialize (H p). rewrite Hp in H.
  destruct (s' !! p) as [tb'|]; simplify_eq/=. exists tb'.
  unfold payload in H. by simplify_eq.
Qed.
Lemma same_payload_None s s' p :
  same_payload s s' → s !! p = None → s' !! p = None.
Proof.
  intros H Hp. specialize (H p). rewrite Hp in H.
  by destruct (s' !! p).
Qed.

Lemma not_elem_of_delete (l : list Z) k t :
  NoDup l → l !! k = Some t → t ∉ delete k l.
Proof.
  intros Hnd Hk [i Hi]%list_elem_of_lookup.
  rewrite list_lookup_delete in Hi. case_decide.
  - pose proof (NoDup_lookup _ _ _ _ Hnd Hi Hk). lia.
  - pose proof (NoDup_lookup _ _ _ _ Hnd Hi Hk). lia.
Qed.

Lemma elem_of_delete_ne (l : list Z) k t x :
  l !! k = Some t → x ∈ l → x ≠ t → x ∈ delete k l.
Proof.
  intros Hk [i Hi]%list_elem_of_lookup Hne.
  apply list_elem_of_lookup.
  destruct (decide (i < k)).
  - exists i. by rewrite list_lookup_delete_lt.
  - destruct i as [|i]; [destruct k; [congruence|lia]|].
    destruct (decide (S i = k)) as [<-|]; [congruence|].
    exists i. rewrite list_lookup_delete_ge by lia. done.
Qed.

Lemma indexed_frame (q q1 : queue) tok l :
  timers_ q1 = timers_ q → frame (store q) (store q1) →
  indexed q tok l → indexed q1 tok l.
Proof.
  intros Ht Hf (? & ? & ?). split; [done|]. split; [congruence|].
  by eapply chain_frame.
Qed.

(** [remove_timer(t)], when it is defined, takes the pending timer [t]
    out of the heap and out of its chain and keeps the invariant. *)
Lemma remove_timer_spec (q q' : queue) t :
  wf q → t ∈ heap_ q → remove_timer comp t q = Some q' →
  wf q' ∧ (∀ x, x ∈ heap_ q' ↔ x ∈ heap_ q ∧ x ≠ t) ∧
  same_payload (store q) (store q').
Proof.
  intros [Hok Hch Hix] Hin H. unfold remove_timer in H.
  destruct (remove_from_heap comp t q) as [q1|] eqn:H1; simpl in H; [|done].
  destruct (remove_from_heap_spec _ _ _ Hok Hin H1)
    as (Hok1 & Hm1 & Ht1 & Hf1).
  pose proof Hin as [i Hi]%list_elem_of_lookup.
  destruct (Hok _ _ Hi) as (tb & Htb & _).
  destruct (frame_lookup _ _ _ _ Hf1 Htb)
    as (tb1 & Htb1 & _ & Htok1 & _).
  destruct (Hix _ _ Hin Htb) as (l & Hl & Htl).
  apply list_elem_of_lookup in Htl as [k Hk].
  assert (indexed q1 (token_ tb1) l) as Hl1.
  { rewrite Htok1. by eapply indexed_frame. }
  destruct (remove_from_hash_store q1 t tb1 l k Htb1 Hl1 Hk)
    as (q2 & H2 & Hh2 & Ht2 & Hs2).
  assert (q2 = q') as -> by congruence. clear H H2.
  destruct Hl1 as (Hne & Hhd1 & Hc1).
  assert (∀ x, x ∈ heap_ q' ↔ x ∈ heap_ q ∧ x ≠ t) as Hm'.
  { intros x. by rewrite Hh2. }
  assert (same_payload (store q) (store q')) as Hpay.
  { eapply same_payload_trans; [by apply frame_payload|].
    intros p. rewrite Hs2. by destruct (store q1 !! p). }
  (* chains of the other tokens *)
  assert (∀ tok' l', tok' ≠ token_ tb1 → indexed q tok' l' →
            indexed q' tok' l') as Hother.
  { intros tok' l' Hne' Hl'.
    apply (indexed_frame q q1) in Hl' as (? & Hhd' & Hc'); [|done..].
    split; [done|]. split.
    - rewrite Ht2. case_decide.
      + by rewrite lookup_delete_ne.
      + by rewrite lookup_insert_ne.
    - eapply unlink_other_chain;
        [exact Hc1|exact Hk|exact Htb1|exact Hs2|done|done]. }
  assert (delete k l ≠ [] → indexed q' (token_ tb1) (delete k l)) as Hsame.
  { intros Hd. split; [done|]. split.
    - rewrite Ht2. rewrite decide_False by done. apply lookup_insert_eq.
    - eapply unlink_chain; [exact Hc1|exact Hk|exact Htb1|exact Hs2]. }
  split; [|done]. split.
  - intros j p Hj. rewrite Hh2 in Hj.
    destruct (Hok1 _ _ Hj) as (tbp & Hp & Hidx).
    rewrite Hs2, Hp. simpl. eexists. split; [done|]. done.
  - intros tok' head Hhead.
    destruct (decide (tok' = token_ tb1)) as [->|Hne'].
    + rewrite Ht2 in Hhead. case_decide as Hd.
      { by rewrite lookup_delete_eq in Hhead. }
      exists (delete k l). split; [by apply Hsame|].
      intros x Hx. apply Hm'. split.
      * destruct (Hch (token_ tb) (nth0 l 0)) as (l0 & Hl0 & Hsub).
        { destruct Hl as (_ & ? & _). done. }
        assert (l0 = l) as -> by (eapply indexed_unique; eauto).
        apply Hsub. by eapply list_elem_of_delete_inv.
      * intros ->. eapply not_elem_of_delete; [apply Hc1|done..].
    + assert (timers_ q !! tok' = Some head) as Hq.
      { rewrite <- Ht1. rewrite Ht2 in Hhead. case_decide.
        - by rewrite lookup_delete_ne in Hhead.
        - by rewrite lookup_insert_ne in Hhead. }
      destruct (Hch _ _ Hq) as (l' & Hl' & Hsub).
      exists l'. split; [by apply Hother|].
      intros x Hx. apply Hm'. split; [by apply Hsub|].
      intros ->. apply Hne'. destruct Hl' as (_ & _ & Hc').
      destruct (chain_token _ _ _ _ Hc' Hx) as (tb' & ? & ?).
      congruence.
  - intros p tbp' Hp Hsp. apply Hm' in Hp as [Hp Hpt].
    rewrite Hs2 in Hsp.
    destruct (store q1 !! p) as [tbp1|] eqn:Hp1; simplify_eq/=.
    destruct (frame_lookup _ _ _ _ (frame_sym _ _ Hf1) Hp1)
      as (tbp & Hp0 & _ & Htokp & _).
    destruct (Hix _ _ Hp Hp0) as (l0 & Hl0 & Hpl0).
    rewrite Htokp in Hl0.
    destruct (decide (token_ tbp1 = token_ tb1)) as [He|Hne'].
    + rewrite He in Hl0 |- *. rewrite Htok1 in Hl0.
      assert (l0 = l) as -> by (eapply indexed_unique; eauto).
      assert (p ∈ delete k l) as Hpd by (by eapply elem_of_delete_ne).
      exists (delete k l). split; [|done]. apply Hsame.
      intros Hd. rewrite Hd in Hpd. by apply elem_of_nil in Hpd.
    + exists l0. split; [|done]. by apply Hother.
Qed.

(** [delete t] of a timer that is no longer pending. *)
Lemma delete_obj_wf (q : queue) t :
  wf q → t ∉ heap_ q → wf (delete_obj t q).
Proof.
  intros [Hok Hch Hix] Hnot.
  assert (∀ tok l, indexed q tok l → (∀ x, x ∈ l → x ∈ heap_ q) →
            indexed (delete_obj t q) tok l) as Hdel.
  { intros tok l (? & ? & Hc) Hsub. split; [done|]. split; [done|].
    eapply chain_agree; [done|]. intros x tbx Hx Hsx. qsimpl.
    rewrite lookup_delete_ne; [eauto|]. intros ->. by apply Hnot, Hsub. }
  split.
  - intros i p Hi. qsimpl. destruct (Hok _ _ Hi) as (tb & ? & ?).
    exists tb. split; [|done]. rewrite lookup_delete_ne; [done|].
    intros ->. apply Hnot. by eapply list_elem_of_lookup_2.
  - intros tok head Hh. qsimpl. destruct (Hch _ _ Hh) as (l & Hl & Hsub).
    exists l. split; [by apply Hdel|done].
  - intros p tb Hp Hsp. qsimpl.
    assert (p ≠ t) as Hne by (by intros ->).
    rewrite lookup_delete_ne in Hsp by done.
    destruct (Hix _ _ Hp Hsp) as (l & Hl & Hpl).
    exists l. split; [|done]. apply Hdel; [done|].
    destruct (Hch (token_ tb) (nth0 l 0)) as (l0 & Hl0 & Hsub).
    { by destruct Hl as (_ & ? & _). }
    assert (l0 = l) as -> by (eapply indexed_unique; eauto). done.
Qed.

(** What [remove_timer(t)] leaves of the chain of [t]. *)
Lemma remove_timer_chain (q q' : queue) t tb l k :
  wf q → t ∈ heap_ q → store q !! t = Some tb →
  indexed q (token_ tb) l → l !! k = Some t →
  remove_timer comp t q = Some q' →
  if decide (delete k l = []) then timers_ q' !! token_ tb = None
  else indexed q' (token_ tb) (delete k l).
Proof.
  intros [Hok Hch Hix] Hin Htb Hl Hk H. unfold remove_timer in H.
  destruct (remove_from_heap comp t q) as [q1|] eqn:H1; simpl in H; [|done].
  destruct (remove_from_heap_spec _ _ _ Hok Hin H1)
    as (Hok1 & Hm1 & Ht1 & Hf1).
  destruct (frame_lookup _ _ _ _ Hf1 Htb)
    as (tb1 & Htb1 & _ & Htok1 & _).
  assert (indexed q1 (token_ tb1) l) as Hl1.
  { rewrite Htok1. by eapply indexed_frame. }
  destruct (remove_from_hash_store q1 t tb1 l k Htb1 Hl1 Hk)
    as (q2 & H2 & Hh2 & Ht2 & Hs2).
  assert (q2 = q') as -> by congruence. clear H H2.
  destruct Hl1 as (Hne & Hhd1 & Hc1). rewrite <- Htok1.
  destruct (decide (delete k l = [])) as [Hd|Hd].
  - rewrite Ht2. apply lookup_delete_eq.
  - split; [done|]. split.
    + rewrite Ht2. apply lookup_insert_eq.
    + eapply unlink_chain; [exact Hc1|exact Hk|exact Htb1|exact Hs2].
Qed.

Lemma indexed_delete_obj (q : queue) tok l t :
  indexed q tok l → t ∉ l → indexed (delete_obj t q) tok l.
Proof.
  intros (? & ? & Hc) Hnot. split; [done|]. split; [done|].
  eapply chain_agree; [done|]. intros x tbx Hx Hsx. simpl.
  rewrite lookup_delete_ne; [eauto|]. by intros ->.
Qed.

End wf_part.

(** ** [enqueue_timer] keeps the invariant *)

Section enqueue_part.

Lemma wf_heap_step (q q' : queue) : wf q → heap_step q q' → wf q'.
Proof.
  intros [Hok Hch Hix] (Hok' & _ & Hm & Ht & Hf). split; [done| |].
  - intros tok head Hh. rewrite Ht in Hh.
    destruct (Hch _ _ Hh) as (l & Hl & Hsub). exists l.
    split; [by eapply indexed_frame|]. intros x Hx. by apply Hm, Hsub.
  - intros p tb' Hp Hsp. apply Hm in Hp.
    destruct (frame_lookup _ _ _ _ (frame_sym _ _ Hf) Hsp)
      as (tb & Hs & _ & Htok & _).
    destruct (Hix _ _ Hp Hs) as (l & Hl & Hpl). exists l.
    split; [|done]. rewrite <- Htok. by eapply indexed_frame.
Qed.

(** The chain of a token, empty when the token is not in the index. *)
Lemma wf_chain_of (q : queue) tok :
  wf q →
  ∃ l, (∀ x, x ∈ l → x ∈ heap_ q) ∧ chain (store q) tok l ∧
       match timers_ q !! tok with
       | None => l = []
       | Some head => l ≠ [] ∧ head = nth0 l 0
       end.
Proof.
  intros [Hok Hch Hix]. destruct (timers_ q !! tok) as [head|] eqn:Hh.
  - destruct (Hch _ _ Hh) as (l & (Hne & Hhd & Hc) & Hsub).
    exists l. split; [done|]. split; [done|]. split; [done|]. congruence.
  - exists []. split; [by intros x ?%elem_of_nil|]. split; [|done].
    split; [constructor|]. by intros i x ?.
Qed.

Lemma wf_heap_store (q : queue) x :
  wf q → x ∈ heap_ q → is_Some (store q !! x).
Proof.
  intros [Hok _ _] [i Hi]%list_elem_of_lookup.
  destruct (Hok _ _ Hi) as (tb & -> & _). eauto.
Qed.

(** [enqueue_timer] up to the call of [up_heap]: the new timer is linked
    at the head of the chain of its token and appended to the heap. *)
Lemma enqueue_timer_link_others (q : queue) time h tok p :
  wf q → p ≠ 0%Z → store q !! p = None →
  ∃ q3, enqueue_timer comp npos time h tok p q =
          (q4 ← up_heap comp (length (heap_ q3) - 1) q3;
           root ← heap_ q4 !! 0;
           Some (bool_decide (root = p), q4)) ∧
    wf q3 ∧ heap_ q3 = heap_ q ++ [p] ∧
    (∀ x, x ≠ p → payload <$> store q3 !! x = payload <$> store q !! x) ∧
    payload <$> store q3 !! p = Some (time, tok, h) ∧
    (∃ l, match timers_ q !! tok with
          | None => l = []
          | Some _ => indexed q tok l
          end ∧ indexed q3 tok (p :: l)) ∧
    timers_ q3 = <[tok := p]> (timers_ q) ∧
    (∀ tok' l', tok' ≠ tok → indexed q tok' l' → indexed q3 tok' l').
Proof.
  intros Hwf Hp0 Hfresh.
  destruct (wf_chain_of q tok Hwf) as (l & Hsub & Hc & Hhead).
  pose proof Hwf as [Hok Hch Hix].
  assert (p ∉ heap_ q) as Hpheap.
  { intros Hin. destruct (wf_heap_store _ _ Hwf Hin) as [? ?]. congruence. }
  assert (p ∉ l) as Hpl by (intros ?; by apply Hpheap, Hsub).
  unfold enqueue_timer. qsimpl.
  (* the state after linking the new timer and caching its index *)
  set (tbp := mk_timer time tok (nth0 l 0) 0%Z (length (heap_ q)) h).
  set (s3 := <[p := tbp]>
    (match l with
     | [] => store q
     | hd :: _ =>
         match store q !! hd with
         | Some tbh => <[hd := set_prev p tbh]> (store q)
         | None => store q
         end
     end)).
  set (q3 := mk_queue (<[tok := p]> (timers_ q)) (heap_ q ++ [p]) s3).
  assert (∃ q1 q2, match timers_ q !! tok with
       | None => Some (set_timers (<[tok := p]> (timers_ q))
           (set_store (<[p := mk_timer time tok 0 0 npos h]> (store q)) q))
       | Some head =>
           qa ← update_obj head (set_prev p)
             (set_store (<[p := mk_timer time tok 0 0 npos h]> (store q)) q);
           qb ← update_obj p (set_next head) qa;
           Some (set_timers (<[tok := p]> (timers_ qb)) qb)
       end = Some q1 ∧
       update_obj p (set_heap_index (length (heap_ q1))) q1 = Some q2 ∧
       set_heap (heap_ q2 ++ [p]) q2 = q3) as (q1 & q2 & -> & Hq2 & Hq3).
  { destruct (timers_ q !! tok) as [head|] eqn:Hh.
    - destruct Hhead as [Hne ->]. destruct l as [|hd l']; [done|].
      unfold nth0 in *. simpl in *.
      destruct (chain_lookup _ _ (hd :: l') 0 hd Hc eq_refl)
        as (tbh & Hsh & _).
      assert (hd ≠ p) as Hhp by (intros ->; apply Hpl; left).
      erewrite update_obj_Some;
        [|simpl; rewrite lookup_insert_ne by done; exact Hsh]. simpl.
      erewrite update_obj_Some;
        [|simpl; rewrite lookup_insert_ne by done; apply lookup_insert_eq].
      simpl. eexists _, _. split; [done|].
      erewrite update_obj_Some; [|simpl; apply lookup_insert_eq]. simpl.
      split; [done|]. unfold set_heap, q3, s3. simpl. f_equal.
      rewrite Hsh. rewrite !insert_insert_eq.
      rewrite (insert_insert_ne _ hd p) by done.
      rewrite insert_insert_eq. done.
    - subst l. simpl. eexists _, _. split; [done|].
      erewrite update_obj_Some; [|simpl; apply lookup_insert_eq]. simpl.
      split; [done|]. unfold set_heap, q3, s3. simpl. f_equal.
      by rewrite insert_insert_eq. }
  assert (heap_ q2 ++ [p] = heap_ q3) as Hh23 by (by rewrite <- Hq3).
  simpl. rewrite Hq2. simpl. rewrite Hq3, Hh23. clear Hq2 Hq3 Hh23.
  (* objects of [q3] *)
  assert (s3 !! p = Some tbp) as Hs3p by apply lookup_insert_eq.
  assert (∀ x tbx, x ≠ p → store q !! x = Some tbx →
    ∃ tbx', s3 !! x = Some tbx' ∧ payload tbx' = payload tbx ∧
      heap_index_ tbx' = heap_index_ tbx ∧ next_ tbx' = next_ tbx ∧
      prev_ tbx' = (if decide (l !! 0 = Some x) then p else prev_ tbx))
    as Hs3.
  { intros x tbx Hxp Hx. unfold s3. rewrite lookup_insert_ne by done.
    destruct l as [|hd l'].
    { exists tbx. rewrite decide_False by done. done. }
    change ((hd :: l') !! 0) with (Some hd).
    destruct (store q !! hd) as [tbh|] eqn:Hsh.
    - destruct (decide (hd = x)) as [->|Hne].
      + rewrite lookup_insert_eq. eexists. split; [done|].
        assert (tbh = tbx) as -> by congruence.
        rewrite decide_True by done. done.
      + rewrite lookup_insert_ne by done. exists tbx.
        rewrite decide_False by congruence. done.
    - exists tbx. rewrite decide_False by congruence. done. }
  assert (∀ x, x ≠ p → payload <$> s3 !! x = payload <$> store q !! x)
    as Hpay3.
  { intros x Hxp. destruct (store q !! x) as [tbx|] eqn:Hx.
    - destruct (Hs3 _ _ Hxp Hx) as (tbx' & -> & Hpay & _). simpl.
      by rewrite Hpay.
    - unfold s3. rewrite lookup_insert_ne by done.
      destruct l as [|hd l']; [by rewrite Hx|].
      destruct (store q !! hd) as [tbh|] eqn:Hsh; [|by rewrite Hx].
      rewrite lookup_insert_ne by congruence. by rewrite Hx. }
  (* the invariant in [q3] *)
  assert (chain s3 tok (p :: l)) as Hc3.
  { split.
    { constructor; [done|apply Hc]. }
    intros i x Hi. destruct i as [|i]; simpl in Hi.
    - simplify_eq. split; [done|]. exists tbp. done.
    - destruct (chain_lookup _ _ _ _ _ Hc Hi)
        as (tbx & Hx & Hx0 & Htok & Hn & Hp).
      split; [done|].
      assert (x ≠ p) as Hxp.
      { intros ->. apply Hpl. by eapply list_elem_of_lookup_2. }
      destruct (Hs3 _ _ Hxp Hx) as (tbx' & Hx' & Hpay & _ & Hn' & Hp').
      exists tbx'. split; [done|]. split.
      { unfold payload in Hpay. by simplify_eq. }
      split; [by rewrite Hn', Hn|]. rewrite Hp', Hp.
      destruct i as [|i].
      + rewrite decide_True by done. done.
      + rewrite decide_False; [done|]. intros H0.
        pose proof (chain_index _ _ _ _ _ _ Hc Hi H0). lia. }
  assert (∀ tok' l', tok' ≠ tok → indexed q tok' l' → indexed q3 tok' l')
    as Hother.
  { intros tok' l' Hne (Hne' & Hhd' & Hc'). split; [done|]. split.
    { unfold q3. simpl. by rewrite lookup_insert_ne. }
    eapply chain_agree; [done|]. intros x tbx Hx Hsx. unfold q3. simpl.
    assert (x ≠ p) as Hxp by congruence.
    destruct (Hs3 _ _ Hxp Hsx) as (tbx' & Hx' & Hpay & _ & Hn' & Hp').
    exists tbx'. split; [done|]. split.
    { unfold payload in Hpay. by simplify_eq. }
    split; [done|]. rewrite Hp'. rewrite decide_False; [done|].
    intros H0. apply Hne.
    eapply chain_disjoint; [exact Hc'|exact Hc|done|].
    by eapply list_elem_of_lookup_2. }
  assert (indexed q3 tok (p :: l)) as Hnew.
  { split; [done|]. split; [|done]. unfold q3. simpl.
    apply lookup_insert_eq. }
  assert (wf q3) as Hwf3.
  { split.
    - intros i x Hi. unfold q3 in *. simpl in *.
      apply lookup_app_Some in Hi as [Hi|[Hlen Hi]].
      + destruct (Hok _ _ Hi) as (tbx & Hx & Hidx).
        assert (x ≠ p) as Hxp by congruence.
        destruct (Hs3 _ _ Hxp Hx) as (tbx' & Hx' & _ & Hi' & _).
        exists tbx'. split; [done|]. congruence.
      + destruct (i - length (heap_ q)) as [|?] eqn:Hd; [|done].
        simplify_eq/=. exists tbp. split; [done|]. simpl. lia.
    - intros tok' head Hh. destruct (decide (tok' = tok)) as [->|Hne].
      + exists (p :: l). split; [done|]. intros x Hx. unfold q3. simpl.
        apply elem_of_app. apply elem_of_cons in Hx as [->|Hx].
        * right. left.
        * left. by apply Hsub.
      + unfold q3 in Hh. simpl in Hh. rewrite lookup_insert_ne in Hh by done.
        destruct (Hch _ _ Hh) as (l' & Hl' & Hsub').
        exists l'. split; [by apply Hother|]. intros x Hx.
        unfold q3. simpl. apply elem_of_app. left. by apply Hsub'.
    - intros x tbx' Hx Hsx. unfold q3 in Hx, Hsx. simpl in Hx, Hsx.
      apply elem_of_app in Hx as [Hx|Hx].
      + assert (x ≠ p) as Hxp by (by intros ->).
        destruct (wf_heap_store _ _ Hwf Hx) as [tbx Hs].
        destruct (Hs3 _ _ Hxp Hs) as (tbx'' & Hx'' & Hpay & _).
        assert (tbx'' = tbx') as -> by congruence.
        assert (token_ tbx' = token_ tbx) as ->
          by (unfold payload in Hpay; by simplify_eq).
        destruct (Hix _ _ Hx Hs) as (l0 & Hl0 & Hxl0).
        destruct (decide (token_ tbx = tok)) as [He|Hne].
        * exists (p :: l). rewrite He. split; [done|]. right.
          rewrite He in Hl0. destruct Hl0 as (Hne0 & Hhd0 & Hc0).
          rewrite Hhd0 in Hhead. destruct Hhead as [_ Hhd].
          by rewrite <- (chain_unique _ _ _ _ Hc0 Hc Hhd).
        * exists l0. split; [by apply Hother|done].
      + apply list_elem_of_singleton in Hx as ->.
        assert (tbx' = tbp) as -> by congruence. simpl.
        exists (p :: l). split; [done|left]. }
  exists q3. split; [done|]. split; [done|]. split; [done|].
  split; [done|]. split; [unfold q3; simpl; by rewrite Hs3p|].
  split; [|split; [done|exact Hother]].
  exists l. split; [|done].
  destruct (timers_ q !! tok) as [head|] eqn:Hh; [|done].
  destruct Hhead as [Hne ->]. done.
Qed.

Lemma enqueue_timer_link (q : queue) time h tok p :
  wf q → p ≠ 0%Z → store q !! p = None →
  ∃ q3, enqueue_timer comp npos time h tok p q =
          (q4 ← up_heap comp (length (heap_ q3) - 1) q3;
           root ← heap_ q4 !! 0;
           Some (bool_decide (root = p), q4)) ∧
    wf q3 ∧ heap_ q3 = heap_ q ++ [p] ∧
    (∀ x, x ≠ p → payload <$> store q3 !! x = payload <$> store q !! x) ∧
    payload <$> store q3 !! p = Some (time, tok, h) ∧
    ∃ l, match timers_ q !! tok with
         | None => l = []
         | Some _ => indexed q tok l
         end ∧ indexed q3 tok (p :: l).
Proof.
  intros Hwf Hp0 Hfresh.
  destruct (enqueue_timer_link_others q time h tok p Hwf Hp0 Hfresh)
    as (q3 & Heq & Hwf3 & Hh3 & Hpay3 & Hnew & Hl & _).
  exists q3. done.
Qed.

Lemma enqueue_timer_spec (q : queue) time h tok p :
  wf q → p ≠ 0%Z → store q !! p = None →
  ∃ b q', enqueue_timer comp npos time h tok p q = Some (b, q') ∧
    wf q' ∧ (∀ x, x ∈ heap_ q' ↔ x ∈ heap_ q ∨ x = p) ∧
    (∀ x, x ≠ p → payload <$> store q' !! x = payload <$> store q !! x) ∧
    payload <$> store q' !! p = Some (time, tok, h) ∧
    b = bool_decide (heap_ q' !! 0 = Some p) ∧
    ∃ l, match timers_ q !! tok with
         | None => l = []
         | Some _ => indexed q tok l
         end ∧ indexed q' tok (p :: l).
Proof.
  intros Hwf Hp0 Hfresh.
  destruct (enqueue_timer_link q time h tok p Hwf Hp0 Hfresh)
    as (q3 & -> & Hwf3 & Hh3 & Hpay3 & Hs3p & l & Hold & Hnew).
  destruct (up_heap_loop_spec (S (length (heap_ q3) - 1))
              (length (heap_ q3) - 1) q3) as (q4 & Hup & Hst).
  { apply Hwf3. }
  { rewrite Hh3, length_app. simpl. lia. }
  unfold up_heap. rewrite Hup. simpl.
  pose proof (wf_heap_step _ _ Hwf3 Hst) as Hwf4.
  destruct Hst as (Hok4 & Hl4 & Hm4 & Ht4 & Hf4).
  destruct (lookup_lt_is_Some_2 (heap_ q4) 0) as [root Hroot].
  { rewrite Hl4, Hh3, length_app. simpl. lia. }
  rewrite Hroot. simpl. eexists _, _. split; [done|].
  split; [done|]. split; [|split; [|split; [|split]]].
  - intros x. rewrite Hm4, Hh3. rewrite elem_of_app.
    by rewrite list_elem_of_singleton.
  - intros x Hxp. rewrite <- (frame_payload _ _ Hf4 x). by apply Hpay3.
  - by rewrite <- (frame_payload _ _ Hf4 p).
  - apply bool_decide_ext. split; congruence.
  - exists l. split; [done|]. by eapply indexed_frame.
Qed.

End enqueue_part.

(** ** The loops of [dispatch_timers] and [cancel_timer] *)

Section loops_part.

Lemma loop_ok_stop (q : queue) : wf q → loop_ok q (Done [] q).
Proof.
  intros Hwf. split; [constructor|]. split; [constructor|].
  split; [done|]. split; [|split; [done|constructor]].
  intros x. split; [|tauto]. intros ?. split; [done|]. by intros ?%elem_of_nil.
Qed.

Lemma loop_ok_undef (q : queue) : loop_ok q (Undef []).
Proof. split; [constructor|]. split; constructor. Qed.

Lemma events_of_after ev (r : result) :
  events_of (after ev r) = ev :: events_of r.
Proof. by destruct r. Qed.

(** Deleting an object that no chain and no heap slot refers to does not
    bring it back. *)
Lemma retire_ok k t (q : queue) rest :
  wf q → t ∈ heap_ q →
  (∀ q2, wf q2 → (∀ x, x ∈ heap_ q2 ↔ x ∈ heap_ q ∧ x ≠ t) →
         (∀ x, store q !! x = None → store q2 !! x = None) →
         store q2 !! t = None →
         loop_ok q2 (rest q2)) →
  loop_ok q (retire comp do_operation_throws do_cancel_throws k t q rest).
Proof.
  intros Hwf Hin Hrest. unfold retire.
  destruct (remove_timer comp t q) as [q1|] eqn:Hrm; [|apply loop_ok_undef].
  destruct (remove_timer_spec _ _ _ Hwf Hin Hrm) as (Hwf1 & Hm1 & Hpay).
  destruct (wf_heap_store _ _ Hwf Hin) as [tb0 Htb0].
  destruct (same_payload_lookup _ _ _ _ Hpay Htb0) as (tb & Htb & _).
  rewrite Htb.
  set (ev := mk_event k t (handler_ tb) q1).
  assert (event_ok q ev) as Hev.
  { split; [done|]. split; [done|]. split; [|by exists tb].
    simpl. rewrite Hm1. tauto. }
  assert (throws ev = match k with
                      | DoOperation => do_operation_throws (handler_ tb)
                      | DoCancel => do_cancel_throws (handler_ tb)
                      end) as Hthr by done.
  rewrite <- Hthr. destruct (throws ev) eqn:Hth.
  - (* the callback throws *)
    split; [simpl; apply NoDup_singleton|]. split; [by constructor|].
    split; [done|]. split; [|split].
    + intros x. rewrite Hm1. simpl.
      rewrite list_elem_of_singleton. tauto.
    + intros x. by apply same_payload_None.
    + exists [], ev. done.
  - (* the callback returns, the timer is deleted *)
    assert (t ∉ heap_ q1) as Hnot by (rewrite Hm1; tauto).
    assert (∀ x, store q !! x = None →
                 store (delete_obj t q1) !! x = None) as Hnone.
    { intros x Hx. simpl. apply lookup_delete_None. right.
      by eapply same_payload_None. }
    specialize (Hrest (delete_obj t q1) (delete_obj_wf _ _ Hwf1 Hnot)).
    destruct Hrest as (Hnd & Hevs & Hfin);
      [done|done|apply lookup_delete_eq|].
    set (r := rest (delete_obj t q1)) in *.
    assert (∀ x, x ∈ timers_of (events_of r) → x ∈ heap_ q ∧ x ≠ t) as Hsub.
    { intros x [ev' [-> Hev']]%list_elem_of_fmap.
      rewrite Forall_forall in Hevs. destruct (Hevs _ Hev') as (Hx & _).
      simpl in Hx. by apply Hm1. }
    assert (∀ evs x, (x ∈ heap_ q ∧ x ≠ t) ∧ x ∉ timers_of evs ↔
              x ∈ heap_ q ∧ x ∉ timers_of (ev :: evs)) as Hmem.
    { intros evs x. simpl. rewrite elem_of_cons. tauto. }
    split; [|split].
    + rewrite events_of_after. simpl. constructor; [|done].
      intros Hx. apply Hsub in Hx. tauto.
    + rewrite events_of_after. constructor; [done|].
      eapply Forall_impl; [exact Hevs|]. intros ev' (Hx & ? & ? & ?).
      split; [|done]. simpl in Hx. apply Hm1 in Hx. tauto.
    + destruct r as [evs q'|evs q'|evs]; simpl in *.
      * destruct Hfin as (Hwf' & Hm' & Hst' & Hall). split; [done|].
        split; [|split].
        -- intros x. rewrite Hm', Hm1. apply Hmem.
        -- intros x Hx. by apply Hst', Hnone.
        -- constructor; [|done]. split; [done|]. simpl.
           apply Hst', lookup_delete_eq.
      * destruct Hfin as (Hwf' & Hm' & Hst' & evs0 & ev' & -> & Hth' & -> & Hall).
        split; [done|]. split; [|split].
        -- intros x. rewrite Hm', Hm1. apply Hmem.
        -- intros x Hx. by apply Hst', Hnone.
        -- exists (ev :: evs0), ev'. repeat split; try done.
           by constructor.
      * by constructor.
Qed.

Lemma dispatch_loop_ok n time (q : queue) :
  wf q →
  loop_ok q (dispatch_loop comp do_operation_throws do_cancel_throws n time q).
Proof.
  revert q. induction n as [|n IH]; intros q Hwf; simpl.
  { by apply loop_ok_stop. }
  destruct (heap_ q) as [|t h] eqn:Hh; [by apply loop_ok_stop|].
  destruct (store q !! t) as [tb|]; [|apply loop_ok_undef].
  destruct (comp (time_ tb) time); [|by apply loop_ok_stop].
  apply retire_ok; [done|rewrite Hh; left|]. intros q2 Hwf2 _ _ _.
  by apply IH.
Qed.

Lemma dispatch_timers_ok time (q : queue) :
  wf q →
  loop_ok q (dispatch_timers comp do_operation_throws do_cancel_throws time q).
Proof. apply dispatch_loop_ok. Qed.

(** The [next_] pointer of a pending timer is null or a pending timer. *)
Lemma wf_next (q : queue) t tb :
  wf q → t ∈ heap_ q → store q !! t = Some tb →
  next_ tb = 0%Z ∨ (next_ tb ∈ heap_ q ∧ next_ tb ≠ t).
Proof.
  intros Hwf Hin Ht. pose proof Hwf as [Hok Hch Hix].
  destruct (Hix _ _ Hin Ht) as (l & Hl & [k Hk]%list_elem_of_lookup).
  pose proof Hl as (Hne & Hhd & Hc).
  destruct (chain_at _ _ _ _ _ _ Hc Hk Ht) as (_ & _ & Hnx & _).
  destruct (decide (next_ tb = 0%Z)) as [|Hn0]; [by left|right].
  apply nth0_Some' in Hnx; [|done].
  destruct (Hch _ _ Hhd) as (l' & Hl' & Hsub).
  assert (l' = l) as -> by (eapply indexed_unique; eauto).
  split; [apply Hsub; by eapply list_elem_of_lookup_2|].
  intros He. rewrite He in Hnx.
  pose proof (chain_index _ _ _ _ _ _ Hc Hnx Hk). lia.
Qed.

Lemma cancel_loop_ok n t (q : queue) :
  wf q → t = 0%Z ∨ t ∈ heap_ q →
  loop_ok q (cancel_loop comp do_operation_throws do_cancel_throws n t q).
Proof.
  revert t q. induction n as [|n IH]; intros t q Hwf Ht; simpl.
  { by apply loop_ok_stop. }
  destruct (Z.eqb_spec t 0) as [|Ht0]; [by apply loop_ok_stop|].
  destruct Ht as [|Hin]; [done|].
  destruct (store q !! t) as [tb|] eqn:Htb; [|apply loop_ok_undef].
  apply retire_ok; [done|done|]. intros q2 Hwf2 Hm2 _ _.
  apply IH; [done|].
  destruct (wf_next _ _ _ Hwf Hin Htb) as [|[? ?]]; [by left|right].
  by apply Hm2.
Qed.

Lemma cancel_timer_ok token (q : queue) :
  wf q →
  loop_ok q (cancel_timer comp do_operation_throws do_cancel_throws token q).
Proof.
  intros Hwf. unfold cancel_timer.
  destruct (timers_ q !! token) as [t|] eqn:Ht; [|by apply loop_ok_stop].
  apply cancel_loop_ok; [done|]. right.
  destruct Hwf as [_ Hch _]. destruct (Hch _ _ Ht) as (l & Hl & Hsub).
  apply Hsub. destruct Hl as (Hne & Hhd & _).
  destruct l as [|x l]; [done|]. unfold nth0 in Hhd. simpl in Hhd.
  simplify_eq. left.
Qed.

Lemma reaches_nonzero s p x : reaches s p x → p ≠ 0%Z.
Proof. by intros []. Qed.

Lemma reaches_chain s tok l i p x :
  chain s tok l → l !! i = Some p → reaches s p x → x ∈ l.
Proof.
  intros Hc Hi Hr. revert i Hi.
  induction Hr as [p Hp|p tb x Hp Hs Hr IH]; intros i Hi.
  - by eapply list_elem_of_lookup_2.
  - destruct (chain_at _ _ _ _ _ _ Hc Hi Hs) as (_ & _ & Hnx & _).
    apply (IH (S i)). apply nth0_Some'; [done|].
    by eapply reaches_nonzero.
Qed.

Lemma chain_reaches s tok l i j y x :
  chain s tok l → l !! j = Some y → l !! i = Some x → j ≤ i →
  reaches s y x.
Proof.
  intros Hc Hj Hi Hle. remember (i - j) as d eqn:Hd.
  revert j y Hj Hle Hd. induction d as [|d IH]; intros j y Hj Hle Hd.
  - assert (j = i) as -> by lia. assert (y = x) as -> by congruence.
    constructor. by eapply chain_nonzero, list_elem_of_lookup_2.
  - destruct (chain_lookup _ _ _ _ _ Hc Hj) as (tb & Hs & Hy0 & _ & Hnx & _).
    destruct (lookup_lt_is_Some_2 l (S j)) as [z Hz].
    { pose proof (lookup_lt_Some _ _ _ Hi). lia. }
    eapply reaches_next; [done..|].
    rewrite Hnx, (nth0_lookup _ _ _ Hz). apply (IH (S j)); [done|lia|lia].
Qed.

Lemma wf_in_index (q : queue) x : wf q → in_index q x → x ∈ heap_ q.
Proof.
  intros [_ Hch _] (tok & head & Hh & Hr).
  destruct (Hch _ _ Hh) as (l & (Hne & Hhd & Hc) & Hsub).
  apply Hsub. eapply (reaches_chain _ _ _ 0); [done| |done].
  apply nth0_Some; [congruence|]. by eapply reaches_nonzero.
Qed.

Lemma wf_heap_in_index (q : queue) x : wf q → x ∈ heap_ q → in_index q x.
Proof.
  intros Hwf Hx. destruct (wf_heap_store _ _ Hwf Hx) as [tb Htb].
  destruct Hwf as [_ _ Hix].
  destruct (Hix _ _ Hx Htb) as (l & (Hne & Hhd & Hc) & [i Hi]%list_elem_of_lookup).
  exists (token_ tb), (nth0 l 0). split; [done|].
  destruct l as [|y l]; [done|].
  eapply (chain_reaches _ _ _ i 0); [done|done|done|lia].
Qed.

(** ** Reachable states satisfy the invariant *)
Lemma wf_empty : wf (empty_queue (∅ : gmap Z timer_base)).
Proof.
  split.
  - by intros i p ?.
  - intros tok head H. simpl in H. by rewrite lookup_empty in H.
  - by intros p tb ?%elem_of_nil.
Qed.

End loops_part.

(** ** The root of the heap after [up_heap] *)

Section root_part.

Lemma time_at_time_of (q : queue) i :
  time_at i q = heap_ q !! i ≫= time_of q.
Proof.
  unfold time_at, time_of. destruct (heap_ q !! i) as [p|]; [|done].
  simpl. by destruct (store q !! p).
Qed.

Lemma frame_time_of (q q' : queue) x :
  frame (store q) (store q') → time_of q' x = time_of q x.
Proof.
  intros Hf. unfold time_of. specialize (Hf x).
  destruct (store q !! x) as [tb|], (store q' !! x) as [tb'|];
    simpl in *; try done.
  injection Hf as ?????. by f_equal.
Qed.

(** Sifting up a timer that precedes all others brings it to the root. *)
Lemma up_heap_loop_to_root n i (q : queue) p tm :
  heap_ok q → i < n → heap_ q !! i = Some p → time_of q p = Some tm →
  (∀ j x, j ≠ i → heap_ q !! j = Some x →
     ∃ tx, time_of q x = Some tx ∧ comp tm tx = true) →
  ∃ q', up_heap_loop comp n i q = Some q' ∧ heap_ q' !! 0 = Some p.
Proof.
  revert i q. induction n as [|n IH]; intros i q Hok Hn Hi Htm Hall; [lia|].
  simpl. destruct (0 <? i) eqn:Hpos.
  2: { apply Nat.ltb_ge in Hpos. assert (i = 0) as -> by lia. eauto. }
  apply Nat.ltb_lt in Hpos.
  assert (i / 2 < i) as Hhalf by (apply Nat.div_lt; lia).
  pose proof (lookup_lt_Some _ _ _ Hi) as Hlen.
  destruct (lookup_lt_is_Some_2 (heap_ q) (i / 2)) as [b Hb]; [lia|].
  destruct (Hall (i / 2) b) as (tb & Htb & Hcmp); [lia|done|].
  rewrite !time_at_time_of, Hi, Hb. simpl. rewrite Htm, Htb. simpl.
  rewrite Hcmp.
  destruct (swap_heap_spec q _ _ _ _ Hok Hi Hb)
    as (q1 & -> & Hh1 & Hok1 & Hl1 & Hm1 & Ht1 & Hf1). simpl.
  apply IH; [done|lia| | |].
  - rewrite Hh1. apply list_lookup_insert_eq. rewrite length_insert. lia.
  - by rewrite (frame_time_of q q1).
  - intros j x Hj Hx. rewrite (frame_time_of q q1) by done.
    rewrite Hh1 in Hx. rewrite list_lookup_insert_ne in Hx by done.
    destruct (decide (j = i)) as [->|Hji].
    + rewrite list_lookup_insert_eq in Hx by done. simplify_eq. eauto.
    + rewrite list_lookup_insert_ne in Hx by done. by eapply Hall.
Qed.

(** Sifting up a timer that does not precede the root leaves the root. *)
Lemma up_heap_loop_keeps_root n i (q : queue) p tm r tr :
  heap_ok q → 0 < i → heap_ q !! i = Some p → time_of q p = Some tm →
  heap_ q !! 0 = Some r → time_of q r = Some tr → comp tm tr = false →
  ∃ q', up_heap_loop comp n i q = Some q' ∧ heap_ q' !! 0 = Some r.
Proof.
  revert i q. induction n as [|n IH];
    intros i q Hok Hpos Hi Htm Hr Htr Hcmp; [eauto|].
  simpl. rewrite (proj2 (Nat.ltb_lt 0 i)) by done.
  assert (i / 2 < i) as Hhalf by (apply Nat.div_lt; lia).
  pose proof (lookup_lt_Some _ _ _ Hi) as Hlen.
  destruct (lookup_lt_is_Some_2 (heap_ q) (i / 2)) as [b Hb]; [lia|].
  destruct (Hok _ _ Hb) as (tbb & Hsb & _).
  rewrite !time_at_time_of, Hi, Hb. simpl. rewrite Htm. simpl.
  unfold time_of at 1. rewrite Hsb. simpl.
  destruct (comp tm (time_ tbb)) eqn:Hc; [|eauto].
  destruct (decide (i / 2 = 0)) as [Hz|Hnz].
  { rewrite Hz in Hb. assert (b = r) as -> by congruence.
    unfold time_of in Htr. rewrite Hsb in Htr. simpl in Htr. congruence. }
  destruct (swap_heap_spec q _ _ _ _ Hok Hi Hb)
    as (q1 & -> & Hh1 & Hok1 & Hl1 & Hm1 & Ht1 & Hf1). simpl.
  apply (IH _ _ Hok1); [lia| | | | |done].
  - rewrite Hh1. apply list_lookup_insert_eq. rewrite length_insert. lia.
  - by rewrite (frame_time_of q q1).
  - rewrite Hh1. rewrite !list_lookup_insert_ne by lia. done.
  - by rewrite (frame_time_of q q1).
Qed.

End root_part.

(** ** Reachable states, and the properties of the operations *)

Section claims.

Lemma step_wf (o : op) (q : queue) :
  wf q → fresh_for o q →
  match step o q with
  | Done _ q' | Threw _ q' => wf q'
  | Undef _ => True
  end.
Proof.
  intros Hwf Hfresh. destruct o as [time h tok p|time|tok]; simpl.
  - destruct Hfresh as [Hp0 Hp].
    destruct (enqueue_timer_spec q time h tok p Hwf Hp0 Hp)
      as (b & q' & -> & Hwf' & _). done.
  - pose proof (dispatch_timers_ok time q Hwf) as (_ & _ & H).
    destruct (dispatch_timers _ _ _ _ _); [apply H|apply H|done].
  - pose proof (cancel_timer_ok tok q Hwf) as (_ & _ & H).
    destruct (cancel_timer _ _ _ _ _); [apply H|apply H|done].
Qed.

Lemma reachable_wf (q : queue) : reachable q → wf q.
Proof.
  induction 1 as [|q o evs q' _ IH Hf Hs|q o evs q' _ IH Hf Hs].
  - apply wf_empty.
  - pose proof (step_wf o q IH Hf) as H. by rewrite Hs in H.
  - pose proof (step_wf o q IH Hf) as H. by rewrite Hs in H.
Qed.

(** X29. In every state that a sequence of [enqueue_timer],
    [dispatch_timers] and [cancel_timer] calls with defined behaviour
    produces, calls left by an exception included, every pending
    entry is in exactly one slot of the heap array, its cached
    [heap_index_] is that slot, and it lies on exactly one chain of the
    token index, the chain of its own token, once. *)
Theorem heap_index_consistency (q : queue) (x : Z) :
  reachable q → pending q x →
  (∃ i tb, heap_ q !! i = Some x ∧
           (∀ j, heap_ q !! j = Some x → j = i) ∧
           store q !! x = Some tb ∧ heap_index_ tb = i) ∧
  (∃ tb l, store q !! x = Some tb ∧ indexed q (token_ tb) l ∧ x ∈ l ∧
           on_chain q (token_ tb) x ∧
           ∀ tok', on_chain q tok' x → tok' = token_ tb).
Proof.
  intros Hwf%reachable_wf Hpend.
  assert (x ∈ heap_ q) as Hx.
  { destruct Hpend as [|Hin]; [done|]. by apply wf_in_index. }
  pose proof Hwf as [Hok Hch Hix].
  pose proof Hx as [i Hi]%list_elem_of_lookup.
  destruct (Hok _ _ Hi) as (tb & Htb & Hidx).
  split.
  - exists i, tb. split; [done|]. split; [|done].
    intros j Hj. pose proof (heap_ok_NoDup q Hok) as Hnd.
    eapply NoDup_lookup; [exact Hnd|done..].
  - destruct (Hix _ _ Hx Htb) as (l & Hl & Hxl).
    exists tb, l. split; [done|]. split; [done|]. split; [done|].
    pose proof Hl as (Hne & Hhd & Hc).
    split.
    + exists (nth0 l 0). split; [done|].
      apply list_elem_of_lookup in Hxl as [k Hk].
      destruct l as [|y l]; [done|].
      eapply (chain_reaches _ _ _ k 0); [done|done|done|lia].
    + intros tok' (head & Hh & Hr).
      destruct (Hch _ _ Hh) as (l' & (Hne' & Hhd' & Hc') & _).
      assert (x ∈ l') as Hxl'.
      { eapply (reaches_chain _ _ _ 0); [done| |done].
        apply nth0_Some; [congruence|]. by eapply reaches_nonzero. }
      eapply chain_disjoint; eauto.
Qed.

Lemma step_events_ok (o : op) (q : queue) :
  wf q →
  Forall (event_ok q) (events_of (step o q)) ∧
  match step o q with
  | Done evs _ | Undef evs => Forall (λ ev, throws ev = false) evs
  | Threw evs q' =>
      ∃ evs0 ev, evs = evs0 ++ [ev] ∧ throws ev = true ∧ q' = ev_queue ev ∧
                 Forall (λ ev, throws ev = false) evs0
  end.
Proof.
  intros Hwf.
  assert (∀ r : result, loop_ok q r →
    Forall (event_ok q) (events_of r) ∧
    match r with
    | Done evs _ | Undef evs => Forall (λ ev, throws ev = false) evs
    | Threw evs q' =>
        ∃ evs0 ev, evs = evs0 ++ [ev] ∧ throws ev = true ∧
                   q' = ev_queue ev ∧ Forall (λ ev, throws ev = false) evs0
    end) as Hloop.
  { intros r (_ & Hevs & Hfin). split; [done|].
    destruct r as [evs q'|evs q'|evs].
    - destruct Hfin as (_ & _ & _ & Hall).
      eapply Forall_impl; [exact Hall|]. by intros ev [? _].
    - by destruct Hfin as (_ & _ & _ & Hex).
    - done. }
  destruct o as [time h tok p|time|tok]; simpl.
  - destruct (enqueue_timer _ _ _ _ _ _ _) as [[b q']|]; simpl;
      (split; constructor).
  - by apply Hloop, dispatch_timers_ok.
  - by apply Hloop, cancel_timer_ok.
Qed.

(** C7, as the code has it. When an operation makes a callback, the
    timer is already out of the heap and off every chain of the index,
    and it is still allocated. A callback that throws ends the operation
    at once with that exception; the queue is left as the callback found
    it, so the timer is not destroyed: it stays allocated, out of reach
    of the queue. *)
Theorem callback_after_removal (q : queue) (o : op) (ev : event) :
  reachable q → ev ∈ events_of (step o q) →
  ¬ pending (ev_queue ev) (ev_timer ev) ∧
  is_Some (store (ev_queue ev) !! ev_timer ev) ∧
  (throws ev = true →
     ∃ evs0, step o q = Threw (evs0 ++ [ev]) (ev_queue ev)).
Proof.
  intros Hwf%reachable_wf Hev.
  destruct (step_events_ok o q Hwf) as [Hevs Hfin].
  rewrite Forall_forall in Hevs.
  destruct (Hevs _ Hev) as (_ & Hwfe & Hnot & tb & Htb & _).
  split; [|split].
  - intros [Hh|Hi]; [done|]. by apply Hnot, wf_in_index.
  - by exists tb.
  - intros Hth. destruct (step o q) as [evs q'|evs q'|evs]; simpl in *.
    + rewrite Forall_forall in Hfin. specialize (Hfin _ Hev). congruence.
    + destruct Hfin as (evs0 & ev' & -> & Hth' & -> & Hall).
      apply elem_of_app in Hev as [Hev|Hev].
      * rewrite Forall_forall in Hall. specialize (Hall _ Hev). congruence.
      * apply list_elem_of_singleton in Hev as ->. by exists evs0.
    + rewrite Forall_forall in Hfin. specialize (Hfin _ Hev). congruence.
Qed.

(** C9, as the code has it. On a non-empty queue [get_earliest_time]
    yields the deadline of the timer at the root of the heap; on an
    empty queue it reads [heap_[0]] unchecked, which is undefined
    behaviour, not a detected failure. *)
Theorem get_earliest_time_contract (q : queue) :
  reachable q →
  (empty q = false →
     ∃ root tb, heap_ q !! 0 = Some root ∧ store q !! root = Some tb ∧
                call_get_earliest_time q = Returns (time_ tb)) ∧
  (empty q = true → call_get_earliest_time q = Undefined_behaviour).
Proof.
  intros [Hok _ _]%reachable_wf. unfold call_get_earliest_time,
    get_earliest_time, empty. split.
  - destruct (heap_ q) as [|root h] eqn:Hh; [done|]. intros _.
    destruct (Hok 0 root) as (tb & Htb & _); [by rewrite Hh|].
    exists root, tb. split; [done|]. split; [done|].
    unfold time_at. rewrite Hh. simpl. by rewrite Htb.
  - destruct (heap_ q) as [|root h] eqn:Hh; [|done]. intros _.
    unfold time_at. by rewrite Hh.
Qed.

(** C4, as the code has it. If no pending deadline precedes the deadline
    at the root of the heap, [enqueue_timer] returns true exactly when
    the new deadline precedes every deadline that was pending, so a tie
    with the earliest deadline gives false. *)
Theorem enqueue_timer_earliest (q : queue) time h tok p :
  (∀ a b c, comp a b = true → comp c b = false → comp a c = true) →
  reachable q → p ≠ 0%Z → store q !! p = None →
  root_is_earliest q →
  ∃ b q', enqueue_timer comp npos time h tok p q = Some (b, q') ∧
    (b = true ↔
     ∀ x tx, x ∈ heap_ q → time_of q x = Some tx → comp time tx = true).
Proof.
  intros Hcomp Hwf%reachable_wf Hp0 Hfresh Hroot.
  destruct (enqueue_timer_link q time h tok p Hwf Hp0 Hfresh)
    as (q3 & -> & Hwf3 & Hh3 & Hpay3 & Hs3p & _).
  pose proof Hwf3 as [Hok3 _ _].
  assert (length (heap_ q3) - 1 = length (heap_ q)) as Hlen.
  { rewrite Hh3, length_app. simpl. lia. }
  assert (heap_ q3 !! length (heap_ q) = Some p) as Hlast.
  { rewrite Hh3. by apply list_lookup_middle. }
  assert (time_of q3 p = Some time) as Htp.
  { unfold time_of. destruct (store q3 !! p) as [tbp|]; simplify_eq/=.
    unfold payload in Hs3p. by simplify_eq. }
  assert (∀ x, x ∈ heap_ q → time_of q3 x = time_of q x) as Htime.
  { intros x Hx. assert (x ≠ p) as Hxp.
    { intros ->. destruct (wf_heap_store _ _ Hwf Hx). congruence. }
    specialize (Hpay3 _ Hxp). unfold time_of.
    destruct (store q3 !! x) as [t3|], (store q !! x) as [t0|];
      simplify_eq/=; try done.
    by f_equal. }
  rewrite Hlen. unfold up_heap.
  assert (heap_ q = [] ∨ ∃ r hq, heap_ q = r :: hq) as [Hhq|(r & hq & Hhq)]
    by (destruct (heap_ q); eauto).
  - (* the queue was empty *)
    rewrite Hhq in Hh3 |- *. simpl. rewrite Hh3. simpl.
    eexists _, _. split; [done|]. rewrite bool_decide_true by done.
    split; [|done]. intros _ x tx Hx. by apply elem_of_nil in Hx.
  - assert (r ∈ heap_ q) as Hrq by (rewrite Hhq; left).
    destruct (wf_heap_store q r Hwf Hrq) as [tbr Htbr].
    assert (time_of q r = Some (time_ tbr)) as Htr
      by (unfold time_of; by rewrite Htbr).
    assert (heap_ q !! 0 = Some r) as Hr0 by (by rewrite Hhq).
    assert (heap_ q3 !! 0 = Some r) as Hr3 by (by rewrite Hh3, Hhq).
    assert (r ≠ p) as Hrp by congruence.
    assert (0 < length (heap_ q)) as Hpos by (rewrite Hhq; simpl; lia).
    destruct (comp time (time_ tbr)) eqn:Hc.
    + (* the new deadline precedes the root *)
      assert (∀ x tx, x ∈ heap_ q → time_of q x = Some tx →
                comp time tx = true) as Hall.
      { intros x tx Hx Htx. eapply Hcomp; [exact Hc|].
        by apply (Hroot r (time_ tbr) x tx). }
      destruct (up_heap_loop_to_root (S (length (heap_ q)))
                  (length (heap_ q)) q3 p time)
        as (q4 & -> & Hroot4); [done|lia|exact Hlast|done| |].
      { intros j x Hj Hx. rewrite Hh3 in Hx.
        apply lookup_app_Some in Hx as [Hx|[Hge Hx]].
        - assert (x ∈ heap_ q) as Hxq by (by eapply list_elem_of_lookup_2).
          destruct (wf_heap_store _ _ Hwf Hxq) as [tbx Htbx].
          exists (time_ tbx). rewrite Htime by done.
          assert (time_of q x = Some (time_ tbx)) as Htx
            by (unfold time_of; by rewrite Htbx).
          split; [done|]. by eapply Hall.
        - destruct (j - length (heap_ q)) as [|?] eqn:Hd; [|done].
          simpl in *. lia. }
      simpl. rewrite Hroot4. simpl. eexists _, _. split; [done|].
      rewrite bool_decide_true by done. done.
    + (* the new deadline does not precede the root *)
      destruct (up_heap_loop_keeps_root (S (length (heap_ q)))
                  (length (heap_ q)) q3 p time r (time_ tbr))
        as (q4 & -> & Hroot4);
        [done|lia|exact Hlast|done|done| |done|].
      { by rewrite Htime. }
      simpl. rewrite Hroot4. simpl. eexists _, _. split; [done|].
      rewrite bool_decide_false by done. split; [done|]. intros Hall.
      rewrite (Hall r (time_ tbr)) in Hc; done.
Qed.

End claims.

(** ** The life of an entry *)

Section lifecycle.

Lemma life_app x h1 h2 :
  life x (h1 ++ h2) = foldl (life_step x) (life x h1) h2.
Proof. unfold life. by rewrite foldl_app. Qed.

Lemma life_step_None x h : foldl (life_step x) None h = None.
Proof. by induction h. Qed.

(** Callbacks on distinct waiting entries end the wait of each. *)
Lemma life_calls x (b : bool) (evs : list event) :
  NoDup (timers_of evs) → (x ∈ timers_of evs → b = true) →
  foldl (life_step x) (Some b) (Called <$> evs)
  = Some (b && bool_decide (x ∉ timers_of evs)).
Proof.
  revert b. induction evs as [|ev evs IH]; intros b Hnd Hin.
  { by destruct b. }
  change (timers_of (ev :: evs)) with (ev_timer ev :: timers_of evs) in *.
  rewrite fmap_cons. cbn [foldl].
  change (life_step x (Some b) (Called ev))
    with (if decide (ev_timer ev = x)
          then (if b then Some false else None) else Some b).
  apply NoDup_cons in Hnd as [Hnot Hnd].
  destruct (decide (ev_timer ev = x)) as [He|He].
  - assert (b = true) as -> by (apply Hin; rewrite <- He; left).
    rewrite IH; [|done|].
    + simpl. rewrite bool_decide_false; [done|].
      intros Hn. apply Hn. rewrite He. left.
    + intros Hx. rewrite <- He in Hx. done.
  - rewrite IH; [|done|].
    + f_equal. f_equal. apply bool_decide_ext. rewrite elem_of_cons.
      split; [|tauto]. intros Hn [Hx|Hx]; [congruence|done].
    + intros Hx. apply Hin. by right.
Qed.

(** At each address, every entry created has had exactly one callback,
    except an entry that still waits, which has had none. *)
Lemma life_counts x h (b0 b : bool) :
  foldl (life_step x) (Some b0) h = Some b →
  creations x h + (if b0 then 1 else 0) = calls x h + (if b then 1 else 0).
Proof.
  revert b0. induction h as [|m h IH]; intros b0 H.
  { simpl in H. by simplify_eq. }
  cbn [foldl] in H. unfold creations, calls in *. rewrite !filter_cons.
  destruct m as [p|ev]; cbn [is_created is_called life_step] in *.
  - rewrite (decide_False (P := false = true)) by done.
    destruct (decide (p = x)) as [He|He].
    + destruct b0; [by rewrite life_step_None in H|].
      apply IH in H. rewrite bool_decide_true by done.
      rewrite decide_True by done. simpl. lia.
    + apply IH in H. rewrite bool_decide_false by done.
      rewrite decide_False by done. done.
  - rewrite (decide_False (P := false = true)) by done.
    destruct (decide (ev_timer ev = x)) as [He|He].
    + destruct b0; [|by rewrite life_step_None in H].
      apply IH in H. rewrite bool_decide_true by done.
      rewrite decide_True by done. simpl. lia.
    + apply IH in H. rewrite bool_decide_false by done.
      rewrite decide_False by done. done.
Qed.

Lemma history_calls h (q : queue) (r : result) :
  (∀ ev, Called ev ∈ h →
     wf (ev_queue ev) ∧ ev_timer ev ∉ heap_ (ev_queue ev)) →
  (∀ x, life x h = Some (bool_decide (x ∈ heap_ q))) →
  loop_ok q r →
  (∀ ev, Called ev ∈ h ++ (Called <$> events_of r) →
     wf (ev_queue ev) ∧ ev_timer ev ∉ heap_ (ev_queue ev)) ∧
  match final r with
  | Some q' =>
      wf q' ∧
      ∀ x, life x (h ++ (Called <$> events_of r))
           = Some (bool_decide (x ∈ heap_ q'))
  | None => ∀ x, is_Some (life x (h ++ (Called <$> events_of r)))
  end.
Proof.
  intros Hold Hlife (Hnd & Hevs & Hfin).
  rewrite Forall_forall in Hevs.
  assert (∀ x, life x (h ++ (Called <$> events_of r))
               = Some (bool_decide (x ∈ heap_ q)
                       && bool_decide (x ∉ timers_of (events_of r))))
    as Hnew.
  { intros x. rewrite life_app, Hlife. apply life_calls; [done|].
    intros [ev [-> Hev]]%list_elem_of_fmap.
    destruct (Hevs _ Hev) as (Hx & _). by rewrite bool_decide_true. }
  split.
  - intros ev [Hev|Hev]%elem_of_app; [by apply Hold|].
    apply list_elem_of_fmap in Hev as (ev' & Heq & Hev'). simplify_eq.
    destruct (Hevs _ Hev') as (_ & ? & ? & _). done.
  - assert (∀ (q' : queue) (evs : list event),
      (∀ x, x ∈ heap_ q' ↔ x ∈ heap_ q ∧ x ∉ timers_of evs) →
      ∀ x, bool_decide (x ∈ heap_ q) && bool_decide (x ∉ timers_of evs)
           = bool_decide (x ∈ heap_ q')) as Hbool.
    { intros q' evs Hm x. rewrite <- bool_decide_and.
      apply bool_decide_ext. by rewrite Hm. }
    destruct r as [evs q'|evs q'|evs]; simpl in *.
    + destruct Hfin as (Hwf' & Hm & _). split; [done|].
      intros x. rewrite Hnew. f_equal. by apply Hbool.
    + destruct Hfin as (Hwf' & Hm & _). split; [done|].
      intros x. rewrite Hnew. f_equal. by apply Hbool.
    + intros x. rewrite Hnew. eauto.
Qed.

(** The invariant along a history. *)
Lemma history_inv h oq :
  history h oq →
  (∀ ev, Called ev ∈ h →
     wf (ev_queue ev) ∧ ev_timer ev ∉ heap_ (ev_queue ev)) ∧
  match oq with
  | Some q => wf q ∧ ∀ x, life x h = Some (bool_decide (x ∈ heap_ q))
  | None => ∀ x, is_Some (life x h)
  end.
Proof.
  induction 1 as [|h q o Hh IH Hfresh].
  { split; [by intros ev ?%elem_of_nil|]. split; [apply wf_empty|].
    by intros x. }
  destruct IH as (Hold & Hwf & Hlife).
  destruct o as [time hd tok p|time|tok]; simpl.
  - (* enqueue_timer *)
    destruct Hfresh as [Hp0 Hp].
    destruct (enqueue_timer_spec q time hd tok p Hwf Hp0 Hp)
      as (b & q' & Heq & Hwf' & Hm & _).
    unfold marks_of. simpl. rewrite Heq. simpl. split.
    { intros ev [Hev|Hev]%elem_of_app; [by apply Hold|].
      apply list_elem_of_singleton in Hev. done. }
    split; [done|]. intros x. rewrite life_app, Hlife. simpl.
    assert (p ∉ heap_ q) as Hpq.
    { intros Hin. destruct (wf_heap_store _ _ Hwf Hin). congruence. }
    case_decide as He.
    + subst x. rewrite bool_decide_false by done.
      rewrite bool_decide_true; [done|]. apply Hm. by right.
    + f_equal. apply bool_decide_ext. rewrite Hm.
      split; [tauto|]. intros [?|?]; [done|]. by subst.
  - (* dispatch_timers *)
    apply (history_calls h q); [done..|]. by apply dispatch_timers_ok.
  - (* cancel_timer *)
    apply (history_calls h q); [done..|]. by apply cancel_timer_ok.
Qed.

(** C3. Along every sequence of operations, at every address: each
    callback is made on an entry that was created and has had no callback
    yet, so no entry has two callbacks ([life] is never [None]); an entry
    that is still pending has had none, and every other entry created has
    had exactly one ([creations] and [calls]); and when the callback
    starts, its entry is neither in the heap nor on a chain of the
    index. *)
Theorem exactly_one_callback h oq x :
  history h oq →
  (∃ waiting : bool,
     life x h = Some waiting ∧
     creations x h = calls x h + (if waiting then 1 else 0) ∧
     ∀ q, oq = Some q → (waiting = true ↔ pending q x)) ∧
  (∀ ev, Called ev ∈ h → ¬ pending (ev_queue ev) (ev_timer ev)).
Proof.
  intros (Hcalled & Hfin)%history_inv. split.
  - assert (∃ waiting, life x h = Some waiting ∧
              ∀ q, oq = Some q → (waiting = true ↔ pending q x))
      as (w & Hw & Hq).
    { destruct oq as [q|].
      - destruct Hfin as [Hwf Hlife]. eexists. split; [apply Hlife|].
        intros q' [= <-]. rewrite bool_decide_eq_true. split.
        + by left.
        + intros [?|?]; [done|]. by apply wf_in_index.
      - destruct (Hfin x) as [w Hw]. exists w. by split. }
    exists w. split; [done|]. split; [|done].
    pose proof (life_counts x h false w Hw) as Hc. simpl in Hc. lia.
  - intros ev Hev. destruct (Hcalled _ Hev) as [Hwf Hnot].
    intros [?|?]; [done|]. by apply Hnot, wf_in_index.
Qed.

End lifecycle.

(** ** The loops end before their bounds *)

Section fuel_part.

Abbreviation dispatch_loop :=
  (dispatch_loop comp do_operation_throws do_cancel_throws).
Abbreviation cancel_loop :=
  (cancel_loop comp do_operation_throws do_cancel_throws).

Lemma remove_from_heap_shape t (q q' : queue) :
  remove_from_heap comp t q = Some q' →
  length (heap_ q') = length (heap_ q) - 1 ∧
  dom (store q') = dom (store q).
Proof.
  unfold remove_from_heap. intros H.
  destruct (store q !! t) as [tb|]; simpl in H; [|done].
  destruct (1 <? length (heap_ q)) eqn:H1.
  - destruct (swap_heap _ _ q) as [q1|] eqn:Hsw; simpl in H; [|done].
    apply swap_heap_shape in Hsw as [Hl1 Hd1].
    destruct (store q1 !! t) as [tb'|]; simpl in H; [|done].
    set (q2 := set_heap (removelast (heap_ q1)) q1) in *.
    assert (same_shape q2 q' → length (heap_ q') = length (heap_ q) - 1 ∧
              dom (store q') = dom (store q)) as Hfin.
    { intros [Hl Hd]. rewrite Hl, Hd. unfold q2. simpl.
      rewrite length_removelast. split; congruence. }
    destruct (0 <? heap_index_ tb).
    + destruct (time_at _ q2) as [pt|]; simpl in H; [|done].
      destruct (comp (time_ tb') pt).
      * by eapply Hfin, up_heap_loop_shape.
      * by eapply Hfin, down_heap_loop_shape.
    + simpl in H. by eapply Hfin, down_heap_loop_shape.
  - apply Nat.ltb_ge in H1. simplify_eq. simpl. split; [lia|done].
Qed.

Lemma remove_from_hash_shape t (q q' : queue) :
  remove_from_hash t q = Some q' →
  heap_ q' = heap_ q ∧ dom (store q') = dom (store q).
Proof.
  unfold remove_from_hash. intros H.
  destruct (store q !! t) as [tb|]; simpl in H; [|done].
  destruct (timers_ q !! token_ tb) as [head|]; [|by simplify_eq].
  assert (∀ (c : bool) p f (qa qb : queue),
    (if c then Some qa else update_obj p f qa) = Some qb →
    heap_ qb = heap_ qa ∧ dom (store qb) = dom (store qa)) as Hstep.
  { intros c p f qa qb Hc. destruct c; [by simplify_eq|].
    apply update_obj_shape in Hc as (? & _ & ?). done. }
  destruct (if (prev_ tb =? 0)%Z then Some q else _) as [q1|] eqn:H1;
    simpl in H; [|done].
  destruct (store q1 !! t) as [tb1|]; simpl in H; [|done].
  destruct (if (next_ tb1 =? 0)%Z then Some q1 else _) as [q2|] eqn:H2;
    simpl in H; [|done].
  apply Hstep in H1 as [Hh1 Hd1]. apply Hstep in H2 as [Hh2 Hd2].
  simplify_eq. simpl. split; congruence.
Qed.

Lemma remove_timer_shape t (q q' : queue) :
  remove_timer comp t q = Some q' →
  length (heap_ q') = length (heap_ q) - 1 ∧
  dom (store q') = dom (store q).
Proof.
  unfold remove_timer. intros H.
  destruct (remove_from_heap comp t q) as [q1|] eqn:H1; simpl in H; [|done].
  apply remove_from_heap_shape in H1 as [Hl1 Hd1].
  apply remove_from_hash_shape in H as [Hh Hd]. split; congruence.
Qed.

Lemma retire_ext k t (q : queue) (rest1 rest2 : queue → result) :
  (∀ q1, remove_timer comp t q = Some q1 →
         rest1 (delete_obj t q1) = rest2 (delete_obj t q1)) →
  retire comp do_operation_throws do_cancel_throws k t q rest1
  = retire comp do_operation_throws do_cancel_throws k t q rest2.
Proof.
  intros H. unfold retire.
  destruct (remove_timer comp t q) as [q1|]; [|done].
  destruct (store q1 !! t) as [tb|]; [|done].
  by rewrite H.
Qed.

(** The bounds on the iterations of the two loops are never reached. *)
Lemma dispatch_loop_fuel n m time (q : queue) :
  length (heap_ q) < n → length (heap_ q) < m →
  dispatch_loop n time q = dispatch_loop m time q.
Proof.
  revert m q. induction n as [|n IH]; intros m q Hn Hm; [lia|].
  destruct m as [|m]; [lia|]. simpl.
  destruct (heap_ q) as [|t h] eqn:Hh; [done|].
  destruct (store q !! t) as [tb|]; [|done].
  destruct (comp (time_ tb) time); [|done].
  apply retire_ext. intros q1 [Hl _]%remove_timer_shape.
  apply IH; simpl in *; rewrite Hl, Hh; simpl; lia.
Qed.

(** X7. The loop of [dispatch_timers] ends before its bound: the function
    satisfies the equation of the [while] loop, one iteration unrolled,
    in every state. *)
Theorem dispatch_timers_unfold time (q : queue) :
  dispatch_timers comp do_operation_throws do_cancel_throws time q =
    match heap_ q with
    | [] => Done [] q
    | t :: _ =>
        match store q !! t with
        | None => Undef []
        | Some tb =>
            if comp (time_ tb) time
            then retire comp do_operation_throws do_cancel_throws
                   DoOperation t q
                   (dispatch_timers comp do_operation_throws
                      do_cancel_throws time)
            else Done [] q
        end
    end.
Proof.
  unfold dispatch_timers at 1. simpl.
  destruct (heap_ q) as [|t h] eqn:Hh; [done|].
  destruct (store q !! t) as [tb|]; [|done].
  destruct (comp (time_ tb) time); [|done].
  apply retire_ext. intros q1 [Hl _]%remove_timer_shape.
  unfold dispatch_timers.
  apply dispatch_loop_fuel; simpl in *; rewrite Hl, Hh; simpl; lia.
Qed.

Lemma cancel_loop_fuel n m t (q : queue) :
  size (store q) < n → size (store q) < m →
  cancel_loop n t q = cancel_loop m t q.
Proof.
  revert m t q. induction n as [|n IH]; intros m t q Hn Hm; [lia|].
  destruct m as [|m]; [lia|]. simpl.
  destruct (t =? 0)%Z; [done|].
  destruct (store q !! t) as [tb|] eqn:Ht; [|done].
  apply retire_ext. intros q1 [_ Hd]%remove_timer_shape.
  assert (size (store (delete_obj t q1)) < size (store q)) as Hlt.
  { simpl. assert (is_Some (store q1 !! t)) as Hs1.
    { apply elem_of_dom. rewrite Hd. by apply elem_of_dom_2 in Ht. }
    rewrite map_size_delete_Some by done.
    assert (size (store q1) = size (store q)) as ->
      by (by rewrite <- !size_dom, Hd).
    assert (size (store q) ≠ 0)
      by (eapply map_size_ne_0_lookup_2; eauto).
    lia. }
  apply IH; lia.
Qed.

Lemma cancel_from_unfold t (q : queue) :
  cancel_from comp do_operation_throws do_cancel_throws t q =
    if (t =? 0)%Z then Done [] q
    else match store q !! t with
         | None => Undef []
         | Some tb =>
             retire comp do_operation_throws do_cancel_throws
               DoCancel t q
               (cancel_from comp do_operation_throws do_cancel_throws
                  (next_ tb))
         end.
Proof.
  unfold cancel_from at 1. simpl.
  destruct (t =? 0)%Z; [done|].
  destruct (store q !! t) as [tb|] eqn:Ht; [|done].
  apply retire_ext. intros q1 [_ Hd]%remove_timer_shape.
  assert (size (store (delete_obj t q1)) < size (store q)) as Hlt.
  { simpl. assert (is_Some (store q1 !! t)) as Hs1.
    { apply elem_of_dom. rewrite Hd. by apply elem_of_dom_2 in Ht. }
    rewrite map_size_delete_Some by done.
    assert (size (store q1) = size (store q)) as ->
      by (by rewrite <- !size_dom, Hd).
    assert (size (store q) ≠ 0)
      by (eapply map_size_ne_0_lookup_2; eauto).
    lia. }
  unfold cancel_from. apply cancel_loop_fuel; lia.
Qed.

End fuel_part.

(** ** [dispatch_timers] and [cancel_timer] while the heap stays in range *)

Section extras.

Abbreviation dispatch_loop :=
  (dispatch_loop comp do_operation_throws do_cancel_throws).
Abbreviation dispatch_timers :=
  (dispatch_timers comp do_operation_throws do_cancel_throws).
Abbreviation cancel_from :=
  (cancel_from comp do_operation_throws do_cancel_throws).

Lemma retire_events_inv k t (q : queue) rest ev :
  ev ∈ events_of (retire comp do_operation_throws do_cancel_throws k t q rest) →
  ∃ q1 tb, remove_timer comp t q = Some q1 ∧ store q1 !! t = Some tb ∧
    (ev = mk_event k t (handler_ tb) q1 ∨
     ev ∈ events_of (rest (delete_obj t q1))).
Proof.
  unfold retire. intros Hev.
  destruct (remove_timer comp t q) as [q1|] eqn:Hrm;
    [|by (simpl in Hev; apply elem_of_nil in Hev)].
  destruct (store q1 !! t) as [tb|] eqn:Htb;
    [|by (simpl in Hev; apply elem_of_nil in Hev)].
  exists q1, tb. split; [done|]. split; [done|].
  destruct (match k with
            | DoOperation => do_operation_throws (handler_ tb)
            | DoCancel => do_cancel_throws (handler_ tb)
            end).
  - left. simpl in Hev. by apply list_elem_of_singleton in Hev.
  - rewrite events_of_after in Hev.
    apply elem_of_cons in Hev as [->|Hev]; [by left|by right].
Qed.

Lemma dispatch_loop_only_due n time (q : queue) ev :
  wf q → ev ∈ events_of (dispatch_loop n time q) →
  ev_kind ev = DoOperation ∧
  ∃ tb, store (ev_queue ev) !! ev_timer ev = Some tb ∧
        comp (time_ tb) time = true.
Proof.
  revert q. induction n as [|n IH]; intros q Hwf Hev; simpl in Hev.
  { by (simpl in Hev; apply elem_of_nil in Hev). }
  destruct (heap_ q) as [|t h] eqn:Hh; [by (simpl in Hev; apply elem_of_nil in Hev)|].
  destruct (store q !! t) as [tb|] eqn:Htb; [|by (simpl in Hev; apply elem_of_nil in Hev)].
  destruct (comp (time_ tb) time) eqn:Hc; [|by (simpl in Hev; apply elem_of_nil in Hev)].
  assert (t ∈ heap_ q) as Hin by (rewrite Hh; left).
  apply retire_events_inv in Hev as (q1 & tb1 & Hrm & Htb1 & [->|Hev]).
  - split; [done|]. exists tb1. split; [done|].
    destruct (remove_timer_spec _ _ _ Hwf Hin Hrm) as (_ & _ & Hpay).
    destruct (same_payload_lookup _ _ _ _ Hpay Htb) as (tb' & ? & Ht & _).
    simpl. assert (tb' = tb1) as -> by congruence. by rewrite Ht.
  - destruct (remove_timer_spec _ _ _ Hwf Hin Hrm) as (Hwf1 & Hm1 & _).
    apply (IH (delete_obj t q1)); [|done].
    apply delete_obj_wf; [done|]. rewrite Hm1. tauto.
Qed.

(** X4. [dispatch_timers(time)] makes [do_operation] callbacks only, and
    only on timers whose deadline precedes [time] by the comparator. *)
Theorem dispatch_timers_only_due time (q : queue) ev :
  reachable q → ev ∈ events_of (dispatch_timers time q) →
  ev_kind ev = DoOperation ∧
  ∃ tb, store (ev_queue ev) !! ev_timer ev = Some tb ∧
        comp (time_ tb) time = true.
Proof. intros Hwf%reachable_wf. by apply dispatch_loop_only_due. Qed.

(** [cancel_timer] of a token that is not in the index makes no callback
    and changes nothing. *)
Lemma cancel_timer_absent token (q : queue) :
  timers_ q !! token = None →
  cancel_timer comp do_operation_throws do_cancel_throws token q
  = Done [] q.
Proof. intros H. unfold cancel_timer. by rewrite H. Qed.

(** The loop of [cancel_timer] walks the chain from its head: the timers
    cancelled are a prefix of the chain, the whole chain when the loop
    returns. *)
Lemma cancel_from_chain tok l (q : queue) :
  wf q → (l ≠ [] → indexed q tok l) →
  timers_of (events_of (cancel_from (nth0 l 0) q)) `prefix_of` l ∧
  Forall (λ ev, ev_kind ev = DoCancel)
    (events_of (cancel_from (nth0 l 0) q)) ∧
  ∀ evs q', cancel_from (nth0 l 0) q = Done evs q' → timers_of evs = l.
Proof.
  revert q. induction l as [|t l IH]; intros q Hwf Hl.
  { rewrite cancel_from_unfold. simpl.
    split; [apply prefix_nil|]. split; [constructor|].
    intros evs q' [= <- <-]. done. }
  destruct (Hl ltac:(done)) as (_ & Hhd & Hc).
  destruct (chain_lookup _ _ (t :: l) 0 t Hc eq_refl)
    as (tb & Htb & Ht0 & Htok & Hnx & _).
  change (nth0 (t :: l) 1) with (nth0 l 0) in Hnx.
  change (nth0 (t :: l) 0) with t in *.
  assert (t ∈ heap_ q) as Hin.
  { destruct Hwf as [_ Hch _]. destruct (Hch _ _ Hhd) as (l0 & Hl0 & Hsub).
    assert (l0 = t :: l) as ->.
    { eapply indexed_unique; [done|]. by apply Hl. }
    apply Hsub. left. }
  rewrite cancel_from_unfold. rewrite (proj2 (Z.eqb_neq t 0)) by done.
  rewrite Htb, Hnx. unfold retire.
  destruct (remove_timer comp t q) as [q1|] eqn:Hrm.
  2: { split; [apply prefix_nil|]. split; [constructor|]. done. }
  destruct (store q1 !! t) as [tb1|].
  2: { split; [apply prefix_nil|]. split; [constructor|]. done. }
  destruct (do_cancel_throws (handler_ tb1)).
  { split; [apply prefix_cons, prefix_nil|]. split; [by repeat constructor|].
    done. }
  destruct (remove_timer_spec _ _ _ Hwf Hin Hrm) as (Hwf1 & Hm1 & _).
  assert (t ∉ heap_ q1) as Hnot by (rewrite Hm1; tauto).
  assert (t ∉ l) as Htl.
  { destruct Hc as [Hnd _]. by apply NoDup_cons in Hnd as [? _]. }
  pose proof (remove_timer_chain q q1 t tb (t :: l) 0 Hwf Hin Htb) as Hch.
  rewrite Htok in Hch. specialize (Hch (Hl ltac:(done)) eq_refl Hrm).
  change (delete 0 (t :: l)) with l in Hch.
  destruct (IH (delete_obj t q1)) as (Hpre & Hall & Hdone).
  { by apply delete_obj_wf. }
  { intros Hne. rewrite decide_False in Hch by done.
    by apply indexed_delete_obj. }
  rewrite events_of_after. split; [|split].
  - by apply prefix_cons.
  - by constructor.
  - intros evs q'.
    destruct (cancel_from (nth0 l 0) (delete_obj t q1)) as [evs' q''| |];
      simpl; [|done..].
    intros [= <- <-]. simpl. f_equal. by eapply Hdone.
Qed.

(** X6. [cancel_timer(token)] on a token of the index, when it returns:
    [do_cancel] has been called on every timer of the chain, from the head
    of the chain on, and every one of them is out of the heap, off the
    index and deleted. *)
Theorem cancel_timer_chain token l (q : queue) evs q' :
  reachable q → indexed q token l →
  cancel_timer comp do_operation_throws do_cancel_throws token q
  = Done evs q' →
  timers_of evs = l ∧ Forall (λ ev, ev_kind ev = DoCancel) evs ∧
  ∀ x, x ∈ l → ¬ pending q' x ∧ store q' !! x = None.
Proof.
  intros Hwf%reachable_wf Hl Hdone.
  pose proof (cancel_timer_ok token q Hwf) as (_ & _ & Hok).
  rewrite Hdone in Hok. destruct Hok as (Hwf' & Hm & _ & Hall).
  unfold cancel_timer in Hdone.
  destruct Hl as (Hne & Hhd & Hc). rewrite Hhd in Hdone.
  destruct (cancel_from_chain token l q Hwf) as (_ & Hk & Heq); [done|].
  rewrite Hdone in Hk. simpl in Hk.
  apply Heq in Hdone. split; [done|]. split; [done|].
  intros x Hx. rewrite <- Hdone in Hx. split.
  - intros [Hh|Hi%wf_in_index]; [| |done].
    + apply Hm in Hh. tauto.
    + apply Hm in Hi. tauto.
  - apply list_elem_of_fmap in Hx as (ev & -> & Hev).
    rewrite Forall_forall in Hall. by destruct (Hall _ Hev).
Qed.

End extras.

(** ** The public surface in reachable states *)

Section surface.

(** X1. [empty()] in a state that a sequence of operations produces: it
    returns true exactly when no entry is pending. *)
Theorem empty_iff_none_pending (q : queue) :
  reachable q → (empty q = true ↔ ∀ x, ¬ pending q x).
Proof.
  intros Hwf%reachable_wf. unfold empty. split.
  - intros He x Hpend.
    assert (x ∈ heap_ q) as Hx.
    { destruct Hpend as [|Hin]; [done|]. by apply wf_in_index. }
    destruct (heap_ q); [by apply elem_of_nil in Hx|done].
  - intros Hn. destruct (heap_ q) as [|r hq] eqn:Hh; [done|].
    exfalso. apply (Hn r). left. rewrite Hh. left.
Qed.

(** X2. Index completeness: in a state that a sequence of operations
    produces, the tokens of the index are the tokens of the pending
    entries, and the chain of a token of the index is not empty: its head
    is a pending entry. *)
Theorem index_completeness (q : queue) (tok : Z) :
  reachable q →
  (is_Some (timers_ q !! tok) ↔
   ∃ x tb, pending q x ∧ store q !! x = Some tb ∧ token_ tb = tok) ∧
  (∀ head, timers_ q !! tok = Some head →
     head ≠ 0%Z ∧ pending q head ∧ on_chain q tok head).
Proof.
  intros Hwf%reachable_wf. pose proof Hwf as [Hok Hch Hix].
  assert (∀ head, timers_ q !! tok = Some head →
            head ≠ 0%Z ∧ head ∈ heap_ q ∧ on_chain q tok head ∧
            ∃ tb, store q !! head = Some tb ∧ token_ tb = tok) as Hhead.
  { intros head Hh.
    destruct (Hch _ _ Hh) as (l & (Hne & Hhd & Hc) & Hsub).
    destruct l as [|y l]; [done|].
    assert (head = y) as -> by (unfold nth0 in Hhd; simpl in Hhd; congruence).
    destruct Hc as [_ Hc].
    destruct (Hc 0 y eq_refl) as (Hy0 & tb & Htb & Htok & _).
    split; [done|]. split; [apply Hsub; left|].
    split; [|by exists tb].
    exists y. split; [done|]. by apply reaches_here. }
  split; [split|].
  - intros [head Hh].
    destruct (Hhead _ Hh) as (_ & Hx & _ & tb & Htb & Htok).
    exists head, tb. split; [by left|done].
  - intros (x & tb & Hpend & Htb & <-).
    assert (x ∈ heap_ q) as Hx.
    { destruct Hpend as [|Hin]; [done|]. by apply wf_in_index. }
    destruct (Hix _ _ Hx Htb) as (l & (_ & Hhd & _) & _). by eexists.
  - intros head Hh.
    destruct (Hhead _ Hh) as (H0 & Hx & Hon & _).
    split; [done|]. split; [by left|done].
Qed.

(** X3. [enqueue_timer] in a state that a sequence of operations produces
    always succeeds: the new entry becomes pending with its deadline,
    token and handler, no other entry becomes or ceases to be pending, and
    the new entry is the head of the chain of its token, in front of the
    entries that were on it. *)
Theorem enqueue_timer_inserts (q : queue) time h tok p :
  reachable q → p ≠ 0%Z → store q !! p = None →
  ∃ b q' l, enqueue_timer comp npos time h tok p q = Some (b, q') ∧
    (∀ x, pending q' x ↔ pending q x ∨ x = p) ∧
    payload <$> store q' !! p = Some (time, tok, h) ∧
    (∀ x, x ≠ p → payload <$> store q' !! x = payload <$> store q !! x) ∧
    match timers_ q !! tok with
    | None => l = []
    | Some _ => indexed q tok l
    end ∧
    indexed q' tok (p :: l).
Proof.
  intros Hwf%reachable_wf Hp0 Hp.
  destruct (enqueue_timer_spec q time h tok p Hwf Hp0 Hp)
    as (b & q' & Heq & Hwf' & Hmem & Hpay & Hnew & _ & l & Hl & Hl').
  exists b, q', l. split; [done|]. split; [|done].
  assert (∀ q0 x, wf q0 → pending q0 x ↔ x ∈ heap_ q0) as Hpend.
  { intros q0 x Hwf0. split; [|by left].
    intros [|Hin]; [done|]. by apply wf_in_index. }
  intros x. rewrite (Hpend q' x Hwf'), (Hpend q x Hwf). apply Hmem.
Qed.

End surface.

(** ** When [remove_timer] reads past the end of the heap *)

Section removal.

Lemma up_heap_past_end index (q : queue) :
  0 < index → heap_ q !! index = None → up_heap comp index q = None.
Proof.
  intros Hpos Hnone. unfold up_heap. simpl.
  destruct (0 <? index) eqn:H0; [|apply Nat.ltb_ge in H0; lia].
  assert (time_at index q = None) as ->; [|done].
  unfold time_at. by rewrite Hnone.
Qed.

Lemma remove_from_heap_defined (q : queue) t :
  heap_ok q → t ∈ heap_ q →
  (remove_from_heap comp t q = None ↔ sifts_up_from_end comp t q = true).
Proof.
  intros Hok Hin. unfold remove_from_heap, sifts_up_from_end.
  pose proof Hin as [i0 Hi0]%list_elem_of_lookup.
  destruct (Hok _ _ Hi0) as (tb & Ht & _). rewrite Ht. simpl.
  pose proof (heap_ok_lookup _ _ _ Hok Hin Ht) as Hhi.
  pose proof (lookup_lt_Some _ _ _ Hhi) as Hlen.
  destruct (1 <? length (heap_ q)) eqn:H1; [|done].
  apply Nat.ltb_lt in H1. simpl.
  destruct (lookup_lt_is_Some_2 (heap_ q) (length (heap_ q) - 1))
    as [b Hb]; [lia|].
  destruct (swap_heap_spec q _ _ _ _ Hok Hhi Hb)
    as (q' & Hsw & Hh' & Hok' & Hl' & Hm' & Ht' & Hf').
  rewrite Hsw. simpl.
  set (q'' := set_heap (removelast (heap_ q')) q').
  assert (heap_ok q'') as Hok''.
  { intros i p Hi. subst q''. qsimpl.
    rewrite lookup_removelast in Hi. case_decide; [|done]. eauto. }
  assert (length (heap_ q'') = length (heap_ q) - 1) as Hl''.
  { subst q''. qsimpl. by rewrite length_removelast, Hl'. }
  destruct (frame_lookup _ _ _ _ Hf' Ht) as (tb' & Htb' & Htime & _).
  rewrite Htb'. simpl.
  destruct (0 <? heap_index_ tb) eqn:H0.
  - apply Nat.ltb_lt in H0.
    assert (heap_index_ tb / 2 < heap_index_ tb) as Hhalf
      by (apply Nat.div_lt; lia).
    destruct (lookup_lt_is_Some_2 (heap_ q'') (heap_index_ tb / 2))
      as [x Hx]; [lia|].
    destruct (time_at_defined q'' _ _ Hok'' Hx) as (tbx & Htbx & Hpt).
    rewrite Hpt. simpl. rewrite Htime.
    destruct (decide (heap_index_ tb = length (heap_ q) - 1)) as [He|Hne].
    + rewrite (proj2 (Nat.eqb_eq _ _) He). simpl.
      assert (time_at (heap_index_ tb / 2) q = Some (time_ tbx)) as ->.
      { rewrite time_at_time_of in Hpt |- *.
        assert (heap_ q !! (heap_index_ tb / 2) = Some x) as ->.
        { subst q''. qsimpl. rewrite lookup_removelast in Hx.
          case_decide; [|done]. rewrite Hh' in Hx.
          rewrite !list_lookup_insert_ne in Hx by lia. done. }
        rewrite Hx in Hpt. simpl in *.
        rewrite <- (frame_time_of q q' x Hf'). done. }
      destruct (comp (time_ tb) (time_ tbx)).
      * split; [done|]. intros _. apply up_heap_past_end; [done|].
        apply lookup_ge_None. lia.
      * split; [|done]. intros Hd. exfalso.
        destruct (down_heap_loop_spec (S (length (heap_ q'')))
                    (heap_index_ tb) q'' Hok'') as (q1 & Hq1 & _).
        unfold down_heap in Hd. congruence.
    + rewrite (proj2 (Nat.eqb_neq _ _) Hne). simpl.
      split; [|done]. intros Hd. exfalso.
      destruct (comp (time_ tb) (time_ tbx)).
      * destruct (up_heap_loop_spec (S (heap_index_ tb))
                    (heap_index_ tb) q'' Hok'') as (q1 & Hq1 & _); [lia|].
        unfold up_heap in Hd. congruence.
      * destruct (down_heap_loop_spec (S (length (heap_ q'')))
                    (heap_index_ tb) q'' Hok'') as (q1 & Hq1 & _).
        unfold down_heap in Hd. congruence.
  - apply Nat.ltb_ge in H0. simpl.
    assert ((heap_index_ tb =? length (heap_ q) - 1) = false) as ->
      by (apply Nat.eqb_neq; lia).
    simpl. split; [|done]. intros Hd. exfalso.
    destruct (down_heap_loop_spec (S (length (heap_ q'')))
                (heap_index_ tb) q'' Hok'') as (q1 & Hq1 & _).
    unfold down_heap in Hd. congruence.
Qed.

Lemma wf_remove_timer_defined (q : queue) t :
  wf q → t ∈ heap_ q →
  (remove_timer comp t q = None ↔ sifts_up_from_end comp t q = true).
Proof.
  intros Hwf Hin. pose proof Hwf as [Hok Hch Hix].
  rewrite <- (remove_from_heap_defined q t Hok Hin). unfold remove_timer.
  destruct (remove_from_heap comp t q) as [q1|] eqn:H1; simpl; [|done].
  split; [|done]. intros Hnone. exfalso.
  destruct (remove_from_heap_spec _ _ _ Hok Hin H1)
    as (Hok1 & Hm1 & Ht1 & Hf1).
  destruct (wf_heap_store _ _ Hwf Hin) as [tb Htb].
  destruct (frame_lookup _ _ _ _ Hf1 Htb) as (tb1 & Htb1 & _ & Htok1 & _).
  destruct (Hix _ _ Hin Htb) as (l & Hl & Htl).
  apply list_elem_of_lookup in Htl as [k Hk].
  assert (indexed q1 (token_ tb1) l) as Hl1.
  { rewrite Htok1. by eapply indexed_frame. }
  destruct (remove_from_hash_store q1 t tb1 l k Htb1 Hl1 Hk)
    as (q2 & H2 & _).
  congruence.
Qed.


End removal.

(** ** How the loops of [dispatch_timers] and [cancel_timer] end *)

Section outcomes.

Abbreviation retire := (retire comp do_operation_throws do_cancel_throws).
Abbreviation dispatch_loop :=
  (dispatch_loop comp do_operation_throws do_cancel_throws).
Abbreviation dispatch_timers :=
  (dispatch_timers comp do_operation_throws do_cancel_throws).
Abbreviation cancel_loop :=
  (cancel_loop comp do_operation_throws do_cancel_throws).
Abbreviation cancel_timer :=
  (cancel_timer comp do_operation_throws do_cancel_throws).

Lemma final_after ev (r : result) : final (after ev r) = final r.
Proof. by destruct r. Qed.

Lemma after_Done ev (r : result) evs q' :
  after ev r = Done evs q' → ∃ evs', r = Done evs' q' ∧ evs = ev :: evs'.
Proof. destruct r; simpl; intros; simplify_eq. eauto. Qed.

(** The iteration that ends in a state: [remove_timer] has returned. *)
Lemma retire_final k t (q : queue) rest q' :
  wf q → t ∈ heap_ q → final (retire k t q rest) = Some q' →
  ∃ q1 tb, remove_timer comp t q = Some q1 ∧ wf q1 ∧
    (∀ x, x ∈ heap_ q1 ↔ x ∈ heap_ q ∧ x ≠ t) ∧
    same_payload (store q) (store q1) ∧ store q1 !! t = Some tb ∧
    (q' = q1 ∨
     wf (delete_obj t q1) ∧ final (rest (delete_obj t q1)) = Some q').
Proof.
  intros Hwf Hin. unfold retire.
  destruct (remove_timer comp t q) as [q1|] eqn:Hrm; [|done].
  destruct (remove_timer_spec _ _ _ Hwf Hin Hrm) as (Hwf1 & Hm1 & Hpay).
  destruct (store q1 !! t) as [tb|] eqn:Htb; [|done].
  intros Hfin. exists q1, tb. repeat (split; [done|]).
  destruct (match k with
            | DoOperation => do_operation_throws (handler_ tb)
            | DoCancel => do_cancel_throws (handler_ tb)
            end).
  - left. simpl in Hfin. congruence.
  - right. rewrite final_after in Hfin. split; [|done].
    apply delete_obj_wf; [done|]. rewrite Hm1. tauto.
Qed.

Lemma retire_Done k t (q : queue) rest evs q' :
  retire k t q rest = Done evs q' →
  ∃ q1 evs', remove_timer comp t q = Some q1 ∧
             rest (delete_obj t q1) = Done evs' q'.
Proof.
  unfold retire.
  destruct (remove_timer comp t q) as [q1|] eqn:Hrm; [|done].
  destruct (store q1 !! t) as [tb|]; [|done].
  destruct (match k with
            | DoOperation => do_operation_throws (handler_ tb)
            | DoCancel => do_cancel_throws (handler_ tb)
            end); [done|].
  intros (evs' & Hr & _)%after_Done. eauto.
Qed.

(** The iteration is defined when [remove_timer] is and the rest of the
    loop is. *)
Lemma retire_defined k t (q : queue) rest :
  wf q → t ∈ heap_ q → sifts_up_from_end comp t q = false →
  (∀ q2, wf q2 → (∀ x, x ∈ heap_ q2 ↔ x ∈ heap_ q ∧ x ≠ t) →
         is_Some (final (rest q2))) →
  is_Some (final (retire k t q rest)).
Proof.
  intros Hwf Hin Hs Hrest. unfold retire.
  destruct (remove_timer comp t q) as [q1|] eqn:Hrm.
  2:{ apply wf_remove_timer_defined in Hrm; [congruence|done..]. }
  destruct (remove_timer_spec _ _ _ Hwf Hin Hrm) as (Hwf1 & Hm1 & Hpay).
  destruct (wf_heap_store _ _ Hwf Hin) as [tb0 Htb0].
  destruct (same_payload_lookup _ _ _ _ Hpay Htb0) as (tb & Htb & _).
  rewrite Htb.
  destruct (match k with
            | DoOperation => do_operation_throws (handler_ tb)
            | DoCancel => do_cancel_throws (handler_ tb)
            end); [by eexists|].
  rewrite final_after. apply Hrest.
  - apply delete_obj_wf; [done|]. rewrite Hm1. tauto.
  - done.
Qed.

Lemma root_not_at_end (q : queue) t h :
  heap_ok q → heap_ q = t :: h → sifts_up_from_end comp t q = false.
Proof.
  intros Hok Hh. unfold sifts_up_from_end.
  destruct (Hok 0 t) as (tb & -> & Hi); [by rewrite Hh|]. rewrite Hi.
  destruct (1 <? length (heap_ q)) eqn:H1; [|done].
  apply Nat.ltb_lt in H1.
  assert ((0 =? length (heap_ q) - 1) = false) as ->
    by (apply Nat.eqb_neq; lia).
  done.
Qed.

Lemma dispatch_loop_defined n time (q : queue) :
  wf q → is_Some (final (dispatch_loop n time q)).
Proof.
  revert q. induction n as [|n IH]; intros q Hwf; simpl; [by eexists|].
  destruct (heap_ q) as [|t h] eqn:Hh; [by eexists|].
  assert (t ∈ heap_ q) as Hin by (rewrite Hh; left).
  destruct (wf_heap_store _ _ Hwf Hin) as [tb ->].
  destruct (comp (time_ tb) time); [|by eexists].
  apply retire_defined; [done|done| |].
  - eapply root_not_at_end; [apply Hwf|done].
  - intros q2 Hwf2 _. by apply IH.
Qed.

(** X12. [dispatch_timers] never has undefined behaviour in a state that
    a sequence of operations produces: it returns, or a callback throws,
    and either way it leaves a queue state. It removes the timer at index
    0 only, which the out-of-range read of [remove_timer] needs to be the
    last of several. *)
Theorem dispatch_timers_defined time (q : queue) :
  reachable q →
  ∃ evs q', dispatch_timers time q = Done evs q' ∨
            dispatch_timers time q = Threw evs q'.
Proof.
  intros Hwf%reachable_wf.
  destruct (dispatch_loop_defined (S (length (heap_ q))) time q Hwf)
    as [q' Hq'].
  unfold dispatch_timers.
  destruct (dispatch_loop (S (length (heap_ q))) time q)
    as [evs q1|evs q1|evs]; [by eauto|by eauto|done].
Qed.

Lemma wf_pending (q : queue) x : wf q → (pending q x ↔ x ∈ heap_ q).
Proof.
  intros Hwf. split; [|by left]. intros [|Hin]; [done|].
  by apply wf_in_index.
Qed.

(** When the loop of [dispatch_timers] returns, the timer at index 0, if
    there is one, is not due. *)
Lemma dispatch_loop_root n time (q : queue) evs q' :
  length (heap_ q) < n → dispatch_loop n time q = Done evs q' →
  ∀ r tb, heap_ q' !! 0 = Some r → store q' !! r = Some tb →
          comp (time_ tb) time = false.
Proof.
  revert q evs. induction n as [|n IH]; intros q evs Hlen H; [lia|].
  simpl in H. destruct (heap_ q) as [|t h] eqn:Hh.
  { simplify_eq. intros r tb Hr. by rewrite Hh in Hr. }
  destruct (store q !! t) as [tb0|] eqn:Ht; [|done].
  destruct (comp (time_ tb0) time) eqn:Hc.
  - apply retire_Done in H as (q1 & evs' & Hrm & Hrest).
    apply remove_timer_shape in Hrm as [Hl _].
    eapply IH; [|exact Hrest]. qsimpl. rewrite Hl, Hh. simpl in *. lia.
  - simplify_eq. intros r tb Hr Htb. rewrite Hh in Hr. simpl in Hr.
    simplify_eq. done.
Qed.

(** What the loops leave in the store has the deadline, token and handler
    it had. *)
Lemma retire_payload k t (q : queue) rest q' :
  wf q → t ∈ heap_ q →
  (∀ q2, wf q2 → (∀ x, x ∈ heap_ q2 ↔ x ∈ heap_ q ∧ x ≠ t) →
         final (rest q2) = Some q' →
         ∀ x tb', store q' !! x = Some tb' →
                  payload <$> store q2 !! x = Some (payload tb')) →
  final (retire k t q rest) = Some q' →
  ∀ x tb', store q' !! x = Some tb' →
           payload <$> store q !! x = Some (payload tb').
Proof.
  intros Hwf Hin Hrest Hfin x tb' Hx.
  destruct (retire_final _ _ _ _ _ Hwf Hin Hfin)
    as (q1 & tb & Hrm & Hwf1 & Hm1 & Hpay & Htb & [->|[Hwfd Hfin']]).
  - by rewrite (Hpay x), Hx.
  - specialize (Hrest _ Hwfd Hm1 Hfin' x tb' Hx). simpl in Hrest.
    destruct (decide (x = t)) as [->|Hne].
    + by rewrite lookup_delete_eq in Hrest.
    + rewrite lookup_delete_ne in Hrest by done. by rewrite (Hpay x).
Qed.

Lemma dispatch_loop_payload n time (q q' : queue) :
  wf q → final (dispatch_loop n time q) = Some q' →
  ∀ x tb', store q' !! x = Some tb' →
           payload <$> store q !! x = Some (payload tb').
Proof.
  revert q. induction n as [|n IH]; intros q Hwf; simpl.
  { intros Hf x tb' Hx. simpl in Hf. injection Hf as <-. by rewrite Hx. }
  destruct (heap_ q) as [|t h] eqn:Hh.
  { intros Hf x tb' Hx. simpl in Hf. injection Hf as <-. by rewrite Hx. }
  destruct (store q !! t) as [tb|]; [|done].
  destruct (comp (time_ tb) time).
  2:{ intros Hf x tb' Hx. simpl in Hf. injection Hf as <-. by rewrite Hx. }
  apply retire_payload; [done|rewrite Hh; left|].
  intros q2 Hwf2 _. by apply IH.
Qed.

Lemma cancel_loop_payload n t (q q' : queue) :
  wf q → t = 0%Z ∨ t ∈ heap_ q →
  final (cancel_loop n t q) = Some q' →
  ∀ x tb', store q' !! x = Some tb' →
           payload <$> store q !! x = Some (payload tb').
Proof.
  revert t q. induction n as [|n IH]; intros t q Hwf Ht; simpl.
  { intros Hf x tb' Hx. simpl in Hf. injection Hf as <-. by rewrite Hx. }
  destruct (Z.eqb_spec t 0) as [|Ht0].
  { intros Hf x tb' Hx. simpl in Hf. injection Hf as <-. by rewrite Hx. }
  destruct Ht as [|Hin]; [done|].
  destruct (store q !! t) as [tb|] eqn:Htb; [|done].
  apply retire_payload; [done|done|].
  intros q2 Hwf2 Hm2. apply IH; [done|].
  destruct (wf_next _ _ _ Hwf Hin Htb) as [|[? ?]]; [by left|right].
  by apply Hm2.
Qed.

Lemma wf_head_pending (q : queue) tok t :
  wf q → timers_ q !! tok = Some t → t ∈ heap_ q.
Proof.
  intros [_ Hch _] Ht. destruct (Hch _ _ Ht) as (l & Hl & Hsub).
  apply Hsub. destruct Hl as (Hne & Hhd & _).
  destruct l as [|x l]; [done|]. unfold nth0 in Hhd. simpl in Hhd.
  simplify_eq. left.
Qed.

Lemma step_payload (o : op) (q q' : queue) :
  wf q → fresh_for o q → final (step o q) = Some q' →
  ∀ x tb', store q' !! x = Some tb' →
    payload <$> store q !! x = Some (payload tb') ∨
    ∃ time h tok, o = Enqueue time h tok x ∧ payload tb' = (time, tok, h).
Proof.
  intros Hwf Hfresh Hfin x tb' Hx. destruct o as [time h tok p|time|tok].
  - destruct Hfresh as [Hp0 Hp]. unfold step in Hfin.
    destruct (enqueue_timer_spec q time h tok p Hwf Hp0 Hp)
      as (b & q1 & Heq & _ & _ & Hpay & Hnew & _).
    rewrite Heq in Hfin. simpl in Hfin. simplify_eq.
    destruct (decide (x = p)) as [->|Hne].
    + right. exists time, h, tok. split; [done|].
      rewrite Hx in Hnew. simpl in Hnew. congruence.
    + left. rewrite <- (Hpay x Hne), Hx. done.
  - left. unfold step in Hfin.
    by eapply (dispatch_loop_payload (S (length (heap_ q)))).
  - left. unfold step in Hfin. unfold cancel_timer in Hfin.
    destruct (timers_ q !! tok) as [t|] eqn:Ht.
    + eapply (cancel_loop_payload (S (size (store q)))); [done| |done..].
      right. by eapply wf_head_pending.
    + simpl in Hfin. simplify_eq. by rewrite Hx.
Qed.

(** X13. No operation changes the deadline, the token or the handler of
    an entry: an object that is in the store after an operation that
    leaves a state is the entry that [enqueue_timer] has just created,
    with the deadline, token and handler given, or was in the store
    before with the same deadline, token and handler. *)
Theorem step_keeps_payload (o : op) (q q' : queue) :
  reachable q → fresh_for o q → final (step o q) = Some q' →
  ∀ x tb', store q' !! x = Some tb' →
    payload <$> store q !! x = Some (payload tb') ∨
    ∃ time h tok, o = Enqueue time h tok x ∧ payload tb' = (time, tok, h).
Proof. intros Hwf%reachable_wf. by apply step_payload. Qed.

(** X14. When [dispatch_timers(time)] returns: the callbacks were made on
    distinct entries that were pending, each of them is deleted and no
    longer pending, every other pending entry is still pending with its
    deadline, token and handler, and the entry at the root of the heap,
    if any is left, is not due. *)
Theorem dispatch_timers_returns time (q : queue) evs q' :
  reachable q → dispatch_timers time q = Done evs q' →
  NoDup (timers_of evs) ∧
  (∀ x, x ∈ timers_of evs → pending q x ∧ store q' !! x = None) ∧
  (∀ x, pending q' x ↔ pending q x ∧ x ∉ timers_of evs) ∧
  (∀ x tb', store q' !! x = Some tb' →
            payload <$> store q !! x = Some (payload tb')) ∧
  (∀ r tb, heap_ q' !! 0 = Some r → store q' !! r = Some tb →
           comp (time_ tb) time = false).
Proof.
  intros Hwf%reachable_wf Hd.
  pose proof (dispatch_timers_ok time q Hwf) as (Hnd & Hevs & Hfin).
  rewrite Hd in Hnd, Hevs, Hfin. simpl in Hnd, Hevs.
  destruct Hfin as (Hwf' & Hm & _ & Hall).
  split; [done|]. split; [|split; [|split]].
  - intros x [ev [-> Hev]]%list_elem_of_fmap.
    rewrite Forall_forall in Hevs, Hall.
    destruct (Hevs _ Hev) as (Hx & _). destruct (Hall _ Hev) as [_ Hdel].
    split; [by left|done].
  - intros x. rewrite (wf_pending q' x Hwf'), (wf_pending q x Hwf). apply Hm.
  - apply (dispatch_loop_payload (S (length (heap_ q))) time); [done|].
    unfold dispatch_timers in Hd. by rewrite Hd.
  - apply (dispatch_loop_root (S (length (heap_ q))) time q evs q');
      [lia|exact Hd].
Qed.

(** X15. When every pending entry is due, [dispatch_timers(time)] that
    returns has fired every pending entry and leaves the queue empty,
    whatever the order of the heap array. *)
Theorem dispatch_timers_all_due time (q : queue) evs q' :
  reachable q →
  (∀ x tb, pending q x → store q !! x = Some tb →
           comp (time_ tb) time = true) →
  dispatch_timers time q = Done evs q' →
  heap_ q' = [] ∧ timers_ q' = ∅ ∧ ∀ x, pending q x ↔ x ∈ timers_of evs.
Proof.
  intros Hwf%reachable_wf Hdue Hd.
  pose proof (dispatch_timers_ok time q Hwf) as (Hnd & Hevs & Hfin).
  rewrite Hd in Hnd, Hevs, Hfin. simpl in Hnd, Hevs.
  destruct Hfin as (Hwf' & Hm & _ & Hall).
  assert (heap_ q' = []) as Hempty.
  { destruct (heap_ q') as [|r h] eqn:Hh; [done|]. exfalso.
    assert (r ∈ heap_ q') as Hr by (rewrite Hh; left).
    destruct (wf_heap_store _ _ Hwf' Hr) as [tb Htb].
    pose proof (dispatch_loop_payload (S (length (heap_ q))) time q q' Hwf)
      as Hpay.
    unfold dispatch_timers in Hd. rewrite Hd in Hpay.
    specialize (Hpay eq_refl r tb Htb).
    destruct (store q !! r) as [tb0|] eqn:Htb0; [|done].
    simpl in Hpay. injection Hpay as Htime _ _.
    assert (comp (time_ tb0) time = true) as Hc.
    { destruct (proj1 (Hm r)) as [Hrq _]; [left|].
      apply (Hdue r); [by left|done]. }
    rewrite Htime in Hc.
    pose proof (dispatch_loop_root (S (length (heap_ q))) time q evs q')
      as Hroot.
    rewrite (Hroot ltac:(lia) Hd r tb) in Hc; [done| |done].
    by rewrite Hh. }
  split; [done|]. split.
  - apply map_eq. intros tok. rewrite lookup_empty.
    destruct (timers_ q' !! tok) as [t|] eqn:Ht; [|done].
    apply (wf_head_pending _ _ _ Hwf') in Ht. rewrite Hempty in Ht.
    by apply elem_of_nil in Ht.
  - intros x. rewrite (wf_pending q x Hwf). split.
    + intros Hx. destruct (decide (x ∈ timers_of evs)) as [|Hn]; [done|].
      assert (x ∈ heap_ q') as Hx' by (by apply Hm).
      rewrite Hempty in Hx'. by apply elem_of_nil in Hx'.
    + intros [ev [-> Hev]]%list_elem_of_fmap.
      rewrite Forall_forall in Hevs. by destruct (Hevs _ Hev) as (Hx & _).
Qed.

Lemma wf_chain_members (q : queue) tok l x tb :
  wf q → indexed q tok l → x ∈ heap_ q → store q !! x = Some tb →
  (x ∈ l ↔ token_ tb = tok).
Proof.
  intros Hwf Hl Hx Htb. split.
  - intros Hxl. destruct Hl as (_ & _ & Hc).
    destruct (chain_token _ _ _ _ Hc Hxl) as (tb' & ? & ?). congruence.
  - intros <-. destruct Hwf as [_ _ Hix].
    destruct (Hix _ _ Hx Htb) as (l0 & Hl0 & Hxl0).
    by rewrite (indexed_unique _ _ _ _ Hl Hl0).
Qed.

Lemma wf_token_absent (q : queue) tok x tb :
  wf q → timers_ q !! tok = None → x ∈ heap_ q → store q !! x = Some tb →
  token_ tb ≠ tok.
Proof.
  intros [_ _ Hix] Hnone Hx Htb <-.
  destruct (Hix _ _ Hx Htb) as (l & (_ & Hhd & _) & _). congruence.
Qed.

Lemma cancel_timer_Done tok (q : queue) evs q' :
  wf q → cancel_timer tok q = Done evs q' →
  timers_ q' !! tok = None ∧
  (∀ x, pending q' x ↔
        pending q x ∧ ∀ tb, store q !! x = Some tb → token_ tb ≠ tok) ∧
  (∀ x tb', store q' !! x = Some tb' →
            payload <$> store q !! x = Some (payload tb')).
Proof.
  intros Hwf Hd.
  pose proof (cancel_timer_ok tok q Hwf) as (_ & _ & Hfin).
  rewrite Hd in Hfin. destruct Hfin as (Hwf' & Hm & _ & _).
  unfold cancel_timer in Hd.
  destruct (timers_ q !! tok) as [t|] eqn:Ht.
  - pose proof Hwf as [_ Hch _].
    destruct (Hch _ _ Ht) as (l & Hl & Hsub).
    pose proof Hl as (Hne & Hhd & Hc).
    assert (t = nth0 l 0) as Het by congruence.
    destruct (cancel_from_chain tok l q Hwf (λ _, Hl)) as (_ & _ & Hall).
    rewrite <- Het in Hall. specialize (Hall _ _ Hd).
    assert (∀ x tb', store q' !! x = Some tb' →
              payload <$> store q !! x = Some (payload tb')) as Hpay.
    { eapply (cancel_loop_payload (S (size (store q))) t); [done| |].
      - right. by eapply wf_head_pending.
      - unfold cancel_from in Hd. by rewrite Hd. }
    assert (∀ x, x ∈ heap_ q' ↔
              x ∈ heap_ q ∧ ∀ tb, store q !! x = Some tb → token_ tb ≠ tok)
      as Hmem.
    { intros x. rewrite Hm, Hall. split.
      - intros [Hx Hnl]. split; [done|]. intros tb Htb Htok.
        apply Hnl. by apply (wf_chain_members q tok l x tb).
      - intros [Hx Hne']. split; [done|]. intros Hxl.
        destruct (wf_heap_store _ _ Hwf Hx) as [tb Htb].
        apply (Hne' tb Htb).
        by apply (wf_chain_members q tok l x tb). }
    split; [|split; [|done]].
    + destruct (timers_ q' !! tok) as [t'|] eqn:Ht'; [|done]. exfalso.
      pose proof (wf_head_pending _ _ _ Hwf' Ht') as Hx'.
      destruct (wf_heap_store _ _ Hwf' Hx') as [tb' Htb'].
      pose proof Hwf' as [_ Hch' _].
      destruct (Hch' _ _ Ht') as (l' & (Hne' & Hhd' & Hc') & _).
      assert (t' ∈ l') as Hin'.
      { destruct l' as [|y l']; [done|]. unfold nth0 in Hhd'.
        simpl in Hhd'. simplify_eq. left. }
      destruct (chain_token _ _ _ _ Hc' Hin') as (tb1 & Htb1 & Htok1).
      specialize (Hpay _ _ Htb'). apply Hmem in Hx' as [Hx Hne0].
      destruct (store q !! t') as [tb0|] eqn:Htb0; [|done].
      simpl in Hpay. injection Hpay as _ Htok _.
      apply (Hne0 tb0 eq_refl). congruence.
    + intros x. rewrite (wf_pending q' x Hwf'), (wf_pending q x Hwf).
      apply Hmem.
  - simpl in Hd. injection Hd as <- <-. split; [done|].
    split; [|intros x tb' Hx; by rewrite Hx].
    intros x. split; [|tauto]. intros Hx. split; [done|].
    intros tb Htb. eapply wf_token_absent; [done|done| |done].
    by apply wf_pending.
Qed.

(** X5. [cancel_timer] of a token under which no entry is pending, in a
    state that a sequence of operations produces: the token is not in the
    index, no callback is made and the queue is unchanged. *)
Theorem cancel_timer_no_entry tok (q : queue) :
  reachable q →
  (∀ x tb, pending q x → store q !! x = Some tb → token_ tb ≠ tok) →
  timers_ q !! tok = None ∧ cancel_timer tok q = Done [] q.
Proof.
  intros Hwf%reachable_wf Hno.
  assert (timers_ q !! tok = None) as Hnone.
  { destruct (timers_ q !! tok) as [t|] eqn:Ht; [|done]. exfalso.
    pose proof (wf_head_pending _ _ _ Hwf Ht) as Hin.
    destruct (wf_heap_store _ _ Hwf Hin) as [tb Htb].
    apply (Hno t tb); [by left|done|].
    pose proof Hwf as [_ Hch _].
    destruct (Hch _ _ Ht) as (l & Hl & _).
    apply (wf_chain_members q tok l t tb Hwf Hl Hin Htb).
    destruct Hl as (Hne & Hhd & _). destruct l as [|y l]; [done|].
    unfold nth0 in Hhd. simpl in Hhd. simplify_eq. left. }
  split; [done|]. by apply cancel_timer_absent.
Qed.

(** X16. When [cancel_timer(token)] returns, the token is no longer in the
    index, the entries that are pending are the ones that were pending
    under another token, and they keep their deadline, token and
    handler. *)
Theorem cancel_timer_returns tok (q : queue) evs q' :
  reachable q → cancel_timer tok q = Done evs q' →
  timers_ q' !! tok = None ∧
  (∀ x, pending q' x ↔
        pending q x ∧ ∀ tb, store q !! x = Some tb → token_ tb ≠ tok) ∧
  (∀ x tb', store q' !! x = Some tb' →
            payload <$> store q !! x = Some (payload tb')).
Proof. intros Hwf%reachable_wf. by apply cancel_timer_Done. Qed.

End outcomes.

(** ** The objects in the store *)

Section accounting.

Lemma loop_ok_store (q : queue) evs q' :
  loop_ok q (Done evs q') →
  (∀ x, is_Some (store q !! x) ↔ x ∈ heap_ q) →
  ∀ x, is_Some (store q' !! x) ↔ x ∈ heap_ q'.
Proof.
  intros (_ & _ & Hwf' & Hm & Hst & Hall) Hq x. split.
  - intros Hx. apply Hm.
    assert (is_Some (store q !! x)) as Hx0.
    { destruct (store q !! x) eqn:E; [by eexists|].
      rewrite (Hst x E) in Hx. by destruct Hx. }
    split; [by apply Hq|].
    intros [ev [-> Hev]]%list_elem_of_fmap.
    rewrite Forall_forall in Hall. destruct (Hall _ Hev) as [_ Hdel].
    rewrite Hdel in Hx. by destruct Hx.
  - by apply wf_heap_store.
Qed.

Lemma loop_ok_no_throw (q : queue) evs q' :
  no_throw do_operation_throws do_cancel_throws →
  ¬ loop_ok q (Threw evs q').
Proof.
  intros [Hop Hcan] (_ & _ & _ & _ & _ & evs0 & ev & _ & Hth & _).
  unfold throws in Hth. destruct (ev_kind ev); congruence.
Qed.

(** X17. No entry is leaked while no callback throws: in every state that
    a sequence of operations produces, the timer objects in the store are
    the pending entries. *)
Theorem no_leak (q : queue) :
  no_throw do_operation_throws do_cancel_throws → reachable q →
  ∀ x, is_Some (store q !! x) ↔ pending q x.
Proof.
  intros Hno Hr.
  assert (∀ x, is_Some (store q !! x) ↔ x ∈ heap_ q) as Hq.
  2:{ intros x. rewrite Hq. symmetry. apply wf_pending.
      by apply reachable_wf. }
  induction Hr as [|q o evs q' Hr IH Hfresh Hstep
                   |q o evs q' Hr IH Hfresh Hstep].
  - intros x. simpl. rewrite lookup_empty. split.
    + by intros [? ?].
    + by intros ?%elem_of_nil.
  - pose proof (reachable_wf _ Hr) as Hwf.
    destruct o as [time h tok p|time|tok]; unfold step in Hstep.
    + destruct Hfresh as [Hp0 Hp].
      destruct (enqueue_timer_spec q time h tok p Hwf Hp0 Hp)
        as (b & q1 & Heq & _ & Hm & Hpay & Hnew & _).
      rewrite Heq in Hstep. injection Hstep as <- <-.
      intros x. rewrite Hm. destruct (decide (x = p)) as [->|Hne].
      * split; [by right|]. intros _.
        destruct (store q1 !! p); [by eexists|done].
      * rewrite <- IH. specialize (Hpay x Hne).
        split.
        -- intros [tb Htb]. left. rewrite Htb in Hpay.
           destruct (store q !! x); [by eexists|done].
        -- intros [[tb Htb]|]; [|done]. rewrite Htb in Hpay.
           destruct (store q1 !! x); [by eexists|done].
    + apply (loop_ok_store q evs); [|done].
      rewrite <- Hstep. by apply dispatch_timers_ok.
    + apply (loop_ok_store q evs); [|done].
      rewrite <- Hstep. by apply cancel_timer_ok.
  - exfalso. pose proof (reachable_wf _ Hr) as Hwf.
    destruct o as [time h tok p|time|tok]; unfold step in Hstep.
    + destruct (enqueue_timer comp npos time h tok p q) as [[? ?]|]; done.
    + apply (loop_ok_no_throw q evs q' Hno).
      rewrite <- Hstep. by apply dispatch_timers_ok.
    + apply (loop_ok_no_throw q evs q' Hno).
      rewrite <- Hstep. by apply cancel_timer_ok.
Qed.

End accounting.

(** ** The heap after [enqueue_timer] calls alone *)

Section enqueue_only.

Hypothesis comp_swo : strict_weak_order comp.

Lemma comp_irrefl a : comp a a = false.
Proof.
  destruct comp_swo as [Hasym _]. destruct (comp a a) eqn:E; [|done].
  by rewrite (Hasym a a E) in E.
Qed.

Lemma comp_neg_trans a b c :
  comp a b = false → comp b c = false → comp a c = false.
Proof.
  destruct comp_swo as [_ Hneg]. intros Hab Hbc.
  destruct (comp a c) eqn:E; [|done].
  by rewrite (Hneg a c b E Hbc) in Hab.
Qed.

Lemma swap_heap_time_at i j (q : queue) a b :
  heap_ok q → heap_ q !! i = Some a → heap_ q !! j = Some b →
  ∃ q', swap_heap i j q = Some q' ∧ heap_step q q' ∧
    ∀ k, time_at k q' =
         time_at (if decide (k = j) then i
                  else if decide (k = i) then j else k) q.
Proof.
  intros Hok Hi Hj.
  destruct (swap_heap_spec q _ _ _ _ Hok Hi Hj) as (q' & Hsw & Hh' & Hst).
  exists q'. split; [done|]. split; [done|].
  destruct Hst as (_ & _ & _ & _ & Hf).
  pose proof (lookup_lt_Some _ _ _ Hi) as Hli.
  pose proof (lookup_lt_Some _ _ _ Hj) as Hlj.
  assert (∀ o : option Z, o ≫= time_of q' = o ≫= time_of q) as Hbind.
  { intros [x|]; [|done]. simpl. by apply frame_time_of. }
  intros k. rewrite !time_at_time_of, Hh', Hbind. f_equal.
  destruct (decide (k = j)) as [->|Hkj].
  - rewrite list_lookup_insert_eq by (rewrite length_insert; lia). done.
  - rewrite list_lookup_insert_ne by done.
    destruct (decide (k = i)) as [->|Hki].
    + rewrite list_lookup_insert_eq by lia. done.
    + by rewrite list_lookup_insert_ne.
Qed.

(** [up_heap] restores the order from the one index where it may be
    broken. *)
Lemma up_heap_loop_ordered n i (q : queue) :
  heap_ok q → i < n → i < length (heap_ q) →
  (∀ k a b, 0 < k → k ≠ i → time_at k q = Some a →
            time_at (k / 2) q = Some b → comp a b = false) →
  (0 < i → ∀ k a b, k ≠ i → k / 2 = i → time_at k q = Some a →
                    time_at (i / 2) q = Some b → comp a b = false) →
  ∃ q', up_heap_loop comp n i q = Some q' ∧ up_ordered comp q'.
Proof.
  revert i q. induction n as [|n IH]; intros i q Hok Hn Hlen H1 H2; [lia|].
  simpl. destruct (0 <? i) eqn:H0.
  2:{ apply Nat.ltb_ge in H0. exists q. split; [done|].
      intros k a b Hk. apply H1; [done|lia]. }
  apply Nat.ltb_lt in H0.
  assert (i / 2 < i) as Hhalf by (apply Nat.div_lt; lia).
  destruct (lookup_lt_is_Some_2 (heap_ q) i) as [pi Hpi]; [lia|].
  destruct (lookup_lt_is_Some_2 (heap_ q) (i / 2)) as [pj Hpj]; [lia|].
  destruct (time_at_defined q _ _ Hok Hpi) as (tbi & _ & Hti).
  destruct (time_at_defined q _ _ Hok Hpj) as (tbj & _ & Htj).
  rewrite Hti, Htj. simpl.
  set (a := time_ tbi) in *. set (b := time_ tbj) in *.
  destruct (comp a b) eqn:Hc.
  2:{ exists q. split; [done|]. intros k a1 b1 Hk Ha1 Hb1.
      destruct (decide (k = i)) as [->|Hne]; [congruence|].
      by apply (H1 k). }
  destruct (swap_heap_time_at i (i / 2) q _ _ Hok Hpi Hpj)
    as (q' & Hsw & (Hok' & Hl' & _) & Ht').
  rewrite Hsw. simpl.
  assert (time_at i q' = Some b) as Hi'.
  { rewrite Ht'. rewrite decide_False by lia. by rewrite decide_True. }
  assert (time_at (i / 2) q' = Some a) as Hj'.
  { rewrite Ht'. by rewrite decide_True. }
  assert (∀ k, k ≠ i → k ≠ i / 2 → time_at k q' = time_at k q) as Hk'.
  { intros k ? ?. rewrite Ht'. by rewrite !decide_False. }
  destruct comp_swo as [Hasym Hneg].
  apply IH; [done|lia|lia| |].
  - intros k a1 b1 Hk Hkj Ha1 Hb1.
    destruct (decide (k = i)) as [->|Hki].
    { assert (a1 = b) as -> by congruence.
      assert (b1 = a) as -> by congruence. by apply Hasym. }
    rewrite Hk' in Ha1 by done.
    destruct (decide (k / 2 = i)) as [Hp|Hp].
    { rewrite Hp in Hb1. assert (b1 = b) as -> by congruence.
      by apply (H2 H0 k). }
    destruct (decide (k / 2 = i / 2)) as [Hp'|Hp'].
    { rewrite Hp' in Hb1. assert (b1 = a) as -> by congruence.
      apply Hasym. apply (Hneg a b a1); [done|].
      apply (H1 k); [done|done|done|]. by rewrite Hp'. }
    rewrite Hk' in Hb1 by done. by apply (H1 k).
  - intros Hj0 k a1 b1 Hkj Hp Ha1 Hb1.
    assert (i / 2 / 2 < i / 2) as Hq by (apply Nat.div_lt; lia).
    rewrite Hk' in Hb1 by lia.
    assert (comp b b1 = false) as Hbb1
      by (apply (H1 (i / 2)); [lia..|done|done]).
    destruct (decide (k = i)) as [->|Hki].
    { assert (a1 = b) as -> by congruence. done. }
    rewrite Hk' in Ha1 by done.
    apply (comp_neg_trans a1 b b1); [|done].
    apply (H1 k); [|done|done|by rewrite Hp].
    destruct (decide (k = 0)) as [->|]; [|lia].
    change (0 / 2) with 0 in Hp. lia.
Qed.

Lemma up_ordered_root (q : queue) :
  heap_ok q → up_ordered comp q → root_is_earliest q.
Proof.
  intros Hok Hord.
  assert (∀ i a b, time_at i q = Some a → time_at 0 q = Some b →
            comp a b = false) as Hroot.
  { intros i. induction (lt_wf i) as [i _ IH]. intros a b Ha Hb.
    destruct (decide (i = 0)) as [->|Hi].
    { assert (a = b) as -> by congruence. apply comp_irrefl. }
    assert (i / 2 < i) as Hhalf by (apply Nat.div_lt; lia).
    assert (i < length (heap_ q)) as Hlen.
    { rewrite time_at_time_of in Ha.
      destruct (heap_ q !! i) eqn:E; [|done]. by eapply lookup_lt_Some. }
    destruct (lookup_lt_is_Some_2 (heap_ q) (i / 2)) as [pj Hpj]; [lia|].
    destruct (time_at_defined q _ _ Hok Hpj) as (tbj & _ & Htj).
    apply (comp_neg_trans a (time_ tbj) b).
    - apply (Hord i); [lia|done|done].
    - by apply (IH (i / 2)). }
  intros r tr x tx Hr Htr [i Hi]%list_elem_of_lookup Htx.
  apply (Hroot i).
  - by rewrite time_at_time_of, Hi.
  - by rewrite time_at_time_of, Hr.
Qed.

Lemma enqueued_wf (q : queue) : enqueued comp npos q → wf q.
Proof.
  induction 1 as [|q time h tok p b q' _ IH Hp0 Hp Heq].
  - apply wf_empty.
  - destruct (enqueue_timer_spec q time h tok p IH Hp0 Hp)
      as (b' & q1 & Heq' & Hwf1 & _).
    congruence.
Qed.

Lemma enqueued_ordered (q : queue) : enqueued comp npos q → up_ordered comp q.
Proof.
  induction 1 as [|q time h tok p b q' He IH Hp0 Hp Heq].
  { intros i a b Hi Ha. by rewrite time_at_time_of in Ha. }
  pose proof (enqueued_wf _ He) as Hwf.
  destruct (enqueue_timer_link q time h tok p Hwf Hp0 Hp)
    as (q3 & Heq3 & Hwf3 & Hh3 & Hpay3 & _).
  rewrite Heq3 in Heq.
  assert (length (heap_ q3) - 1 = length (heap_ q)) as Hlast
    by (rewrite Hh3, length_app; simpl; lia).
  assert (∀ k, k < length (heap_ q) → time_at k q3 = time_at k q) as Hk.
  { intros k Hlt. rewrite !time_at_time_of, Hh3, lookup_app_l by done.
    destruct (heap_ q !! k) as [x|] eqn:Hx; [|done]. simpl.
    assert (x ≠ p) as Hne.
    { intros ->. apply list_elem_of_lookup_2 in Hx.
      destruct (wf_heap_store _ _ Hwf Hx) as [? ?]. congruence. }
    unfold time_of. specialize (Hpay3 x Hne).
    destruct (store q3 !! x), (store q !! x); unfold payload in *;
      simpl in *; congruence. }
  assert (∀ k a, time_at k q3 = Some a → k < length (heap_ q3)) as Hdef.
  { intros k a Ha. rewrite time_at_time_of in Ha.
    destruct (heap_ q3 !! k) eqn:E; [|done]. by eapply lookup_lt_Some. }
  destruct (up_heap_loop_ordered (S (length (heap_ q3) - 1))
              (length (heap_ q3) - 1) q3) as (q4 & Hup & Hord);
    [apply Hwf3|lia|rewrite Hh3, length_app; simpl; lia| | |].
  - intros k a0 b0 Hk0 Hne Ha0 Hb0.
    pose proof (Hdef _ _ Ha0) as Hlt.
    assert (k / 2 < k) by (apply Nat.div_lt; lia).
    rewrite Hk in Ha0, Hb0 by lia. by apply (IH k).
  - intros _ k a0 b0 Hne Hp2 Ha0 _.
    pose proof (Hdef _ _ Ha0) as Hlt.
    assert (k / 2 ≤ k) by (apply Nat.Div0.div_le_upper_bound; lia).
    lia.
  - unfold up_heap in Heq. rewrite Hup in Heq. simpl in Heq.
    destruct (heap_ q4 !! 0); simpl in Heq; [|done]. by simplify_eq.
Qed.

(** X18. After [enqueue_timer] calls alone, with a comparator that is a
    strict weak order, the heap is ordered along the parents that
    [up_heap] uses and no pending deadline precedes the deadline at the
    root: [get_earliest_time] yields an earliest deadline. *)
Theorem enqueued_root_earliest (q : queue) :
  enqueued comp npos q →
  up_ordered comp q ∧
  ∀ x tx, pending q x → time_of q x = Some tx →
    ∃ t, get_earliest_time q = Some t ∧ comp tx t = false.
Proof.
  intros He. pose proof (enqueued_ordered q He) as Hord.
  split; [done|].
  pose proof (enqueued_wf _ He) as Hwf.
  intros x tx Hx%(wf_pending q x Hwf) Htx.
  destruct (heap_ q) as [|r hq] eqn:Hh; [by apply elem_of_nil in Hx|].
  assert (heap_ q !! 0 = Some r) as Hr by (by rewrite Hh).
  destruct (time_at_defined q _ _ (wf_heap _ Hwf) Hr) as (tbr & Htbr & Ht0).
  exists (time_ tbr). split; [done|].
  apply (up_ordered_root q (wf_heap _ Hwf) Hord r (time_ tbr) x tx);
    [done| |by rewrite Hh|done].
  unfold time_of. by rewrite Htbr.
Qed.


End enqueue_only.

(** ** The order of the chains *)

Section chain_order.

Abbreviation retire := (retire comp do_operation_throws do_cancel_throws).
Abbreviation dispatch_loop :=
  (dispatch_loop comp do_operation_throws do_cancel_throws).
Abbreviation cancel_loop :=
  (cancel_loop comp do_operation_throws do_cancel_throws).

Lemma filter_ne_id (l : list Z) t : t ∉ l → filter (λ x, x ≠ t) l = l.
Proof.
  induction l as [|x l IH]; [done|]. intros Hn.
  rewrite filter_cons_True.
  - f_equal. apply IH. intros ?. apply Hn. by right.
  - intros ->. apply Hn. left.
Qed.

Lemma delete_filter_ne (l : list Z) k t :
  NoDup l → l !! k = Some t → delete k l = filter (λ x, x ≠ t) l.
Proof.
  revert k. induction l as [|x l IH]; intros k Hnd Hk; [done|].
  apply NoDup_cons in Hnd as [Hx Hnd]. destruct k as [|k]; simpl in *.
  - simplify_eq. rewrite filter_cons_False by (intros H; by apply H).
    by rewrite filter_ne_id.
  - rewrite filter_cons_True.
    + f_equal. by apply IH.
    + intros ->. apply Hx. by eapply list_elem_of_lookup_2.
Qed.

Lemma without_nil (l : list Z) : without ([] : list event) l = l.
Proof.
  unfold without. induction l as [|x l IH]; [done|].
  rewrite filter_cons_True; [by f_equal|]. apply not_elem_of_nil.
Qed.

Lemma without_cons (ev : event) evs (l : list Z) :
  without (ev :: evs) l = without evs (filter (λ x, x ≠ ev_timer ev) l).
Proof.
  unfold without, timers_of. rewrite fmap_cons, list_filter_filter.
  apply list_filter_iff. intros x. rewrite not_elem_of_cons. tauto.
Qed.

(** [remove_timer(t)] and the chains of the other tokens. *)
Lemma remove_timer_other (q q' : queue) t tb tok' :
  wf q → t ∈ heap_ q → store q !! t = Some tb → tok' ≠ token_ tb →
  remove_timer comp t q = Some q' →
  timers_ q' !! tok' = timers_ q !! tok' ∧
  ∀ l', indexed q tok' l' → indexed q' tok' l'.
Proof.
  intros Hwf Hin Htb Hne H. pose proof Hwf as [Hok Hch Hix].
  unfold remove_timer in H.
  destruct (remove_from_heap comp t q) as [q1|] eqn:H1; simpl in H; [|done].
  destruct (remove_from_heap_spec _ _ _ Hok Hin H1)
    as (Hok1 & Hm1 & Ht1 & Hf1).
  destruct (frame_lookup _ _ _ _ Hf1 Htb) as (tb1 & Htb1 & _ & Htok1 & _).
  destruct (Hix _ _ Hin Htb) as (l & Hl & Htl).
  apply list_elem_of_lookup in Htl as [k Hk].
  assert (indexed q1 (token_ tb1) l) as Hl1.
  { rewrite Htok1. by eapply indexed_frame. }
  destruct (remove_from_hash_store q1 t tb1 l k Htb1 Hl1 Hk)
    as (q2 & H2 & Hh2 & Ht2 & Hs2).
  assert (q2 = q') as -> by congruence.
  assert (timers_ q' !! tok' = timers_ q !! tok') as Htim.
  { rewrite Ht2, <- Ht1. case_decide.
    - rewrite lookup_delete_ne; [done|congruence].
    - rewrite lookup_insert_ne; [done|congruence]. }
  split; [done|].
  intros l' Hl'. destruct Hl1 as (_ & _ & Hc1).
  pose proof Hl' as (? & Hhd0 & _).
  apply (indexed_frame q q1) in Hl' as (? & Hhd' & Hc'); [|done..].
  split; [done|]. split; [by rewrite Htim|].
  eapply unlink_other_chain;
    [exact Hc1|exact Hk|exact Htb1|exact Hs2|congruence|done].
Qed.

Lemma remove_timer_chain_of (q q' : queue) t tok l :
  wf q → t ∈ heap_ q → chain_of q tok l →
  remove_timer comp t q = Some q' →
  chain_of q' tok (filter (λ x, x ≠ t) l).
Proof.
  intros Hwf Hin Hl Hrm. destruct (wf_heap_store _ _ Hwf Hin) as [tb Htb].
  destruct (decide (token_ tb = tok)) as [<-|Hne].
  - destruct l as [|y l0].
    { exfalso. by apply (wf_token_absent q (token_ tb) t tb Hwf Hl Hin Htb). }
    assert (t ∈ y :: l0) as [k Hk]%list_elem_of_lookup
      by (by apply (wf_chain_members q (token_ tb) _ t tb)).
    pose proof (remove_timer_chain q q' t tb _ k Hwf Hin Htb Hl Hk Hrm)
      as Hres.
    rewrite <- (delete_filter_ne _ k t); [|apply Hl|done].
    case_decide as Hd.
    + by rewrite Hd.
    + by destruct (delete k (y :: l0)).
  - destruct (remove_timer_other q q' t tb tok Hwf Hin Htb) as [Htim Hoth];
      [congruence|done|].
    destruct l as [|y l0].
    + simpl in *. congruence.
    + assert (t ∉ y :: l0) as Hnot.
      { intros Hx. apply Hne.
        by apply (wf_chain_members q tok (y :: l0) t tb). }
      rewrite filter_ne_id by done. by apply Hoth.
Qed.

Lemma delete_obj_chain_of (q : queue) tok l t :
  chain_of q tok l → t ∉ l → chain_of (delete_obj t q) tok l.
Proof. destruct l; [done|]. intros. by apply indexed_delete_obj. Qed.

Lemma retire_chain_of k t (q : queue) rest tok l q' :
  wf q → t ∈ heap_ q → chain_of q tok l →
  (∀ q2 l2, wf q2 → (∀ x, x ∈ heap_ q2 ↔ x ∈ heap_ q ∧ x ≠ t) →
            chain_of q2 tok l2 → final (rest q2) = Some q' →
            chain_of q' tok (without (events_of (rest q2)) l2)) →
  final (retire k t q rest) = Some q' →
  chain_of q' tok (without (events_of (retire k t q rest)) l).
Proof.
  intros Hwf Hin Hl Hrest. unfold retire.
  destruct (remove_timer comp t q) as [q1|] eqn:Hrm; [|done].
  destruct (remove_timer_spec _ _ _ Hwf Hin Hrm) as (Hwf1 & Hm1 & Hpay).
  pose proof (remove_timer_chain_of _ _ _ _ _ Hwf Hin Hl Hrm) as Hl1.
  destruct (store q1 !! t) as [tb|] eqn:Htb; [|done].
  destruct (match k with
            | DoOperation => do_operation_throws (handler_ tb)
            | DoCancel => do_cancel_throws (handler_ tb)
            end).
  - simpl. intros [= <-]. by rewrite without_cons, without_nil.
  - rewrite final_after, events_of_after, without_cons. intros Hfin.
    assert (t ∉ heap_ q1) as Hnot by (rewrite Hm1; tauto).
    apply Hrest; [by apply delete_obj_wf|done| |done].
    apply delete_obj_chain_of; [done|].
    rewrite list_elem_of_filter. tauto.
Qed.

Lemma dispatch_loop_chain_of n time (q q' : queue) tok l :
  wf q → chain_of q tok l → final (dispatch_loop n time q) = Some q' →
  chain_of q' tok (without (events_of (dispatch_loop n time q)) l).
Proof.
  revert q l. induction n as [|n IH]; intros q l Hwf Hl; simpl.
  { intros [= <-]. by rewrite without_nil. }
  destruct (heap_ q) as [|t h] eqn:Hh.
  { intros [= <-]. by rewrite without_nil. }
  destruct (store q !! t) as [tb|]; [|done].
  destruct (comp (time_ tb) time).
  2:{ intros [= <-]. by rewrite without_nil. }
  apply retire_chain_of; [done|rewrite Hh; left|done|].
  intros q2 l2 Hwf2 _ Hl2. by apply IH.
Qed.

Lemma cancel_loop_chain_of n t (q q' : queue) tok l :
  wf q → t = 0%Z ∨ t ∈ heap_ q → chain_of q tok l →
  final (cancel_loop n t q) = Some q' →
  chain_of q' tok (without (events_of (cancel_loop n t q)) l).
Proof.
  revert t q l. induction n as [|n IH]; intros t q l Hwf Ht Hl; simpl.
  { intros [= <-]. by rewrite without_nil. }
  destruct (Z.eqb_spec t 0) as [|Ht0].
  { intros [= <-]. by rewrite without_nil. }
  destruct Ht as [|Hin]; [done|].
  destruct (store q !! t) as [tb|] eqn:Htb; [|done].
  apply retire_chain_of; [done|done|done|].
  intros q2 l2 Hwf2 Hm2 Hl2. apply IH; [done| |done].
  destruct (wf_next _ _ _ Hwf Hin Htb) as [|[? ?]]; [by left|right].
  by apply Hm2.
Qed.

Lemma enqueue_timer_others (q : queue) time h tok p b q' :
  wf q → p ≠ 0%Z → store q !! p = None →
  enqueue_timer comp npos time h tok p q = Some (b, q') →
  timers_ q' = <[tok := p]> (timers_ q) ∧
  (∀ tok' l', tok' ≠ tok → indexed q tok' l' → indexed q' tok' l').
Proof.
  intros Hwf Hp0 Hp Heq.
  destruct (enqueue_timer_link_others q time h tok p Hwf Hp0 Hp)
    as (q3 & Heq3 & Hwf3 & Hh3 & _ & _ & _ & Ht3 & Hother).
  rewrite Heq3 in Heq.
  destruct (up_heap comp _ q3) as [q4|] eqn:Hup; simpl in Heq; [|done].
  destruct (heap_ q4 !! 0); simpl in Heq; [|done]. simplify_eq.
  unfold up_heap in Hup.
  apply up_heap_loop_Some in Hup as (_ & _ & _ & Ht4 & Hf4); [|apply Hwf3].
  split; [congruence|]. intros tok' l' Hne Hl'.
  eapply indexed_frame; [done|done|]. by apply Hother.
Qed.

(** X19. Every operation keeps the order of the chains of the token
    index: after an operation that leaves a state, the chain of a token
    is the chain it was, without the entries on which the operation has
    made a callback, and with the new entry in front when the operation
    is [enqueue_timer] with that token. *)
Theorem chain_order_kept (o : op) (q q' : queue) tok l :
  reachable q → fresh_for o q → final (step o q) = Some q' →
  chain_of q tok l →
  chain_of q' tok
    (match o with
     | Enqueue _ _ tok' p => if decide (tok' = tok) then p :: l else l
     | _ => without (events_of (step o q)) l
     end).
Proof.
  intros Hwf%reachable_wf Hfresh Hfin Hl.
  destruct o as [time h tok' p|time|tok']; unfold step in *.
  - destruct Hfresh as [Hp0 Hp].
    destruct (enqueue_timer_spec q time h tok' p Hwf Hp0 Hp)
      as (b & q1 & Heq & _ & _ & _ & _ & _ & l0 & Hold & Hnew).
    destruct (enqueue_timer_others q time h tok' p b q1 Hwf Hp0 Hp Heq)
      as [Htim Hoth].
    rewrite Heq in Hfin. simpl in Hfin. simplify_eq.
    destruct (decide (tok' = tok)) as [->|Hne].
    + assert (l0 = l) as <-; [|done].
      destruct l as [|y l]; simpl in Hl.
      * by rewrite Hl in Hold.
      * destruct Hl as (Hn & Hhd & Hc). rewrite Hhd in Hold.
        eapply indexed_unique; [exact Hold|done].
    + destruct l as [|y l]; simpl in *.
      * rewrite Htim. by rewrite lookup_insert_ne.
      * by apply Hoth.
  - by apply dispatch_loop_chain_of.
  - unfold cancel_timer in *.
    destruct (timers_ q !! tok') as [t|] eqn:Ht.
    + apply cancel_loop_chain_of; [done| |done|done].
      right. by eapply wf_head_pending.
    + simpl in Hfin. simplify_eq. simpl. by rewrite without_nil.
Qed.

End chain_order.

(** ** [enqueue_timer] followed by [cancel_timer] *)

Section round_trip.




End round_trip.

(** ** The value that [enqueue_timer] returns *)

Section signal.

Lemma up_heap_loop_root n i (q q' : queue) p :
  heap_ok q → heap_ q !! i = Some p →
  up_heap_loop comp n i q = Some q' →
  heap_ q' !! 0 = Some p ∨ heap_ q' !! 0 = heap_ q !! 0.
Proof.
  revert i q. induction n as [|n IH]; intros i q Hok Hp H; simpl in H.
  { right. by simplify_eq. }
  destruct (0 <? i) eqn:H0; [|right; by simplify_eq].
  apply Nat.ltb_lt in H0.
  rewrite !time_at_time_of, Hp in H. simpl in H.
  destruct (time_of q p) as [a|]; simpl in H; [|done].
  destruct (heap_ q !! (i / 2)) as [pj|] eqn:Hpj; simpl in H; [|done].
  destruct (time_of q pj) as [b|]; simpl in H; [|done].
  destruct (comp a b); [|right; by simplify_eq].
  destruct (swap_heap_spec q _ _ _ _ Hok Hp Hpj)
    as (q1 & Hsw & Hh1 & Hok1 & _).
  rewrite Hsw in H. simpl in H.
  assert (i / 2 < i) as Hhalf by (apply Nat.div_lt; lia).
  pose proof (lookup_lt_Some _ _ _ Hp) as Hlen.
  assert (heap_ q1 !! (i / 2) = Some p) as Hp1.
  { rewrite Hh1. apply list_lookup_insert_eq. rewrite length_insert. lia. }
  destruct (IH _ _ Hok1 Hp1 H) as [|Hroot]; [by left|].
  destruct (decide (i / 2 = 0)) as [Hz|Hz].
  - left. rewrite Hroot. by rewrite Hz in Hp1.
  - right. rewrite Hroot, Hh1. by rewrite !list_lookup_insert_ne by lia.
Qed.

(** X22. What the value that [enqueue_timer] returns tells the caller, in
    every state that a sequence of operations produces: when it is true
    the new entry is at the root and [get_earliest_time] yields the new
    deadline; when it is false the queue was not empty and
    [get_earliest_time] yields what it yielded before the call. *)
Theorem enqueue_timer_signal (q : queue) time h tok p b q' :
  reachable q → p ≠ 0%Z → store q !! p = None →
  enqueue_timer comp npos time h tok p q = Some (b, q') →
  (b = true → heap_ q' !! 0 = Some p ∧ get_earliest_time q' = Some time) ∧
  (b = false → empty q = false ∧ heap_ q' !! 0 = heap_ q !! 0 ∧
               get_earliest_time q' = get_earliest_time q).
Proof.
  intros Hwf%reachable_wf Hp0 Hp Heq.
  destruct (enqueue_timer_link q time h tok p Hwf Hp0 Hp)
    as (q3 & Heq3 & Hwf3 & Hh3 & Hpay3 & Hnew3 & _).
  rewrite Heq3 in Heq.
  destruct (up_heap comp _ q3) as [q4|] eqn:Hup; simpl in Heq; [|done].
  destruct (heap_ q4 !! 0) as [root|] eqn:Hroot; simpl in Heq; [|done].
  injection Heq as <- <-.
  unfold up_heap in Hup.
  pose proof (up_heap_loop_Some _ _ _ _ (wf_heap _ Hwf3) Hup)
    as (Hok4 & _ & _ & _ & Hf4).
  assert (length (heap_ q3) - 1 = length (heap_ q)) as Hlast
    by (rewrite Hh3, length_app; simpl; lia).
  rewrite Hlast in Hup.
  assert (heap_ q3 !! length (heap_ q) = Some p) as Hp3
    by (rewrite Hh3; apply list_lookup_middle; done).
  assert (∀ x, time_of q4 x = time_of q3 x) as Ht4
    by (intros x; by apply frame_time_of).
  assert (time_of q3 p = Some time) as Htp.
  { unfold time_of. destruct (store q3 !! p); simpl in *; [|done].
    unfold payload in Hnew3. by simplify_eq. }
  unfold get_earliest_time. rewrite !time_at_time_of, Hroot. simpl.
  split.
  - intros Hb%bool_decide_eq_true. subst root.
    split; [done|]. by rewrite Ht4.
  - intros Hb%bool_decide_eq_false.
    destruct (up_heap_loop_root _ _ _ _ p (wf_heap _ Hwf3) Hp3 Hup)
      as [Hr|Hr]; [congruence|].
    rewrite Hroot, Hh3 in Hr.
    destruct (heap_ q) as [|r hq] eqn:Hh.
    { simpl in Hr. congruence. }
    simpl in Hr. injection Hr as ->.
    split; [unfold empty; by rewrite Hh|]. split; [done|]. simpl.
    rewrite Ht4. unfold time_of. specialize (Hpay3 r Hb).
    destruct (store q3 !! r), (store q !! r); unfold payload in *;
      simpl in *; congruence.
Qed.

End signal.

(** ** The sentinel of the constructor *)

Section sentinel.

Lemma bind_congr {A B C} (m1 m2 : option A) (f : A → option B)
    (g : B → option C) :
  m1 ≫= f = m2 ≫= f → m1 ≫= (λ x, f x ≫= g) = m2 ≫= (λ x, f x ≫= g).
Proof.
  destruct m1 as [a|], m2 as [b|]; simpl; intros H; [by rewrite H..| |done].
  by rewrite <- H.
Qed.

(** X23. The value [~0] that the constructor of [timer_base] stores in
    [heap_index_] is never read: [enqueue_timer] overwrites it with the
    index of the new entry before any use, so its result is the same for
    every value of the sentinel, in every state. *)
Theorem enqueue_timer_sentinel_unused (n1 n2 : nat) time h tok p (q : queue) :
  enqueue_timer comp n1 time h tok p q = enqueue_timer comp n2 time h tok p q.
Proof.
  unfold enqueue_timer. qsimpl.
  assert (∀ n,
    (match timers_ q !! tok with
     | Some head =>
         qa ← update_obj head (set_prev p)
                (set_store (<[p := mk_timer time tok 0 0 n h]> (store q)) q);
         qb ← update_obj p (set_next head) qa;
         Some (set_timers (<[tok := p]> (timers_ qb)) qb)
     | None =>
         Some (set_timers (<[tok := p]> (timers_ q))
                 (set_store (<[p := mk_timer time tok 0 0 n h]> (store q)) q))
     end ≫= λ q1, update_obj p (set_heap_index (length (heap_ q1))) q1) =
    (match timers_ q !! tok with
     | Some head =>
         if decide (head = p) then
           Some (mk_queue (<[tok := p]> (timers_ q)) (heap_ q)
                   (<[p := mk_timer time tok p p (length (heap_ q)) h]>
                      (store q)))
         else
           tbh ← store q !! head;
           Some (mk_queue (<[tok := p]> (timers_ q)) (heap_ q)
                   (<[p := mk_timer time tok head 0 (length (heap_ q)) h]>
                      (<[head := set_prev p tbh]> (store q))))
     | None =>
         Some (mk_queue (<[tok := p]> (timers_ q)) (heap_ q)
                 (<[p := mk_timer time tok 0 0 (length (heap_ q)) h]>
                    (store q)))
     end)) as Hq2.
  { intros n. destruct (timers_ q !! tok) as [head|].
    - unfold update_obj. qsimpl. destruct (decide (head = p)) as [->|Hne].
      + rewrite lookup_insert_eq. simpl. rewrite lookup_insert_eq. simpl.
        rewrite lookup_insert_eq. simpl. by rewrite !insert_insert_eq.
      + rewrite lookup_insert_ne by done.
        destruct (store q !! head) as [tbh|]; simpl; [|done].
        rewrite lookup_insert_ne by done. rewrite lookup_insert_eq. simpl.
        rewrite lookup_insert_eq. simpl. rewrite insert_insert_eq.
        rewrite (insert_insert_ne _ head p) by done.
        by rewrite insert_insert_eq.
    - unfold update_obj. simpl. rewrite lookup_insert_eq. simpl.
      by rewrite insert_insert_eq. }
  pose proof (Hq2 n1) as H1. pose proof (Hq2 n2) as H2.
  rewrite <- H2 in H1. clear Hq2 H2.
  apply (bind_congr _ _
           (λ q1, update_obj p (set_heap_index (length (heap_ q1))) q1)).
  exact H1.
Qed.

End sentinel.

(** ** The loop of [cancel_timer] *)

Section bounds.

(** X24. The loop of [cancel_timer] ends before its bound, since every
    iteration deletes one timer object: the function satisfies the
    equation of the source, the [while] loop one iteration unrolled, in
    every state. *)
Theorem cancel_timer_unfold token (q : queue) :
  cancel_timer comp do_operation_throws do_cancel_throws token q =
    match timers_ q !! token with
    | None => Done [] q
    | Some t =>
        if (t =? 0)%Z then Done [] q
        else match store q !! t with
             | None => Undef []
             | Some tb =>
                 retire comp do_operation_throws do_cancel_throws
                   DoCancel t q
                   (cancel_from comp do_operation_throws do_cancel_throws
                      (next_ tb))
             end
    end.
Proof.
  unfold cancel_timer. destruct (timers_ q !! token) as [t|]; [|done].
  apply cancel_from_unfold.
Qed.

End bounds.

(** ** How the operations compose *)

Section composition.

Abbreviation dispatch_loop :=
  (dispatch_loop comp do_operation_throws do_cancel_throws).
Abbreviation dispatch_timers :=
  (dispatch_timers comp do_operation_throws do_cancel_throws).
Abbreviation cancel_timer :=
  (cancel_timer comp do_operation_throws do_cancel_throws).

(** X25. [dispatch_timers(time)] makes no callback exactly when the queue
    is empty or the deadline that [get_earliest_time] yields is not due:
    the caller can decide from [get_earliest_time] whether a dispatch
    fires anything. *)
Theorem dispatch_timers_fires_iff_due time (q : queue) :
  reachable q →
  (events_of (dispatch_timers time q) = [] ↔
   ∀ t, get_earliest_time q = Some t → comp t time = false).
Proof.
  intros Hwf%reachable_wf.
  assert (get_earliest_time q =
            match heap_ q with
            | [] => None
            | t :: _ => time_ <$> store q !! t
            end) as ->.
  { unfold get_earliest_time, time_at.
    destruct (heap_ q) as [|t h]; [done|]. simpl.
    by destruct (store q !! t). }
  unfold dispatch_timers. simpl.
  destruct (heap_ q) as [|t h] eqn:Hh; [done|].
  assert (t ∈ heap_ q) as Hin by (rewrite Hh; left).
  destruct (wf_heap_store _ _ Hwf Hin) as [tb Htb]. rewrite Htb.
  change (time_ <$> Some tb) with (Some (time_ tb)).
  destruct (comp (time_ tb) time) eqn:Hc.
  2:{ split; [|done]. intros _ t0 [= <-]. done. }
  split; [|intros H; specialize (H _ eq_refl); congruence].
  unfold retire.
  destruct (remove_timer comp t q) as [q1|] eqn:Hrm.
  2:{ apply wf_remove_timer_defined in Hrm; [|done..].
      rewrite (root_not_at_end q t h) in Hrm; [done|apply Hwf|done]. }
  destruct (remove_timer_spec _ _ _ Hwf Hin Hrm) as (_ & _ & Hpay).
  destruct (same_payload_lookup _ _ _ _ Hpay Htb) as (tb1 & -> & _).
  destruct (do_operation_throws (handler_ tb1)); [done|].
  by rewrite events_of_after.
Qed.

(** X26. [dispatch_timers(time)] called again with the same time, right
    after it has returned, makes no callback and changes nothing: entries
    that the first call has left behind are not fired by a second call. *)
Theorem dispatch_timers_again time (q : queue) evs q' :
  reachable q → dispatch_timers time q = Done evs q' →
  dispatch_timers time q' = Done [] q'.
Proof.
  intros Hwf%reachable_wf Hd.
  pose proof (dispatch_timers_ok time q Hwf) as (_ & _ & Hfin).
  rewrite Hd in Hfin. destruct Hfin as (Hwf' & _).
  pose proof (dispatch_loop_root (S (length (heap_ q))) time q evs q')
    as Hroot.
  specialize (Hroot ltac:(lia) Hd).
  unfold dispatch_timers. simpl.
  destruct (heap_ q') as [|t h] eqn:Hh; [done|].
  assert (t ∈ heap_ q') as Hin by (rewrite Hh; left).
  destruct (wf_heap_store _ _ Hwf' Hin) as [tb Htb]. rewrite Htb.
  by rewrite (Hroot t tb).
Qed.

(** X27. [cancel_timer(token)] called again, right after it has returned,
    makes no callback and changes nothing. *)
Theorem cancel_timer_again tok (q : queue) evs q' :
  reachable q → cancel_timer tok q = Done evs q' →
  cancel_timer tok q' = Done [] q'.
Proof.
  intros Hwf%reachable_wf Hd.
  destruct (cancel_timer_Done tok q evs q' Hwf Hd) as (Hnone & _).
  by apply cancel_timer_absent.
Qed.

(** X28. An operation that a callback leaves by an exception leaves a
    queue that can still be used: the state is one that a sequence of
    operations produces, the exception is that of the last callback made,
    every entry that got no callback is still pending, no other entry is,
    and the timer objects keep their deadline, token and handler. *)
Theorem step_throws_keeps_rest (o : op) (q : queue) evs q' :
  reachable q → fresh_for o q → step o q = Threw evs q' →
  reachable q' ∧
  (∃ evs0 ev, evs = evs0 ++ [ev] ∧ throws ev = true ∧
              Forall (λ e, throws e = false) evs0) ∧
  (∀ x, pending q' x ↔ pending q x ∧ x ∉ timers_of evs) ∧
  (∀ x tb', store q' !! x = Some tb' →
            payload <$> store q !! x = Some (payload tb')).
Proof.
  intros Hr Hfresh Hstep. pose proof (reachable_wf _ Hr) as Hwf.
  split; [by eapply reach_threw|].
  assert (loop_ok q (Threw evs q')) as (_ & _ & Hwf' & Hm & _ & Hsh).
  { rewrite <- Hstep. destruct o as [time h tok p|time|tok]; unfold step.
    - unfold step in Hstep.
      by destruct (enqueue_timer comp npos time h tok p q) as [[? ?]|].
    - by apply dispatch_timers_ok.
    - by apply cancel_timer_ok. }
  split; [|split].
  - destruct Hsh as (evs0 & ev & -> & Hth & _ & Hall). by exists evs0, ev.
  - intros x. rewrite (wf_pending q' x Hwf'), (wf_pending q x Hwf). apply Hm.
  - intros x tb' Hx.
    destruct (step_payload o q q' Hwf Hfresh) with (x := x) (tb' := tb')
      as [Hp|(time & h & tok & -> & _)]; [by rewrite Hstep|done|done|].
    unfold step in Hstep.
    by destruct (enqueue_timer comp npos time h tok x q) as [[? ?]|].
Qed.

End composition.

End proofs.

(** ** The scenarios *)

Import Scenarios.

Section scenario_facts.

Abbreviation reachable := (reachable Z.ltb throwing throwing npos16).
Abbreviation history := (history Z.ltb throwing throwing npos16).
Abbreviation step := (step Z.ltb throwing throwing npos16).

Lemma one_reachable : reachable one.
Proof.
  apply (reach_done _ _ _ _ init (enq 5 101 1000) [] one).
  - apply reach_init.
  - split; [done|reflexivity].
  - vm_compute. reflexivity.
Qed.

Lemma one_failing_reachable : reachable one_failing.
Proof.
  apply (reach_done _ _ _ _ init (Enqueue 5%Z (Failing 5) 101%Z 1000%Z) []
           one_failing).
  - apply reach_init.
  - split; [done|reflexivity].
  - vm_compute. reflexivity.
Qed.

Lemma same_token_reachable : reachable (state_of (run_ops same_token init)).
Proof.
  apply (reach_done _ _ _ _
           (state_of (run_ops [enq 5 101 1000; enq 1 101 1016] init))
           (enq 3 101 1032) []).
  - apply (reach_done _ _ _ _ one (enq 1 101 1016) []).
    + apply one_reachable.
    + split; [done|vm_compute; reflexivity].
    + vm_compute; reflexivity.
  - split; [done|vm_compute; reflexivity].
  - vm_compute; reflexivity.
Qed.

Lemma same_token_indexed :
  indexed (state_of (run_ops same_token init)) 101 [1032; 1016; 1000]%Z.
Proof.
  split; [done|]. split; [vm_compute; reflexivity|]. split.
  - apply (bool_decide_unpack _). vm_compute. exact I.
  - intros [|[|[|i]]] x Hx; simpl in Hx; simplify_eq.
    + split; [done|]. eexists. split; [vm_compute; reflexivity|]. done.
    + split; [done|]. eexists. split; [vm_compute; reflexivity|]. done.
    + split; [done|]. eexists. split; [vm_compute; reflexivity|]. done.
Qed.

(** A state of a scenario is reachable: one [reach_done] for each
    operation, from the last one back. *)
Ltac reach_step ops k o :=
  eapply (reach_done _ _ _ _ (state_of (run_ops (take k ops) init)) o);
  [ | first [done | split; [done | vm_compute; reflexivity]]
    | vm_compute; reflexivity ].

Lemma four_less_one_reachable :
  reachable (state_of (run_ops four_less_one init)).
Proof.
  reach_step four_less_one 4 (Cancel (Time := Z) (Handler := handler) 102).
  reach_step four_less_one 3 (enq 5 104 1048).
  reach_step four_less_one 2 (enq 3 103 1032).
  reach_step four_less_one 1 (enq 2 102 1016).
  reach_step four_less_one 0 (enq 1 101 1000).
  apply reach_init.
Qed.

Lemma three_tokens_reachable :
  reachable (state_of (run_ops three_tokens init)).
Proof.
  reach_step three_tokens 2 (enq 30 103 1032).
  reach_step three_tokens 1 (enq 20 102 1016).
  reach_step three_tokens 0 (enq 10 101 1000).
  apply reach_init.
Qed.

Lemma three_tokens_pending x :
  pending (state_of (run_ops three_tokens init)) x →
  x ∈ [1000; 1016; 1032]%Z.
Proof.
  intros Hx%wf_pending; [done|].
  apply (reachable_wf Z.ltb throwing throwing npos16).
  apply three_tokens_reachable.
Qed.

Ltac enq_step k time token p :=
  eapply (enqueued_step _ _ (state_of (run_ops (take k seven) init))
            time (Returning time) token p);
  [ | done | vm_compute; reflexivity | vm_compute; reflexivity ].

Lemma seven_enqueued :
  enqueued Z.ltb npos16 (state_of (run_ops seven init)).
Proof.
  enq_step 6 6%Z 107%Z 1096%Z. enq_step 5 12%Z 106%Z 1080%Z.
  enq_step 4 11%Z 105%Z 1064%Z. enq_step 3 3%Z 104%Z 1048%Z.
  enq_step 2 10%Z 103%Z 1032%Z. enq_step 1 2%Z 102%Z 1016%Z.
  enq_step 0 1%Z 101%Z 1000%Z. apply enqueued_init.
Qed.

Lemma ltb_strict_weak_order : strict_weak_order Z.ltb.
Proof.
  split.
  - intros a b. rewrite Z.ltb_lt, Z.ltb_ge. lia.
  - intros a b c. rewrite !Z.ltb_lt, Z.ltb_ge. lia.
Qed.

Lemma ltb_negative_transitive (a b c : Z) :
  (a <? b)%Z = true → (c <? b)%Z = false → (a <? c)%Z = true.
Proof. rewrite !Z.ltb_lt, Z.ltb_ge. lia. Qed.

(** Scenario of the specification: three timers with the deadlines 5, 1,
    3 under one token;
    the earliest deadline is 1; [cancel_timer] calls [do_cancel] on the
    three, the most recently enqueued first, and leaves the queue empty
    with no object allocated. *)
Example same_token_cancelled :
  call_get_earliest_time (state_of (run_ops same_token init)) = Returns 1%Z ∧
  called (run_ops (same_token ++ [Cancel 101%Z]) init)
    = [(DoCancel, Returning 3); (DoCancel, Returning 1);
       (DoCancel, Returning 5)] ∧
  run_ops (same_token ++ [Cancel 101%Z]) init
    = Done (events_of (run_ops (same_token ++ [Cancel 101%Z]) init)) init.
Proof. repeat split; vm_compute; reflexivity. Qed.

(** Scenario of the specification: the deadlines 10, 20, 30 with distinct
    tokens;
    [dispatch_timers(25)] fires 10 then 20 and leaves 30 pending, which is
    then the earliest deadline. *)
Example three_tokens_dispatched :
  called (run_ops (three_tokens ++ [Dispatch 25%Z]) init)
    = [(DoOperation, Returning 10); (DoOperation, Returning 20)] ∧
  final_times (run_ops (three_tokens ++ [Dispatch 25%Z]) init)
    = Some [Some 30%Z] ∧
  call_get_earliest_time
    (state_of (run_ops (three_tokens ++ [Dispatch 25%Z]) init))
    = Returns 30%Z.
Proof. repeat split; vm_compute; reflexivity. Qed.

(** X10. Scenario: [enqueue_timer] with the deadlines 5, 2, 8 returns
    true, true, false. *)
Example enqueue_5_2_8 :
  let r1 := enqueue_timer Z.ltb npos16 5%Z (Returning 5) 101%Z 1000%Z init in
  let r2 := enqueue_timer Z.ltb npos16 2%Z (Returning 2) 102%Z 1016%Z
              (enq_state r1) in
  let r3 := enqueue_timer Z.ltb npos16 8%Z (Returning 8) 103%Z 1032%Z
              (enq_state r2) in
  fst <$> r1 = Some true ∧ fst <$> r2 = Some true ∧ fst <$> r3 = Some false.
Proof. repeat split; vm_compute; reflexivity. Qed.

(** C1. The heap property does not hold after every sequence of
    operations. Seven [enqueue_timer] calls with the deadlines 1, 2, 10, 3,
    11, 12, 6 leave the heap array in this order: [up_heap] compares the
    new timer at index 6 with the timer at index [6 / 2 = 3], not with its
    parent at index [(6 - 1) / 2 = 2], so the deadline 6 stays below the
    deadline 10. Neither the comparator on (parent, child) nor "the child
    does not precede the parent" holds there. *)
Theorem heap_property_broken :
  let q := state_of (run_ops seven init) in
  run_ops seven init = Done [] q ∧
  heap_times q = [Some 1; Some 2; Some 10; Some 3; Some 11; Some 12; Some 6]%Z ∧
  time_at 6 q = Some 6%Z ∧ time_at ((6 - 1) / 2) q = Some 10%Z ∧
  ¬ heap_property Z.ltb q ∧ ¬ heap_ordered Z.ltb q.
Proof.
  split; [vm_compute; reflexivity|].
  split; [vm_compute; reflexivity|].
  split; [vm_compute; reflexivity|].
  split; [vm_compute; reflexivity|].
  split.
  - intros H. specialize (H 6 6%Z 10%Z). vm_compute in H.
    assert (false = true) as Hf by (apply H; [lia|done|done]). done.
  - intros H. specialize (H 6 6%Z 10%Z). vm_compute in H.
    assert (true = false) as Hf by (apply H; [lia|done|done]). done.
Qed.

(** C2. [dispatch_timers] does not fire exactly the due timers in the
    order of their deadlines. Four timers with the deadlines 1, 3, 2, 4 are
    allocated at growing addresses; the heap array holds 1, 2, 3, 4.
    [dispatch_timers(3)] fires the timer of deadline 1 and stops with 3 at
    the root: the timer of deadline 2 is due and stays pending.
    [dispatch_timers(100)] fires 1, 3, 2, 4. In both, [down_heap] picks the
    child at the lower address, the one of deadline 3. *)
Theorem dispatch_leaves_due_timer :
  final_times (run_ops four_up init)
    = Some [Some 1; Some 2; Some 3; Some 4]%Z ∧
  called (run_ops (four_up ++ [Dispatch 3%Z]) init)
    = [(DoOperation, Returning 1)] ∧
  final_times (run_ops (four_up ++ [Dispatch 3%Z]) init)
    = Some [Some 3; Some 2; Some 4]%Z ∧
  called (run_ops (four_up ++ [Dispatch 100%Z]) init)
    = [(DoOperation, Returning 1); (DoOperation, Returning 3);
       (DoOperation, Returning 2); (DoOperation, Returning 4)].
Proof. repeat split; vm_compute; reflexivity. Qed.

(** C5. The choice of the child in [down_heap] depends on the addresses of
    the timers, not on their deadlines alone: the same four deadlines,
    enqueued in the same order and lying in the heap array in the same
    order, are dispatched differently when the addresses grow and when
    they shrink. *)
Theorem min_child_by_address :
  final_times (run_ops four_up init)
    = Some [Some 1; Some 2; Some 3; Some 4]%Z ∧
  final_times (run_ops four_down init)
    = Some [Some 1; Some 2; Some 3; Some 4]%Z ∧
  called (run_ops (four_up ++ [Dispatch 3%Z]) init)
    = [(DoOperation, Returning 1)] ∧
  called (run_ops (four_down ++ [Dispatch 3%Z]) init)
    = [(DoOperation, Returning 1); (DoOperation, Returning 2)].
Proof. repeat split; vm_compute; reflexivity. Qed.

(** C6. [cancel_timer] does not cancel the timers of every token. After
    four timers with the deadlines 1, 2, 3, 5 and distinct tokens and after
    the cancellation of the second, the heap array holds 1, 5, 3.
    [cancel_timer] of the token of the timer of deadline 3 reaches the
    out-of-range read of [up_heap] before any callback is made: its
    behaviour is undefined. *)
Theorem cancel_last_timer_undefined :
  let q := state_of (run_ops four_less_one init) in
  called (run_ops four_less_one init) = [(DoCancel, Returning 2)] ∧
  heap_times q = [Some 1; Some 5; Some 3]%Z ∧
  timers_ q !! 103%Z = Some 1032%Z ∧
  cancel_timer Z.ltb throwing throwing 103 q = Undef [].
Proof. repeat split; vm_compute; reflexivity. Qed.

(** C10. An access to the heap array is out of range. In the state of C6,
    [remove_timer] of the timer at the last index 2 swaps it with itself
    and pops it; the array has two elements. The test before [up_heap]
    compares the deadline 3 of the removed timer with the deadline 5 at
    index [2 / 2], which is in range, and holds; [up_heap(2)] then reads
    [heap_[2]]. *)
Theorem up_heap_reads_out_of_range :
  let q := state_of (run_ops four_less_one init) in
  ∃ q1,
    heap_ q = [1000; 1048; 1032]%Z ∧
    heap_index_ <$> store q !! 1032%Z = Some 2 ∧
    swap_heap 2 (length (heap_ q) - 1) q = Some q1 ∧
    let q2 := set_heap (removelast (heap_ q1)) q1 in
    length (heap_ q2) = 2 ∧
    time_of q2 1032%Z = Some 3%Z ∧ time_at (2 / 2) q2 = Some 5%Z ∧
    heap_ q2 !! 2 = None ∧
    up_heap Z.ltb 2 q2 = None ∧
    remove_timer Z.ltb 1032 q = None.
Proof.
  eexists. split; [vm_compute; reflexivity|].
  split; [vm_compute; reflexivity|].
  split; [vm_compute; reflexivity|].
  repeat split; vm_compute; reflexivity.
Qed.

(** C8. The consistency of the two structures does not hold after every
    sequence of operations. The state after four [enqueue_timer] calls
    and [cancel_timer(102)] is reachable and consistent: the entry of
    deadline 5 is pending at index 1 of the heap, as its [heap_index_]
    says. The next call [cancel_timer(103)] reaches the out-of-range
    read of [up_heap] (C10): the sequence has undefined behaviour and
    produces no state at all, so nothing holds of the entry of deadline 5
    after it. *)
Theorem consistency_lost_by_cancel :
  let q := state_of (run_ops four_less_one init) in
  let r := run_ops (four_less_one ++ [Cancel 103%Z]) init in
  reachable q ∧
  heap_ q !! 1 = Some 1048%Z ∧
  heap_index_ <$> store q !! 1048%Z = Some 1 ∧
  time_of q 1048%Z = Some 5%Z ∧
  called r = [(DoCancel, Returning 2)] ∧
  r = Undef (events_of r) ∧
  final r = None.
Proof.
  split; [apply four_less_one_reachable|].
  repeat split; vm_compute; reflexivity.
Qed.

(** C3, counterexample: after one [enqueue_timer] the entry is pending
    and neither callback has been made on it. *)
Lemma pending_entry_has_no_callback :
  let o := enq 5 101 1000 in
  let h := [] ++ marks_of o (step o init) in
  history h (final (step o init)) ∧
  creations 1000 h = 1 ∧ calls 1000 h = 0.
Proof.
  split; [|split; vm_compute; reflexivity].
  apply history_step; [apply history_init|]. split; [done|reflexivity].
Qed.

(** C4, counterexample: a second timer with the same deadline 5 has the
    minimum deadline among the two pending timers, and [enqueue_timer]
    returns false. *)
Lemma enqueue_tie_returns_false :
  let r := enqueue_timer Z.ltb npos16 5%Z (Returning 5) 102%Z 1016%Z one in
  reachable one ∧ fst <$> r = Some false ∧
  heap_times (enq_state r) = [Some 5; Some 5]%Z ∧
  ∀ x tx, x ∈ heap_ (enq_state r) → time_of (enq_state r) x = Some tx →
          (tx <? 5)%Z = false.
Proof.
  split; [apply one_reachable|].
  split; [vm_compute; reflexivity|].
  split; [vm_compute; reflexivity|].
  intros x tx Hx Htx.
  assert (heap_ (enq_state (enqueue_timer Z.ltb npos16 5%Z (Returning 5)
                              102%Z 1016%Z one)) = [1000; 1016]%Z) as Hh
    by (vm_compute; reflexivity).
  rewrite Hh in Hx.
  apply elem_of_cons in Hx as [->|Hx].
  { vm_compute in Htx. by simplify_eq. }
  apply list_elem_of_singleton in Hx as ->.
  vm_compute in Htx. by simplify_eq.
Qed.

(** C7, counterexample: the callback of the only timer throws; the
    exception leaves [dispatch_timers], the timer is out of both
    structures, and its object is still allocated. *)
Lemma throwing_callback_not_destroyed :
  let r := dispatch_timers Z.ltb throwing throwing 10%Z one_failing in
  reachable one_failing ∧
  called r = [(DoOperation, Failing 5)] ∧
  ∃ evs q', r = Threw evs q' ∧ heap_ q' = [] ∧ timers_ q' = ∅ ∧
            payload <$> store q' !! 1000%Z = Some (5%Z, 101%Z, Failing 5).
Proof.
  split; [apply one_failing_reachable|].
  split; [vm_compute; reflexivity|].
  eexists _, _. split; [vm_compute; reflexivity|].
  repeat split; vm_compute; reflexivity.
Qed.

(** C9, counterexample: on the empty queue the call is undefined, not a
    detected failure. *)
Lemma get_earliest_time_unchecked :
  empty init = true ∧
  call_get_earliest_time init = Undefined_behaviour ∧
  call_get_earliest_time init ≠ Fails_loudly.
Proof. repeat split; done. Qed.

(** Witnesses: the theorems at the queue with one timer. *)
Lemma exactly_one_callback_witness :
  let o1 := enq 5 101 1000 in
  let o2 := Dispatch (Handler := handler) 10%Z in
  let h := ([] ++ marks_of o1 (step o1 init)) ++ marks_of o2 (step o2 one) in
  (creations 1000 h = 1 ∧ calls 1000 h = 1 ∧ life 1000 h = Some false) ∧
  (∃ waiting : bool,
     life 1000 h = Some waiting ∧
     creations 1000 h = calls 1000 h + (if waiting then 1 else 0) ∧
     ∀ q, final (step o2 one) = Some q → (waiting = true ↔ pending q 1000)) ∧
  (∀ ev, Called ev ∈ h → ¬ pending (ev_queue ev) (ev_timer ev)).
Proof.
  split; [repeat split; vm_compute; reflexivity|].
  apply (exactly_one_callback Z.ltb throwing throwing npos16).
  apply history_step; [|done].
  assert (Some one = final (step (enq 5 101 1000) init)) as ->
    by (vm_compute; reflexivity).
  apply history_step; [apply history_init|]. split; [done|reflexivity].
Defined.

Lemma heap_index_consistency_witness :
  (∃ i tb, heap_ one !! i = Some 1000%Z ∧
           (∀ j, heap_ one !! j = Some 1000%Z → j = i) ∧
           store one !! 1000%Z = Some tb ∧ heap_index_ tb = i) ∧
  (∃ tb l, store one !! 1000%Z = Some tb ∧ indexed one (token_ tb) l ∧
           1000%Z ∈ l ∧ on_chain one (token_ tb) 1000 ∧
           ∀ tok', on_chain one tok' 1000 → tok' = token_ tb).
Proof.
  apply (heap_index_consistency Z.ltb throwing throwing npos16).
  - apply one_reachable.
  - left. vm_compute. left.
Defined.

Lemma get_earliest_time_contract_witness :
  (empty one = false →
     ∃ root tb, heap_ one !! 0 = Some root ∧ store one !! root = Some tb ∧
                call_get_earliest_time one = Returns (time_ tb)) ∧
  (empty one = true → call_get_earliest_time one = Undefined_behaviour).
Proof.
  apply (get_earliest_time_contract Z.ltb throwing throwing npos16).
  apply one_reachable.
Defined.

Lemma enqueue_timer_earliest_witness :
  ∃ b q', enqueue_timer Z.ltb npos16 2%Z (Returning 2) 102%Z 1016%Z one
          = Some (b, q') ∧
    (b = true ↔
     ∀ x tx, x ∈ heap_ one → time_of one x = Some tx → (2 <? tx)%Z = true).
Proof.
  apply (enqueue_timer_earliest Z.ltb throwing throwing npos16).
  - apply ltb_negative_transitive.
  - apply one_reachable.
  - done.
  - reflexivity.
  - intros r tr x tx Hr Htr Hx Htx.
    assert (heap_ one = [1000%Z]) as Hh by reflexivity.
    rewrite Hh in Hx, Hr. apply list_elem_of_singleton in Hx as ->.
    simpl in Hr. simplify_eq. apply Z.ltb_irrefl.
Defined.

Lemma callback_after_removal_witness :
  let ev := mk_event DoOperation 1000%Z (Failing 5)
              (mk_queue ∅ [] (store one_failing)) in
  ¬ pending (ev_queue ev) (ev_timer ev) ∧
  is_Some (store (ev_queue ev) !! ev_timer ev) ∧
  (throws throwing throwing ev = true →
     ∃ evs0, step (Dispatch 10%Z) one_failing
             = Threw (evs0 ++ [ev]) (ev_queue ev)).
Proof.
  apply (callback_after_removal Z.ltb throwing throwing npos16).
  - apply one_failing_reachable.
  - vm_compute. left.
Defined.

Lemma empty_iff_none_pending_witness :
  empty one = true ↔ ∀ x, ¬ pending one x.
Proof.
  apply (empty_iff_none_pending Z.ltb throwing throwing npos16).
  apply one_reachable.
Defined.

Lemma index_completeness_witness :
  (is_Some (timers_ one !! 101%Z) ↔
   ∃ x tb, pending one x ∧ store one !! x = Some tb ∧ token_ tb = 101%Z) ∧
  (∀ head, timers_ one !! 101%Z = Some head →
     head ≠ 0%Z ∧ pending one head ∧ on_chain one 101 head).
Proof.
  apply (index_completeness Z.ltb throwing throwing npos16).
  apply one_reachable.
Defined.

Lemma enqueue_timer_inserts_witness :
  ∃ b q' l,
    enqueue_timer Z.ltb npos16 2%Z (Returning 2) 102%Z 1016%Z one
      = Some (b, q') ∧
    (∀ x, pending q' x ↔ pending one x ∨ x = 1016%Z) ∧
    payload <$> store q' !! 1016%Z = Some (2%Z, 102%Z, Returning 2) ∧
    (∀ x, x ≠ 1016%Z →
       payload <$> store q' !! x = payload <$> store one !! x) ∧
    match timers_ one !! 102%Z with
    | None => l = []
    | Some _ => indexed one 102 l
    end ∧
    indexed q' 102 (1016%Z :: l).
Proof.
  apply (enqueue_timer_inserts Z.ltb throwing throwing npos16).
  - apply one_reachable.
  - done.
  - reflexivity.
Defined.

Lemma dispatch_timers_only_due_witness :
  let ev := mk_event DoOperation 1000%Z (Returning 5)
              (mk_queue ∅ [] (store one)) in
  ev_kind ev = DoOperation ∧
  ∃ tb, store (ev_queue ev) !! ev_timer ev = Some tb ∧
        (time_ tb <? 10)%Z = true.
Proof.
  apply (dispatch_timers_only_due Z.ltb throwing throwing npos16 10%Z one).
  - apply one_reachable.
  - vm_compute. left.
Defined.

Lemma cancel_timer_no_entry_witness :
  timers_ one !! 999%Z = None ∧
  cancel_timer Z.ltb throwing throwing 999 one = Done [] one.
Proof.
  apply (cancel_timer_no_entry Z.ltb throwing throwing npos16).
  - apply one_reachable.
  - intros x tb Hx%wf_pending Htb.
    + apply list_elem_of_singleton in Hx as ->.
      vm_compute in Htb. by simplify_eq.
    + apply (reachable_wf Z.ltb throwing throwing npos16), one_reachable.
Defined.

Lemma cancel_timer_chain_witness :
  let q := state_of (run_ops same_token init) in
  let evs := events_of (cancel_timer Z.ltb throwing throwing 101 q) in
  timers_of evs = [1032; 1016; 1000]%Z ∧
  Forall (λ ev, ev_kind ev = DoCancel) evs ∧
  ∀ x, x ∈ [1032; 1016; 1000]%Z → ¬ pending init x ∧ store init !! x = None.
Proof.
  apply (cancel_timer_chain Z.ltb throwing throwing npos16 101%Z
           [1032; 1016; 1000]%Z (state_of (run_ops same_token init))).
  - apply same_token_reachable.
  - apply same_token_indexed.
  - vm_compute. reflexivity.
Defined.


Lemma dispatch_timers_defined_witness :
  ∃ evs q',
    dispatch_timers Z.ltb throwing throwing 10%Z one_failing = Done evs q' ∨
    dispatch_timers Z.ltb throwing throwing 10%Z one_failing = Threw evs q'.
Proof.
  apply (dispatch_timers_defined Z.ltb throwing throwing npos16).
  apply one_failing_reachable.
Defined.

Lemma step_keeps_payload_witness :
  let o := enq 2 102 1016 in
  let tb' := mk_timer 5%Z 101%Z 0%Z 0%Z 1 (Returning 5) in
  payload <$> store one !! 1000%Z = Some (payload tb') ∨
  ∃ time h tok, o = Enqueue time h tok 1000%Z ∧ payload tb' = (time, tok, h).
Proof.
  apply (step_keeps_payload Z.ltb throwing throwing npos16
           (enq 2 102 1016) one (state_of (step (enq 2 102 1016) one))).
  - apply one_reachable.
  - split; [done|reflexivity].
  - vm_compute. reflexivity.
  - vm_compute. reflexivity.
Defined.

Lemma dispatch_timers_returns_witness :
  let q := state_of (run_ops three_tokens init) in
  let r := dispatch_timers Z.ltb throwing throwing 25%Z q in
  NoDup (timers_of (events_of r)) ∧
  (∀ x, x ∈ timers_of (events_of r) →
        pending q x ∧ store (state_of r) !! x = None) ∧
  (∀ x, pending (state_of r) x ↔ pending q x ∧ x ∉ timers_of (events_of r)) ∧
  (∀ x tb', store (state_of r) !! x = Some tb' →
            payload <$> store q !! x = Some (payload tb')) ∧
  (∀ root tb, heap_ (state_of r) !! 0 = Some root →
              store (state_of r) !! root = Some tb →
              (time_ tb <? 25)%Z = false).
Proof.
  apply (dispatch_timers_returns Z.ltb throwing throwing npos16).
  - apply three_tokens_reachable.
  - vm_compute. reflexivity.
Defined.

Lemma dispatch_timers_all_due_witness :
  let q := state_of (run_ops three_tokens init) in
  let r := dispatch_timers Z.ltb throwing throwing 100%Z q in
  heap_ (state_of r) = [] ∧ timers_ (state_of r) = ∅ ∧
  ∀ x, pending q x ↔ x ∈ timers_of (events_of r).
Proof.
  apply (dispatch_timers_all_due Z.ltb throwing throwing npos16 100%Z).
  - apply three_tokens_reachable.
  - intros x tb Hx%three_tokens_pending Htb.
    repeat (apply elem_of_cons in Hx as [->|Hx]);
      [vm_compute in Htb; by simplify_eq..|by apply elem_of_nil in Hx].
  - vm_compute. reflexivity.
Defined.

Lemma cancel_timer_returns_witness :
  let q := state_of (run_ops same_token init) in
  timers_ init !! 101%Z = None ∧
  (∀ x, pending init x ↔
        pending q x ∧ ∀ tb, store q !! x = Some tb → token_ tb ≠ 101%Z) ∧
  (∀ x tb', store init !! x = Some tb' →
            payload <$> store q !! x = Some (payload tb')).
Proof.
  apply (cancel_timer_returns Z.ltb throwing throwing npos16 101%Z
           (state_of (run_ops same_token init))
           (events_of (cancel_timer Z.ltb throwing throwing 101
                         (state_of (run_ops same_token init))))).
  - apply same_token_reachable.
  - vm_compute. reflexivity.
Defined.

Lemma no_leak_witness :
  is_Some (store one !! 1000%Z) ↔ pending one 1000.
Proof.
  apply (no_leak Z.ltb (λ _, false) (λ _, false) npos16).
  - by split.
  - apply (reach_done _ _ _ _ init (enq 5 101 1000) [] one).
    + apply reach_init.
    + split; [done|reflexivity].
    + vm_compute. reflexivity.
Defined.

Lemma enqueued_root_earliest_witness :
  let q := state_of (run_ops seven init) in
  up_ordered Z.ltb q ∧
  ∀ x tx, pending q x → time_of q x = Some tx →
    ∃ t, get_earliest_time q = Some t ∧ (tx <? t)%Z = false.
Proof.
  apply (enqueued_root_earliest Z.ltb npos16).
  - apply ltb_strict_weak_order.
  - apply seven_enqueued.
Defined.

Lemma chain_order_kept_witness :
  let q := state_of (run_ops same_token init) in
  let r := step (Dispatch 2%Z) q in
  chain_of (state_of r) 101 (without (events_of r) [1032; 1016; 1000]%Z).
Proof.
  apply (chain_order_kept Z.ltb throwing throwing npos16 (Dispatch 2%Z)
           (state_of (run_ops same_token init))).
  - apply same_token_reachable.
  - done.
  - vm_compute. reflexivity.
  - apply same_token_indexed.
Defined.



Lemma enqueue_timer_signal_witness :
  let q' := enq_state (enqueue_timer Z.ltb npos16 2%Z (Returning 2) 102%Z
                         1016%Z one) in
  (true = true →
     heap_ q' !! 0 = Some 1016%Z ∧ get_earliest_time q' = Some 2%Z) ∧
  (true = false →
     empty one = false ∧ heap_ q' !! 0 = heap_ one !! 0 ∧
     get_earliest_time q' = get_earliest_time one).
Proof.
  apply (enqueue_timer_signal Z.ltb throwing throwing npos16 one 2%Z
           (Returning 2) 102%Z 1016%Z true).
  - apply one_reachable.
  - done.
  - reflexivity.
  - vm_compute. reflexivity.
Defined.

Lemma dispatch_timers_fires_iff_due_witness :
  events_of (dispatch_timers Z.ltb throwing throwing 3%Z one) = [] ↔
  ∀ t, get_earliest_time one = Some t → (t <? 3)%Z = false.
Proof.
  apply (dispatch_timers_fires_iff_due Z.ltb throwing throwing npos16).
  apply one_reachable.
Defined.

Lemma dispatch_timers_again_witness :
  let q := state_of (run_ops three_tokens init) in
  let q' := state_of (dispatch_timers Z.ltb throwing throwing 25%Z q) in
  dispatch_timers Z.ltb throwing throwing 25%Z q' = Done [] q'.
Proof.
  apply (dispatch_timers_again Z.ltb throwing throwing npos16 25%Z
           (state_of (run_ops three_tokens init))
           (events_of (dispatch_timers Z.ltb throwing throwing 25%Z
                         (state_of (run_ops three_tokens init))))).
  - apply three_tokens_reachable.
  - vm_compute. reflexivity.
Defined.

Lemma cancel_timer_again_witness :
  cancel_timer Z.ltb throwing throwing 101 init = Done [] init.
Proof.
  apply (cancel_timer_again Z.ltb throwing throwing npos16 101%Z
           (state_of (run_ops same_token init))
           (events_of (cancel_timer Z.ltb throwing throwing 101
                         (state_of (run_ops same_token init))))).
  - apply same_token_reachable.
  - vm_compute. reflexivity.
Defined.

Lemma step_throws_keeps_rest_witness :
  let r := step (Dispatch 10%Z) one_failing in
  reachable (state_of r) ∧
  (∃ evs0 ev, events_of r = evs0 ++ [ev] ∧
              throws throwing throwing ev = true ∧
              Forall (λ e, throws throwing throwing e = false) evs0) ∧
  (∀ x, pending (state_of r) x ↔
        pending one_failing x ∧ x ∉ timers_of (events_of r)) ∧
  (∀ x tb', store (state_of r) !! x = Some tb' →
            payload <$> store one_failing !! x = Some (payload tb')).
Proof.
  apply (step_throws_keeps_rest Z.ltb throwing throwing npos16
           (Dispatch 10%Z) one_failing).
  - apply one_failing_reachable.
  - done.
  - vm_compute. reflexivity.
Defined.

End scenario_facts.
